(** * ConvertWemp: quality analysis, parameter optimizer and batch processing

    A shallow embedding of the numeric core of the GIF to WebP converter
    (quality-analyzer, optimizer, converter statistics) and of the batch
    processor built on [p-map], with the properties of its specification.

    JavaScript numbers are modelled by [jsnum]: a finite number is a
    rational and every arithmetic operation on finite numbers is exact
    (IEEE rounding of the binary64 operations is not modelled, nor is the
    sign of zero); [Infinity], [-Infinity] and [NaN] are explicit.  A value
    so computed can differ from the one of the runtime in its last place;
    [Math.round] is taken on the exact value, so that on a tie of the exact
    value the runtime may round the other way ([estimateSSIM(34.15)] is
    0.842 here and 0.841 there).

    Where the optimizer takes [Math.floor] of a computed number the last
    place decides the integer, and these numbers are computed with the
    binary64 operations of [Binary64]. *)

From Stdlib Require Import ZArith QArith Qround Lia Lqa Bool List.
From Stdlib Require Import Strings.String Strings.Byte.
From Stdlib Require Import Floats.SpecFloat.
From stdpp Require Import gmap strings list.
Import ListNotations.

Set Warnings "-clear-no-such-hyp".
Set Default Proof Using "Type".

Local Open Scope Q_scope.

(** ** JavaScript numbers *)

Module JsNum.

Inductive jsnum : Type :=
| Num (q : Q)
| PosInf
| NegInf
| NaN.

Definition Qlt_bool (x y : Q) : bool := negb (Qle_bool y x).

Definition ofZ (z : Z) : jsnum := Num (inject_Z z).

Definition jneg (x : jsnum) : jsnum :=
  match x with
  | Num q => Num (- q)
  | PosInf => NegInf
  | NegInf => PosInf
  | NaN => NaN
  end.

Definition jadd (x y : jsnum) : jsnum :=
  match x, y with
  | NaN, _ | _, NaN => NaN
  | Num a, Num b => Num (a + b)
  | PosInf, NegInf | NegInf, PosInf => NaN
  | PosInf, _ | _, PosInf => PosInf
  | NegInf, _ | _, NegInf => NegInf
  end.

Definition jsub (x y : jsnum) : jsnum := jadd x (jneg y).

(** The infinity [PosInf] scaled by the sign of a finite factor. *)
Definition infTimes (q : Q) : jsnum :=
  if Qeq_bool q 0 then NaN else if Qlt_bool 0 q then PosInf else NegInf.

Definition jmul (x y : jsnum) : jsnum :=
  match x, y with
  | NaN, _ | _, NaN => NaN
  | Num a, Num b => Num (a * b)
  | PosInf, Num q | Num q, PosInf => infTimes q
  | NegInf, Num q | Num q, NegInf => jneg (infTimes q)
  | PosInf, PosInf | NegInf, NegInf => PosInf
  | PosInf, NegInf | NegInf, PosInf => NegInf
  end.

Definition jdiv (x y : jsnum) : jsnum :=
  match x, y with
  | NaN, _ | _, NaN => NaN
  | Num a, Num b => if Qeq_bool b 0 then infTimes a else Num (a / b)
  | Num _, _ => Num 0
  | PosInf, Num q => if Qlt_bool q 0 then NegInf else PosInf
  | NegInf, Num q => if Qlt_bool q 0 then PosInf else NegInf
  | _, _ => NaN
  end.

(** [x <= y] of JavaScript: false as soon as one side is [NaN]. *)
Definition jle (x y : jsnum) : bool :=
  match x, y with
  | NaN, _ | _, NaN => false
  | NegInf, _ | _, PosInf => true
  | Num a, Num b => Qle_bool a b
  | _, _ => false
  end.

(** [x >= y]. *)
Definition jge (x y : jsnum) : bool := jle y x.

(** [x === y] on numbers. *)
Definition jeq (x y : jsnum) : bool :=
  match x, y with
  | Num a, Num b => Qeq_bool a b
  | PosInf, PosInf | NegInf, NegInf => true
  | _, _ => false
  end.

(** [Math.min] and [Math.max] of two arguments. *)
Definition jmin (x y : jsnum) : jsnum :=
  match x, y with
  | NaN, _ | _, NaN => NaN
  | _, _ => if jle x y then x else y
  end.

Definition jmax (x y : jsnum) : jsnum :=
  match x, y with
  | NaN, _ | _, NaN => NaN
  | _, _ => if jle x y then y else x
  end.

(** [Math.round] on a finite number: halves go up. *)
Definition Qround_half_up (q : Q) : Z := Qfloor (q + (1 # 2)).

Definition jround (x : jsnum) : jsnum :=
  match x with Num q => ofZ (Qround_half_up q) | _ => x end.

End JsNum.

Import JsNum.

(** ** Binary64 numbers

    The IEEE 754 double precision numbers of the runtime, with the
    operations of the Standard Library's specification of floating point
    arithmetic: 53 bits of precision, exponents up to 1024, every result
    rounded to the nearest number, ties to even. *)

Module Binary64.

Definition float64 : Type := spec_float.

(** An integer as a number. *)
Definition ofInt (z : Z) : float64 := binary_normalize 53 1024 z 0 false.

Definition fadd : float64 -> float64 -> float64 := SFadd 53 1024.
Definition fsub : float64 -> float64 -> float64 := SFsub 53 1024.
Definition fmul : float64 -> float64 -> float64 := SFmul 53 1024.
Definition fdiv : float64 -> float64 -> float64 := SFdiv 53 1024.

(** The number that the decimal [q] denotes: the quotient of its numerator
    and denominator, which is the nearest binary64 number as long as both
    are below 2^53. *)
Definition ofDecimal (q : Q) : float64 :=
  fdiv (ofInt (Qnum q)) (ofInt (Z.pos (Qden q))).

(** [Math.min] of two numbers that are not both zero. *)
Definition fmin (x y : float64) : float64 :=
  match x, y with
  | S754_nan, _ | _, S754_nan => S754_nan
  | _, _ => if SFleb x y then x else y
  end.

(** [Math.floor] of a finite number; 0 stands for the result on a number
    that is not finite, which no input below 2^1024 produces. *)
Definition ffloor (x : float64) : Z :=
  match x with
  | S754_finite s m e =>
      let v := if s then Z.neg m else Z.pos m in
      if (0 <=? e)%Z then (v * 2 ^ e)%Z else (v / 2 ^ (- e))%Z
  | _ => 0%Z
  end.

End Binary64.

(** What a call does: it returns a value, throws an [Error] with a message,
    or never returns. *)
Inductive completion (A : Type) : Type :=
| Returns (a : A)
| Throws (message : string)
| Diverges.
Arguments Returns {A} a.
Arguments Throws {A} message.
Arguments Diverges {A}.

(** ** Quality analysis (quality-analyzer.js) *)

Module Quality.

(** One row of [QUALITY_THRESHOLDS]. *)
Record threshold : Type := {
  t_psnr : Q;
  t_ssim : Q;
  t_score : Q
}.

Module QUALITY_THRESHOLDS.

Definition excellent : threshold :=
  {| t_psnr := 40; t_ssim := 95 # 100; t_score := 90 |}.
Definition good : threshold :=
  {| t_psnr := 35; t_ssim := 90 # 100; t_score := 75 |}.
Definition acceptable : threshold :=
  {| t_psnr := 30; t_ssim := 85 # 100; t_score := 60 |}.
Definition poor : threshold :=
  {| t_psnr := 25; t_ssim := 80 # 100; t_score := 40 |}.
Definition unacceptable : threshold :=
  {| t_psnr := 20; t_ssim := 70 # 100; t_score := 20 |}.

End QUALITY_THRESHOLDS.

(** [pixels[i]] of a [Uint8Array] used as a number: the byte, or
    [undefined], which arithmetic turns into [NaN], past the end. *)
Definition byteValue (b : byte) : Z := Z.of_N (Byte.to_N b).

Definition pixelAt (pixels : list byte) (i : nat) : jsnum :=
  match nth_error pixels i with
  | Some b => ofZ (byteValue b)
  | None => NaN
  end.

(** The inner loop [for (let c = 0; c < channels; c++)] of [calculateMSE],
    with [n] iterations left. *)
Fixpoint channelLoop (originalPixels compressedPixels : list byte)
    (i c n : nat) (totalSquaredDiff : jsnum) : jsnum :=
  match n with
  | O => totalSquaredDiff
  | S n' =>
      let diff := jsub (pixelAt originalPixels (i + c))
                       (pixelAt compressedPixels (i + c)) in
      channelLoop originalPixels compressedPixels i (S c) n'
        (jadd totalSquaredDiff (jmul diff diff))
  end.

(** The outer loop [for (let i = 0; i < originalPixels.length; i += channels)];
    [None] when the fuel runs out before the loop ends. *)
Fixpoint pixelLoop (fuel : nat) (originalPixels compressedPixels : list byte)
    (channels i : nat) (totalSquaredDiff : jsnum) : option jsnum :=
  if (i <? length originalPixels)%nat then
    match fuel with
    | O => None
    | S fuel' =>
        pixelLoop fuel' originalPixels compressedPixels channels (i + channels)
          (channelLoop originalPixels compressedPixels i 0 channels
             totalSquaredDiff)
    end
  else Some totalSquaredDiff.

Definition ofNat (n : nat) : jsnum := ofZ (Z.of_nat n).

(** [calculateMSE(originalPixels, compressedPixels, channels)].  With
    [channels = 0] and a buffer that is not empty the loop of the source
    never advances: the model runs out of fuel and answers [Diverges]. *)
Definition calculateMSE (originalPixels compressedPixels : list byte)
    (channels : nat) : completion jsnum :=
  if negb (length originalPixels =? length compressedPixels)%nat then
    Throws "픽셀 배열 크기가 일치하지 않습니다"
  else
    let pixelCount := jdiv (ofNat (length originalPixels)) (ofNat channels) in
    match pixelLoop (length originalPixels) originalPixels compressedPixels
            channels 0 (Num 0) with
    | None => Diverges
    | Some totalSquaredDiff =>
        Returns (jdiv totalSquaredDiff (jmul pixelCount (ofNat channels)))
    end.

Section Builtins.

(** [Math.sqrt] and [Math.log10], which the source takes from the runtime. *)
Variable Math_sqrt : jsnum -> jsnum.
Variable Math_log10 : jsnum -> jsnum.

(** [calculatePSNR(mse, maxPixelValue)]. *)
Definition calculatePSNR (mse maxPixelValue : jsnum) : jsnum :=
  if jeq mse (Num 0) then PosInf
  else
    let psnr := jmul (Num 20) (Math_log10 (jdiv maxPixelValue (Math_sqrt mse))) in
    jdiv (jround (jmul psnr (Num 100))) (Num 100).

End Builtins.

(** [estimateSSIM(psnr)]. *)
Definition estimateSSIM (psnr : jsnum) : jsnum :=
  if jeq psnr PosInf then Num 1
  else
    let normalizedPSNR := jdiv (jmax (Num 0) (jmin (Num 50) psnr)) (Num 50) in
    let ssim := jadd (Num (5 # 10)) (jmul normalizedPSNR (Num (5 # 10))) in
    jdiv (jround (jmul ssim (Num 1000))) (Num 1000).

Import QUALITY_THRESHOLDS.

(** [calculateQualityScore(psnr, ssim, compressionRatio)]. *)
Definition calculateQualityScore (psnr ssim compressionRatio : jsnum) : jsnum :=
  let psnrScore :=
    if jge psnr (Num (t_psnr excellent)) then Num 100
    else if jge psnr (Num (t_psnr good)) then
      jadd (Num 75)
        (jmul (jdiv (jsub psnr (Num (t_psnr good)))
                    (jsub (Num (t_psnr excellent)) (Num (t_psnr good))))
              (Num 25))
    else if jge psnr (Num (t_psnr acceptable)) then
      jadd (Num 50)
        (jmul (jdiv (jsub psnr (Num (t_psnr acceptable)))
                    (jsub (Num (t_psnr good)) (Num (t_psnr acceptable))))
              (Num 25))
    else
      jmax (Num 0) (jmul (jdiv psnr (Num (t_psnr acceptable))) (Num 50)) in
  let ssimScore := jmul ssim (Num 100) in
  let compressionBonus := jmin (Num 10) (jmul compressionRatio (Num 15)) in
  let totalScore :=
    jadd (jadd (jmul psnrScore (Num (6 # 10))) (jmul ssimScore (Num (3 # 10))))
         (jmul compressionBonus (Num (1 # 10))) in
  jround (jmin (Num 100) (jmax (Num 0) totalScore)).

(** [getQualityGrade(psnr, ssim, qualityScore)]. *)
Definition getQualityGrade (psnr ssim qualityScore : jsnum) : string :=
  if jge psnr (Num (t_psnr excellent)) && jge qualityScore (Num (t_score excellent))
  then "excellent"
  else if jge psnr (Num (t_psnr good)) && jge qualityScore (Num (t_score good))
  then "good"
  else if jge psnr (Num (t_psnr acceptable))
          && jge qualityScore (Num (t_score acceptable))
  then "acceptable"
  else if jge psnr (Num (t_psnr poor)) then "poor"
  else "unacceptable".

(** The metrics of [compareImageQuality] that come from the pixels. *)
Record QualityAnalysisResult : Type := {
  psnr : jsnum;
  mse : jsnum;
  ssim : jsnum;
  compressionRatio : jsnum;
  qualityScore : jsnum;
  qualityGrade : string
}.

Section Compare.

Variable Math_sqrt : jsnum -> jsnum.
Variable Math_log10 : jsnum -> jsnum.

(** The computation of [compareImageQuality] once both images are decoded:
    the pixel buffers, the channel count and the ratio of the file sizes
    are what the file system and the codec gave.  An error of [calculateMSE]
    is rethrown with the prefix of the source's [catch]. *)
Definition compareImageQuality (originalPixels compressedPixels : list byte)
    (channels : nat) (compressionRatio : jsnum)
    : completion QualityAnalysisResult :=
  match calculateMSE originalPixels compressedPixels channels with
  | Throws message => Throws ("품질 비교 분석 실패: " +:+ message)
  | Diverges => Diverges
  | Returns mse =>
      let psnr := calculatePSNR Math_sqrt Math_log10 mse (Num 255) in
      let ssim := estimateSSIM psnr in
      let qualityScore := calculateQualityScore psnr ssim compressionRatio in
      let qualityGrade := getQualityGrade psnr ssim qualityScore in
      Returns {| psnr := psnr; mse := mse; ssim := ssim;
                 compressionRatio := compressionRatio;
                 qualityScore := qualityScore;
                 qualityGrade := qualityGrade |}
  end.

End Compare.

(** The mean of the squared differences of two buffers, as the
    specification words it: the sum over all bytes divided by their number. *)
Fixpoint sumSquaredDiff (a b : list byte) : Z :=
  match a, b with
  | x :: a', y :: b' =>
      (byteValue x - byteValue y) * (byteValue x - byteValue y)
      + sumSquaredDiff a' b'
  | _, _ => 0
  end.

Definition meanSquaredDiff (a b : list byte) : Q :=
  inject_Z (sumSquaredDiff a b) / inject_Z (Z.of_nat (length a)).

(** *** Facts on the numbers *)

Lemma Qle_bool_false (x y : Q) : Qle_bool x y = false -> y < x.
Proof.
  intros H. apply Qnot_le_lt. intros Hle.
  apply Qle_bool_iff in Hle. congruence.
Qed.

Lemma Qeq_bool_false (x y : Q) : Qeq_bool x y = false -> ~ x == y.
Proof. intros H Heq. apply Qeq_bool_iff in Heq. congruence. Qed.

(** Turns the boolean tests on rationals of the context into propositions. *)
Ltac qprops :=
  repeat match goal with
  | H : Qle_bool _ _ = true |- _ => apply Qle_bool_iff in H
  | H : Qle_bool _ _ = false |- _ => apply Qle_bool_false in H
  | H : Qeq_bool _ _ = true |- _ => apply Qeq_bool_iff in H
  | H : Qeq_bool _ _ = false |- _ => apply Qeq_bool_false in H
  end.

Lemma Qround_half_up_mono (x y : Q) :
  x <= y -> (Qround_half_up x <= Qround_half_up y)%Z.
Proof. intros H. unfold Qround_half_up. apply Qfloor_resp_le. lra. Qed.

Lemma Qround_half_up_lower (z : Z) (x : Q) :
  inject_Z z - (1 # 2) <= x <-> (z <= Qround_half_up x)%Z.
Proof.
  unfold Qround_half_up. split; intros H.
  - rewrite <- (Qfloor_Z z). apply Qfloor_resp_le. lra.
  - assert (Hf := Qfloor_le (x + (1 # 2))).
    assert (Hz : inject_Z z <= inject_Z (Qfloor (x + (1 # 2)))).
    { rewrite <- Zle_Qle. exact H. }
    lra.
Qed.

Lemma jle_ofZ (a b : Z) : jle (ofZ a) (ofZ b) = true <-> (a <= b)%Z.
Proof.
  unfold ofZ; simpl. rewrite Qle_bool_iff, <- Zle_Qle. reflexivity.
Qed.

(** *** Identical images *)

(** The score of an image pair without any difference: 90 points from PSNR
    and SSIM plus a tenth of the compression bonus. *)
Lemma score_of_identical (r : Q) :
  exists z : Z,
    calculateQualityScore PosInf (Num 1) (Num r) = ofZ z
    /\ ((90 <= z)%Z <-> - (1 # 3) <= r).
Proof.
  unfold calculateQualityScore, jge. cbn [jle t_psnr excellent].
  cbn [jmul jmin jadd jle jmax].
  destruct (Qle_bool 10 (r * 15)) eqn:Hb;
    cbn [jmul jadd jmax jle];
    match goal with |- context [Qle_bool 0 ?t] =>
      destruct (Qle_bool 0 t) eqn:H0 end;
    cbn [jmin jle];
    match goal with |- context [Qle_bool 100 ?t] =>
      destruct (Qle_bool 100 t) eqn:H100 end;
    cbn [jround]; eexists; (split; [reflexivity|]);
    rewrite <- Qround_half_up_lower; unfold inject_Z; qprops;
    split; intros; lra.
Qed.

Lemma grade_of_identical (z : Z) :
  getQualityGrade PosInf (Num 1) (ofZ z) = "excellent" <-> (90 <= z)%Z.
Proof.
  unfold getQualityGrade.
  change (jge PosInf (Num (t_psnr excellent))) with true.
  change (jge PosInf (Num (t_psnr good))) with true.
  change (jge PosInf (Num (t_psnr acceptable))) with true.
  change (jge PosInf (Num (t_psnr poor))) with true.
  change (jge (ofZ z) (Num (t_score excellent))) with (jle (ofZ 90) (ofZ z)).
  cbn [andb].
  destruct (jle (ofZ 90) (ofZ z)) eqn:H.
  - apply jle_ofZ in H. tauto.
  - split.
    + repeat match goal with
             | |- context [if ?b then _ else _] => destruct b
             end; discriminate.
    + intros Hz. apply jle_ofZ in Hz. congruence.
Qed.

(** C2, as the code has it: two buffers without any difference have PSNR
    [Infinity] and an estimated SSIM of 1 whatever the compression ratio;
    their grade is "excellent" exactly when the compression ratio is at
    least -1/3, which covers every output not larger than its input. *)
Theorem identical_images_grade
    (Math_sqrt Math_log10 : jsnum -> jsnum)
    (originalPixels compressedPixels : list byte) (channels : nat)
    (m : jsnum) (ratio : Q) :
  calculateMSE originalPixels compressedPixels channels = Returns m ->
  jeq m (Num 0) = true ->
  exists r,
    compareImageQuality Math_sqrt Math_log10 originalPixels compressedPixels
      channels (Num ratio) = Returns r
    /\ psnr r = PosInf
    /\ ssim r = Num 1
    /\ (qualityGrade r = "excellent" <-> - (1 # 3) <= ratio).
Proof.
  intros Hmse Hzero. unfold compareImageQuality. rewrite Hmse.
  eexists. split; [reflexivity|]. cbn [psnr ssim qualityGrade].
  unfold calculatePSNR. rewrite Hzero.
  change (estimateSSIM PosInf) with (Num 1).
  destruct (score_of_identical ratio) as (z & -> & Hz).
  rewrite grade_of_identical. auto.
Qed.

(** Three black pixels against themselves, the output 40% of the input. *)
Lemma identical_images_grade_witness :
  exists r,
    compareImageQuality (fun x => x) (fun x => x)
      [Byte.x00; Byte.x00; Byte.x00] [Byte.x00; Byte.x00; Byte.x00] 3
      (Num (6 # 10)) = Returns r
    /\ psnr r = PosInf
    /\ ssim r = Num 1
    /\ (qualityGrade r = "excellent" <-> - (1 # 3) <= 6 # 10).
Proof.
  apply (identical_images_grade (fun x => x) (fun x => x)
           [Byte.x00; Byte.x00; Byte.x00] [Byte.x00; Byte.x00; Byte.x00] 3
           (Num (0 # 9)) (6 # 10)); reflexivity.
Defined.

(** C2 as stated fails: the same three pixels, stored in an output three
    times the size of the input (compression ratio -2), score 87 and are
    graded "good". *)
Lemma identical_images_larger_output_good :
  compareImageQuality (fun x => x) (fun x => x)
    [Byte.x00; Byte.x00; Byte.x00] [Byte.x00; Byte.x00; Byte.x00] 3
    (Num (-2))
  = Returns {| psnr := PosInf; mse := Num (0 # 9); ssim := Num 1;
               compressionRatio := Num (-2); qualityScore := Num 87;
               qualityGrade := "good" |}.
Proof. vm_compute. reflexivity. Qed.

(** *** The score grows with PSNR *)

(** The PSNR part of the score, the first local of [calculateQualityScore]. *)
Definition psnrScoreOf (psnr : jsnum) : jsnum :=
  if jge psnr (Num (t_psnr excellent)) then Num 100
  else if jge psnr (Num (t_psnr good)) then
    jadd (Num 75)
      (jmul (jdiv (jsub psnr (Num (t_psnr good)))
                  (jsub (Num (t_psnr excellent)) (Num (t_psnr good))))
            (Num 25))
  else if jge psnr (Num (t_psnr acceptable)) then
    jadd (Num 50)
      (jmul (jdiv (jsub psnr (Num (t_psnr acceptable)))
                  (jsub (Num (t_psnr good)) (Num (t_psnr acceptable))))
            (Num 25))
  else
    jmax (Num 0) (jmul (jdiv psnr (Num (t_psnr acceptable))) (Num 50)).

(** What is done to the PSNR part to reach the score. *)
Definition scoreFrom (psnrScore ssim compressionRatio : jsnum) : jsnum :=
  let ssimScore := jmul ssim (Num 100) in
  let compressionBonus := jmin (Num 10) (jmul compressionRatio (Num 15)) in
  let totalScore :=
    jadd (jadd (jmul psnrScore (Num (6 # 10))) (jmul ssimScore (Num (3 # 10))))
         (jmul compressionBonus (Num (1 # 10))) in
  jround (jmin (Num 100) (jmax (Num 0) totalScore)).

Lemma calculateQualityScore_eq (psnr ssim compressionRatio : jsnum) :
  calculateQualityScore psnr ssim compressionRatio
  = scoreFrom (psnrScoreOf psnr) ssim compressionRatio.
Proof. reflexivity. Qed.

(** The PSNR part on a finite PSNR, branch by branch. *)
Lemma psnrScoreOf_finite (p : Q) :
  exists q, psnrScoreOf (Num p) = Num q /\
    ((40 <= p /\ q == 100)
     \/ (35 <= p < 40 /\ q == 75 + (p - 35) * 5)
     \/ (30 <= p < 35 /\ q == 50 + (p - 30) * 5)
     \/ (0 <= p < 30 /\ q == p * (5 # 3))
     \/ (p < 0 /\ q == 0)).
Proof.
  unfold psnrScoreOf, jge. cbn [jle t_psnr excellent good acceptable].
  destruct (Qle_bool 40 p) eqn:H40.
  { eexists; split; [reflexivity|]. qprops. left. split; [assumption|reflexivity]. }
  destruct (Qle_bool 35 p) eqn:H35.
  { eexists; split; [reflexivity|]. qprops. right; left.
    split; [split; assumption|]. field. }
  destruct (Qle_bool 30 p) eqn:H30.
  { eexists; split; [reflexivity|]. qprops. right; right; left.
    split; [split; assumption|]. field. }
  cbn [jdiv]. change (Qeq_bool 30 0) with false. cbn [jmul jmax jle].
  destruct (Qle_bool 0 (p / 30 * 50)) eqn:H0;
    (eexists; split; [reflexivity|]); qprops;
    unfold Qdiv in H0; change (/ 30) with (1 # 30) in H0.
  - right; right; right; left. split; [split; lra|field].
  - right; right; right; right. split; [lra|reflexivity].
Qed.

Lemma psnrScoreOf_mono (p1 p2 : jsnum) :
  jle p1 p2 = true ->
  exists q1 q2,
    psnrScoreOf p1 = Num q1 /\ psnrScoreOf p2 = Num q2 /\ q1 <= q2.
Proof.
  intros Hle.
  assert (Hrange : forall p q,
             psnrScoreOf (Num p) = Num q -> 0 <= q <= 100).
  { intros p q Hq. destruct (psnrScoreOf_finite p) as (q' & Hq' & Hcases).
    rewrite Hq in Hq'. injection Hq' as <-.
    destruct Hcases as [[? E]|[[? E]|[[? E]|[[? E]|[? E]]]]]; rewrite E; lra. }
  destruct p1 as [a| | |], p2 as [b| | |]; try discriminate.
  - destruct (psnrScoreOf_finite a) as (q1 & Hq1 & Ha).
    destruct (psnrScoreOf_finite b) as (q2 & Hq2 & Hb).
    exists q1, q2. split; [assumption|]. split; [assumption|].
    cbn in Hle. qprops.
    destruct Ha as [[? Ea]|[[? Ea]|[[? Ea]|[[? Ea]|[? Ea]]]]];
      destruct Hb as [[? Eb]|[[? Eb]|[[? Eb]|[[? Eb]|[? Eb]]]]];
      rewrite Ea, Eb; lra.
  - destruct (psnrScoreOf_finite a) as (q1 & Hq1 & _).
    exists q1, 100. split; [assumption|]. split; [reflexivity|].
    apply (Hrange a q1 Hq1).
  - exists 100, 100. repeat split; try reflexivity. lra.
  - destruct (psnrScoreOf_finite b) as (q2 & Hq2 & _).
    exists 0, q2. split; [reflexivity|]. split; [assumption|].
    apply (Hrange b q2 Hq2).
  - exists 0, 100. repeat split; try reflexivity. lra.
  - exists 0, 0. repeat split; try reflexivity. lra.
Qed.

Lemma scoreFrom_mono (q1 q2 ssim compressionRatio : Q) :
  q1 <= q2 ->
  jle (scoreFrom (Num q1) (Num ssim) (Num compressionRatio))
      (scoreFrom (Num q2) (Num ssim) (Num compressionRatio)) = true.
Proof.
  intros Hq. unfold scoreFrom. cbn [jmul jmin jle].
  destruct (Qle_bool 10 (compressionRatio * 15)) eqn:Hb;
    cbn [jmul jadd jmax jle];
    repeat match goal with
           | |- context [Qle_bool 0 ?t] =>
               let H := fresh "H0" in destruct (Qle_bool 0 t) eqn:H
           end;
    cbn [jmin jle];
    repeat match goal with
           | |- context [Qle_bool 100 ?t] =>
               let H := fresh "H100" in destruct (Qle_bool 100 t) eqn:H
           end;
    cbn [jround]; apply jle_ofZ, Qround_half_up_mono; qprops; lra.
Qed.

(** C7: for a fixed SSIM and compression ratio the score does not decrease
    when PSNR grows ([Infinity] included). *)
Theorem quality_score_monotone_in_psnr (p1 p2 : jsnum) (ssim compressionRatio : Q) :
  jle p1 p2 = true ->
  jle (calculateQualityScore p1 (Num ssim) (Num compressionRatio))
      (calculateQualityScore p2 (Num ssim) (Num compressionRatio)) = true.
Proof.
  intros Hle. rewrite !calculateQualityScore_eq.
  destruct (psnrScoreOf_mono p1 p2 Hle) as (q1 & q2 & -> & -> & Hq).
  apply scoreFrom_mono. exact Hq.
Qed.

(** PSNR 32.5 dB against 37.5 dB at SSIM 0.9 and ratio 0.62. *)
Lemma quality_score_monotone_in_psnr_witness :
  jle (calculateQualityScore (Num (325 # 10)) (Num (9 # 10)) (Num (62 # 100)))
      (calculateQualityScore (Num (375 # 10)) (Num (9 # 10)) (Num (62 # 100)))
  = true.
Proof.
  apply (quality_score_monotone_in_psnr (Num (325 # 10)) (Num (375 # 10))).
  reflexivity.
Defined.

(** *** Mean squared error *)

(** [x] is the finite number [z]. *)
Definition isInt (x : jsnum) (z : Z) : Prop :=
  exists q, x = Num q /\ q == inject_Z z.

(** The squared differences of the first [k] bytes. *)
Definition prefixSum (a b : list byte) (k : nat) : Z :=
  sumSquaredDiff (firstn k a) (firstn k b).

Lemma prefixSum_all (a b : list byte) :
  length a = length b -> prefixSum a b (length a) = sumSquaredDiff a b.
Proof.
  intros H. unfold prefixSum. rewrite firstn_all, H, firstn_all. reflexivity.
Qed.

Lemma prefixSum_step (a b : list byte) (k : nat) (x y : byte) :
  nth_error a k = Some x -> nth_error b k = Some y ->
  prefixSum a b (S k)
  = (prefixSum a b k
     + (byteValue x - byteValue y) * (byteValue x - byteValue y))%Z.
Proof.
  unfold prefixSum. revert a b.
  induction k as [|k IH]; intros [|a0 a] [|b0 b] Ha Hb; try discriminate.
  - injection Ha as ->. injection Hb as ->.
    cbn [firstn sumSquaredDiff]. rewrite !firstn_O.
    cbn [sumSquaredDiff]. lia.
  - cbn in Ha, Hb. specialize (IH a b Ha Hb).
    change (firstn (S (S k)) (a0 :: a)) with (a0 :: firstn (S k) a).
    change (firstn (S (S k)) (b0 :: b)) with (b0 :: firstn (S k) b).
    change (firstn (S k) (a0 :: a)) with (a0 :: firstn k a).
    change (firstn (S k) (b0 :: b)) with (b0 :: firstn k b).
    cbn [sumSquaredDiff]. rewrite IH. lia.
Qed.

Lemma channelLoop_sum (a b : list byte) (i n c : nat) (total : jsnum) :
  length b = length a ->
  (i + c + n <= length a)%nat ->
  isInt total (prefixSum a b (i + c)) ->
  isInt (channelLoop a b i c n total) (prefixSum a b (i + c + n)).
Proof.
  intros Hlen. revert c total.
  induction n as [|n IH]; intros c total Hin Htotal.
  - rewrite Nat.add_0_r. exact Htotal.
  - cbn [channelLoop].
    replace (i + c + S n)%nat with (i + S c + n)%nat by lia.
    apply IH; [lia|].
    destruct (nth_error a (i + c)) as [x|] eqn:Hx.
    2:{ apply nth_error_None in Hx. lia. }
    destruct (nth_error b (i + c)) as [y|] eqn:Hy.
    2:{ apply nth_error_None in Hy. lia. }
    replace (i + S c)%nat with (S (i + c)) by lia.
    rewrite (prefixSum_step a b (i + c) x y Hx Hy).
    destruct Htotal as (q & -> & Hq).
    unfold pixelAt. rewrite Hx, Hy. cbn [ofZ jsub jneg jadd jmul].
    eexists. split; [reflexivity|].
    rewrite Hq, inject_Z_plus, inject_Z_mult.
    unfold Z.sub. rewrite inject_Z_plus, inject_Z_opp. ring.
Qed.

Lemma pixelLoop_sum (a b : list byte) (channels : nat) :
  length b = length a ->
  (1 <= channels)%nat ->
  forall (fuel m i : nat) (total : jsnum),
    length a = (i + m * channels)%nat ->
    (m <= fuel)%nat ->
    isInt total (prefixSum a b i) ->
    exists t,
      pixelLoop fuel a b channels i total = Some t
      /\ isInt t (prefixSum a b (length a)).
Proof.
  intros Hlen Hch.
  induction fuel as [|fuel IH]; intros m i total Hm Hfuel Htotal.
  - assert (m = 0)%nat as -> by lia. cbn in Hm. rewrite Nat.add_0_r in Hm.
    cbn [pixelLoop]. rewrite Hm, Nat.ltb_irrefl.
    exists total. split; [reflexivity|exact Htotal].
  - cbn [pixelLoop]. destruct m as [|m].
    + cbn in Hm. rewrite Nat.add_0_r in Hm. rewrite Hm, Nat.ltb_irrefl.
      exists total. split; [reflexivity|exact Htotal].
    + assert (Hlt : (i <? length a)%nat = true) by (apply Nat.ltb_lt; nia).
      rewrite Hlt. apply (IH m); [nia|lia|].
      rewrite <- (Nat.add_0_r i) at 2.
      apply channelLoop_sum; [exact Hlen|nia|].
      rewrite Nat.add_0_r. exact Htotal.
Qed.

Lemma inject_Z_of_nat_pos (n : nat) : (1 <= n)%nat -> 0 < inject_Z (Z.of_nat n).
Proof.
  intros H. change 0 with (inject_Z 0). rewrite <- Zlt_Qlt. lia.
Qed.

(** C8, as the code has it: [calculateMSE] throws exactly when the lengths
    differ, whatever the channel count; and on two buffers that hold the
    same [n >= 1] whole pixels of [channels >= 1] bytes each it returns the
    mean of the squared differences.  Equal lengths alone are not enough
    for the mean, see [calculateMSE_not_the_mean]. *)
Theorem calculateMSE_spec
    (originalPixels compressedPixels : list byte) (channels : nat) :
  ((exists message,
       calculateMSE originalPixels compressedPixels channels = Throws message)
   <-> length originalPixels <> length compressedPixels)
  /\ (forall n : nat,
        (1 <= channels)%nat -> (1 <= n)%nat ->
        length originalPixels = (n * channels)%nat ->
        length compressedPixels = length originalPixels ->
        exists q,
          calculateMSE originalPixels compressedPixels channels
          = Returns (Num q)
          /\ q == meanSquaredDiff originalPixels compressedPixels).
Proof.
  split.
  - unfold calculateMSE.
    destruct (length originalPixels =? length compressedPixels)%nat eqn:E.
    + apply Nat.eqb_eq in E. cbn [negb]. split; [|congruence].
      intros [message H].
      destruct (pixelLoop _ _ _ _ _ _); discriminate.
    + apply Nat.eqb_neq in E. cbn [negb]. split; [intros _; exact E|].
      intros _. eexists. reflexivity.
  - intros n Hch Hn Hlen Heq. unfold calculateMSE.
    rewrite Heq, Nat.eqb_refl. cbn [negb].
    destruct (pixelLoop_sum originalPixels compressedPixels channels Heq Hch
                (length originalPixels) n 0 (Num 0))
      as (t & -> & q & -> & Hq).
    + cbn. exact Hlen.
    + rewrite Hlen. nia.
    + exists 0. split; reflexivity.
    + rewrite prefixSum_all in Hq by (symmetry; exact Heq).
      assert (Hc := inject_Z_of_nat_pos channels Hch).
      assert (Hl : 0 < inject_Z (Z.of_nat (length originalPixels))).
      { apply inject_Z_of_nat_pos. nia. }
      unfold ofNat, ofZ. cbn [jdiv].
      destruct (Qeq_bool (inject_Z (Z.of_nat channels)) 0) eqn:E1.
      { qprops. lra. }
      cbn [jmul jdiv].
      assert (Hf : inject_Z (Z.of_nat (length originalPixels))
                   / inject_Z (Z.of_nat channels)
                   * inject_Z (Z.of_nat channels)
                   == inject_Z (Z.of_nat (length originalPixels))).
      { field. lra. }
      match goal with
      | |- context [Qeq_bool ?t 0] => destruct (Qeq_bool t 0) eqn:E2
      end.
      { qprops. rewrite Hf in E2. lra. }
      eexists. split; [reflexivity|].
      unfold meanSquaredDiff. rewrite Hq. field. split; lra.
Qed.

(** Two pixels of three channels. *)
Lemma calculateMSE_spec_witness :
  exists q,
    calculateMSE ["010"; "020"; "030"; "040"; "050"; "060"]%byte
                 ["012"; "020"; "027"; "040"; "054"; "060"]%byte 3
    = Returns (Num q)
    /\ q == meanSquaredDiff ["010"; "020"; "030"; "040"; "050"; "060"]%byte
                            ["012"; "020"; "027"; "040"; "054"; "060"]%byte.
Proof.
  apply (proj2 (calculateMSE_spec
                  ["010"; "020"; "030"; "040"; "050"; "060"]%byte
                  ["012"; "020"; "027"; "040"; "054"; "060"]%byte 3) 2%nat);
    [lia | lia | reflexivity | reflexivity].
Defined.

(** With a channel count of at least 1 the loops end: on buffers of equal
    length [calculateMSE] returns a number. *)
Lemma pixelLoop_ends (a b : list byte) (channels : nat) :
  (1 <= channels)%nat ->
  forall (fuel i : nat) (total : jsnum),
    (length a <= i + fuel)%nat ->
    exists t, pixelLoop fuel a b channels i total = Some t.
Proof.
  intros Hch. induction fuel as [|fuel IH]; intros i total Hfuel;
    cbn [pixelLoop]; destruct (i <? length a)%nat eqn:Hlt;
    try (eexists; reflexivity).
  - apply Nat.ltb_lt in Hlt. lia.
  - apply IH. lia.
Qed.

Lemma calculateMSE_returns (originalPixels compressedPixels : list byte)
    (channels : nat) :
  (1 <= channels)%nat ->
  length originalPixels = length compressedPixels ->
  exists value,
    calculateMSE originalPixels compressedPixels channels = Returns value.
Proof.
  intros Hch Hlen. unfold calculateMSE.
  rewrite Hlen, Nat.eqb_refl. cbn [negb]. rewrite <- Hlen.
  destruct (pixelLoop_ends originalPixels compressedPixels channels Hch
              (length originalPixels) 0 (Num 0)) as [t ->]; [lia|].
  eexists. reflexivity.
Qed.

(** C8 as stated fails: equal lengths do not make the result the mean.
    Two buffers of four bytes read with three channels differ in their
    first byte only, so the mean of the squared differences is
    [(12 - 10)^2 / 4 = 1]; the second pixel is cut short, the loop reads
    [undefined] past the end and [calculateMSE] returns [NaN].  With a
    channel count of 0 the index of the outer loop never advances and the
    call does not return. *)
Lemma calculateMSE_not_the_mean :
  length ["010"; "020"; "030"; "040"]%byte
  = length ["012"; "020"; "030"; "040"]%byte
  /\ meanSquaredDiff ["010"; "020"; "030"; "040"]%byte
                     ["012"; "020"; "030"; "040"]%byte == 1
  /\ calculateMSE ["010"; "020"; "030"; "040"]%byte
                  ["012"; "020"; "030"; "040"]%byte 3 = Returns NaN
  /\ ~ (exists q,
          calculateMSE ["010"; "020"; "030"; "040"]%byte
                       ["012"; "020"; "030"; "040"]%byte 3 = Returns (Num q)
          /\ q == meanSquaredDiff ["010"; "020"; "030"; "040"]%byte
                                  ["012"; "020"; "030"; "040"]%byte)
  /\ calculateMSE ["010"; "020"; "030"; "040"]%byte
                  ["012"; "020"; "030"; "040"]%byte 0 = Diverges.
Proof.
  split; [reflexivity|]. split; [reflexivity|]. split; [reflexivity|].
  split; [|reflexivity].
  intros [q [H _]]. vm_compute in H. discriminate.
Qed.

(** Outside whole pixels the division or an [undefined] byte gives [NaN]:
    no pixel at all, or a last pixel that is cut short. *)
Example calculateMSE_empty : calculateMSE [] [] 3 = Returns NaN.
Proof. reflexivity. Qed.

Example calculateMSE_ragged :
  calculateMSE ["010"; "020"; "030"; "040"]%byte
               ["010"; "020"; "030"; "040"]%byte 3 = Returns NaN.
Proof. reflexivity. Qed.

(** *** Ranges of the metrics *)

Lemma jle_trans (x y z : jsnum) :
  jle x y = true -> jle y z = true -> jle x z = true.
Proof.
  destruct x, y, z; cbn; try congruence.
  intros H1 H2. qprops. apply Qle_bool_iff. lra.
Qed.

Lemma Qround_half_up_upper (z : Z) (x : Q) :
  x < inject_Z z + (1 # 2) <-> (Qround_half_up x <= z)%Z.
Proof.
  assert (H := Qround_half_up_lower (z + 1) x).
  rewrite inject_Z_plus in H. change (inject_Z 1) with 1 in H.
  split; intros Hx.
  - apply Z.lt_succ_r, Z.nle_gt. intros Hz. apply H in Hz. lra.
  - apply Qnot_le_lt. intros Hle.
    assert (z + 1 <= Qround_half_up x)%Z by (apply H; lra). lia.
Qed.

(** [Math.max(0, Math.min(50, psnr))] on a number that is not [NaN]. *)
Definition clampedPSNR (psnr : jsnum) : Q :=
  match psnr with
  | Num p => if Qle_bool 50 p then 50 else if Qle_bool 0 p then p else 0
  | PosInf => 50
  | _ => 0
  end.

(** The value of [estimateSSIM] in thousandths. *)
Definition ssimThousandths (psnr : jsnum) : Z :=
  Qround_half_up (((5 # 10) + clampedPSNR psnr / 50 * (5 # 10)) * 1000).

Lemma estimateSSIM_value (psnr : jsnum) :
  psnr <> NaN ->
  exists q, estimateSSIM psnr = Num q
            /\ q == inject_Z (ssimThousandths psnr) / 1000.
Proof.
  intros Hnan. destruct psnr as [p| | |]; try congruence.
  - unfold estimateSSIM, ssimThousandths, clampedPSNR.
    cbn [jeq jmin jle].
    destruct (Qle_bool 50 p) eqn:H50; cbn [jmax jle].
    + change (Qle_bool 0 50) with true. cbn [jdiv].
      change (Qeq_bool 50 0) with false. cbn [jmul jadd jround ofZ jdiv].
      change (Qeq_bool 1000 0) with false.
      eexists. split; reflexivity.
    + destruct (Qle_bool 0 p) eqn:H0; cbn [jdiv];
        change (Qeq_bool 50 0) with false; cbn [jmul jadd jround ofZ jdiv];
        change (Qeq_bool 1000 0) with false;
        (eexists; split; reflexivity).
  - exists 1. split; [reflexivity|]. vm_compute. reflexivity.
  - eexists. split; [reflexivity|]. vm_compute. reflexivity.
Qed.

Lemma clampedPSNR_range (psnr : jsnum) : 0 <= clampedPSNR psnr <= 50.
Proof.
  destruct psnr as [p| | |]; cbn; try lra.
  destruct (Qle_bool 50 p) eqn:H50; [lra|].
  destruct (Qle_bool 0 p) eqn:H0; qprops; lra.
Qed.

Lemma clampedPSNR_mono (p1 p2 : jsnum) :
  jle p1 p2 = true -> clampedPSNR p1 <= clampedPSNR p2.
Proof.
  intros Hle. assert (H1 := clampedPSNR_range p1).
  assert (H2 := clampedPSNR_range p2).
  destruct p1 as [a| | |], p2 as [b| | |]; try discriminate; cbn in *; try lra.
  destruct (Qle_bool 50 a) eqn:Ha50, (Qle_bool 50 b) eqn:Hb50;
    try destruct (Qle_bool 0 a) eqn:Ha0; try destruct (Qle_bool 0 b) eqn:Hb0;
    qprops; lra.
Qed.

Lemma ssimThousandths_range (psnr : jsnum) :
  (500 <= ssimThousandths psnr <= 1000)%Z.
Proof.
  assert (H := clampedPSNR_range psnr). unfold ssimThousandths. split.
  - apply Qround_half_up_lower. unfold inject_Z, Qdiv.
    change (/ 50) with (1 # 50). lra.
  - apply Qround_half_up_upper. unfold inject_Z, Qdiv.
    change (/ 50) with (1 # 50). lra.
Qed.

(** X1: on every PSNR that is a number, [Infinity] and [-Infinity]
    included, [estimateSSIM] returns a finite value between 0.5 and 1 that
    is a whole number of thousandths. *)
Theorem estimateSSIM_range (psnr : jsnum) :
  psnr <> NaN ->
  exists (q : Q) (k : Z),
    estimateSSIM psnr = Num q /\ q == inject_Z k / 1000
    /\ (500 <= k <= 1000)%Z /\ (1 # 2) <= q <= 1.
Proof.
  intros Hnan. destruct (estimateSSIM_value psnr Hnan) as (q & Hq & Hk).
  assert (Hr := ssimThousandths_range psnr).
  exists q, (ssimThousandths psnr).
  split; [exact Hq|]. split; [exact Hk|]. split; [exact Hr|].
  assert (H1 : inject_Z 500 <= inject_Z (ssimThousandths psnr))
    by (rewrite <- Zle_Qle; lia).
  assert (H2 : inject_Z (ssimThousandths psnr) <= inject_Z 1000)
    by (rewrite <- Zle_Qle; lia).
  rewrite Hk. unfold Qdiv. change (/ 1000) with (1 # 1000).
  change (inject_Z 500) with (500 # 1) in H1.
  change (inject_Z 1000) with (1000 # 1) in H2.
  split; lra.
Qed.

(** PSNR 42 dB is estimated as SSIM 0.92. *)
Lemma estimateSSIM_range_witness :
  exists (q : Q) (k : Z),
    estimateSSIM (Num 42) = Num q /\ q == inject_Z k / 1000
    /\ (500 <= k <= 1000)%Z /\ (1 # 2) <= q <= 1.
Proof. apply (estimateSSIM_range (Num 42)). discriminate. Defined.

Lemma ssimThousandths_mono (p1 p2 : jsnum) :
  jle p1 p2 = true -> (ssimThousandths p1 <= ssimThousandths p2)%Z.
Proof.
  intros Hle. apply clampedPSNR_mono in Hle. unfold ssimThousandths.
  apply Qround_half_up_mono. unfold Qdiv. change (/ 50) with (1 # 50). lra.
Qed.

Lemma jle_not_NaN (x y : jsnum) : jle x y = true -> x <> NaN /\ y <> NaN.
Proof. destruct x, y; cbn; intros H; split; congruence. Qed.

Lemma estimateSSIM_mono (p1 p2 : jsnum) :
  jle p1 p2 = true ->
  jle (estimateSSIM p1) (estimateSSIM p2) = true.
Proof.
  intros Hle. destruct (jle_not_NaN p1 p2 Hle) as [H1 H2].
  destruct (estimateSSIM_value p1 H1) as (q1 & -> & Hq1).
  destruct (estimateSSIM_value p2 H2) as (q2 & -> & Hq2).
  cbn [jle]. apply Qle_bool_iff. rewrite Hq1, Hq2.
  assert (Hk : inject_Z (ssimThousandths p1) <= inject_Z (ssimThousandths p2)).
  { rewrite <- Zle_Qle. apply ssimThousandths_mono. exact Hle. }
  unfold Qdiv. change (/ 1000) with (1 # 1000). lra.
Qed.

(** X2: the estimated SSIM does not decrease when PSNR grows, from
    [-Infinity] to [Infinity]. *)
Theorem estimateSSIM_monotone (p1 p2 : jsnum) :
  jle p1 p2 = true ->
  jle (estimateSSIM p1) (estimateSSIM p2) = true.
Proof. exact (estimateSSIM_mono p1 p2). Qed.

(** 28 dB against 41.5 dB. *)
Lemma estimateSSIM_monotone_witness :
  jle (estimateSSIM (Num 28)) (estimateSSIM (Num (415 # 10))) = true.
Proof.
  apply (estimateSSIM_monotone (Num 28) (Num (415 # 10))). reflexivity.
Defined.

(** [Math.round(Math.min(100, Math.max(0, totalScore)))] on a number. *)
Lemma clamp_round_range (totalScore : jsnum) :
  totalScore <> NaN ->
  exists z : Z,
    jround (jmin (Num 100) (jmax (Num 0) totalScore)) = ofZ z
    /\ (0 <= z <= 100)%Z.
Proof.
  intros Hnan. destruct totalScore as [t| | |]; try congruence.
  - cbn [jmax jle]. destruct (Qle_bool 0 t) eqn:H0; cbn [jmin jle].
    + destruct (Qle_bool 100 t) eqn:H100; cbn [jround].
      * exists 100%Z. split; [reflexivity|lia].
      * eexists. split; [reflexivity|]. qprops. split.
        -- apply Qround_half_up_lower. unfold inject_Z. lra.
        -- apply Qround_half_up_upper. unfold inject_Z. lra.
    + exists 0%Z. split; [reflexivity|lia].
  - exists 100%Z. split; [reflexivity|lia].
  - exists 0%Z. split; [reflexivity|lia].
Qed.

Lemma jle_refl (x : jsnum) : x <> NaN -> jle x x = true.
Proof.
  destruct x; cbn; try congruence. intros _. apply Qle_bool_iff. lra.
Qed.

(** X3: for a PSNR and a compression ratio that are numbers (infinite or
    not) and a finite SSIM, the quality score is a whole number between 0
    and 100. *)
Theorem calculateQualityScore_range (psnr compressionRatio : jsnum) (ssim : Q) :
  psnr <> NaN -> compressionRatio <> NaN ->
  exists z : Z,
    calculateQualityScore psnr (Num ssim) compressionRatio = ofZ z
    /\ (0 <= z <= 100)%Z.
Proof.
  intros Hp Hr. rewrite calculateQualityScore_eq.
  destruct (psnrScoreOf_mono psnr psnr (jle_refl psnr Hp)) as (q & _ & -> & _ & _).
  unfold scoreFrom. apply clamp_round_range.
  destruct compressionRatio as [r| | |]; try congruence.
  - cbn [jmul jmin jle]. destruct (Qle_bool 10 (r * 15)); discriminate.
  - discriminate.
  - discriminate.
Qed.

(** PSNR 37 dB, SSIM 0.87, a file 62% smaller. *)
Lemma calculateQualityScore_range_witness :
  exists z : Z,
    calculateQualityScore (Num 37) (Num (87 # 100)) (Num (62 # 100)) = ofZ z
    /\ (0 <= z <= 100)%Z.
Proof.
  apply (calculateQualityScore_range (Num 37) (Num (62 # 100)) (87 # 100));
    discriminate.
Defined.

(** *** Grades *)

(** The five grades from the worst to the best. *)
Definition gradeRank (grade : string) : nat :=
  if String.eqb grade "excellent" then 4
  else if String.eqb grade "good" then 3
  else if String.eqb grade "acceptable" then 2
  else if String.eqb grade "poor" then 1
  else 0.

Lemma jge_mono (x y : jsnum) (t : Q) :
  jle x y = true -> jge x (Num t) = true -> jge y (Num t) = true.
Proof. unfold jge. intros Hxy Ht. exact (jle_trans _ _ _ Ht Hxy). Qed.

(** X4: the grade never gets worse when PSNR and the quality score grow;
    the SSIM argument has no influence on it. *)
Theorem getQualityGrade_monotone (p1 p2 s1 s2 ssim1 ssim2 : jsnum) :
  jle p1 p2 = true -> jle s1 s2 = true ->
  (gradeRank (getQualityGrade p1 ssim1 s1)
   <= gradeRank (getQualityGrade p2 ssim2 s2))%nat.
Proof.
  intros Hp Hs. unfold getQualityGrade.
  assert (Ha := fun t => jge_mono p1 p2 t Hp).
  assert (Hb := fun t => jge_mono s1 s2 t Hs).
  repeat match goal with
         | |- context [jge p1 (Num ?t)] =>
             let H := fresh "H" in
             assert (H := Ha t);
             destruct (jge p1 (Num t));
             [rewrite (H eq_refl)|clear H; destruct (jge p2 (Num t))];
             cbn [andb]
         | |- context [jge s1 (Num ?t)] =>
             let H := fresh "H" in
             assert (H := Hb t);
             destruct (jge s1 (Num t));
             [rewrite (H eq_refl)|clear H; destruct (jge s2 (Num t))];
             cbn [andb]
         end;
    repeat match goal with
           | |- context [if ?b then _ else _] => destruct b; cbn [andb]
           end;
    vm_compute; lia.
Qed.

(** 31 dB with score 62 is "acceptable", 36 dB with score 80 is "good". *)
Lemma getQualityGrade_monotone_witness :
  (gradeRank (getQualityGrade (Num 31) (Num (9 # 10)) (Num 62))
   <= gradeRank (getQualityGrade (Num 36) (Num (8 # 10)) (Num 80)))%nat.
Proof.
  apply (getQualityGrade_monotone (Num 31) (Num 36) (Num 62) (Num 80));
    reflexivity.
Defined.

(** With the SSIM estimated from PSNR, as [compareImageQuality] does, a
    score of 90 needs an estimated SSIM of 0.95, that is 44.95 dB. *)
Lemma excellent_needs_psnr (p compressionRatio : jsnum) :
  getQualityGrade p (estimateSSIM p)
    (calculateQualityScore p (estimateSSIM p) compressionRatio) = "excellent" ->
  jge p (Num (4495 # 100)) = true.
Proof.
  unfold getQualityGrade.
  destruct (jge p (Num (t_psnr excellent))) eqn:H40; cbn [andb].
  2:{ repeat match goal with
             | |- context [if ?b then _ else _] => destruct b
             end; discriminate. }
  destruct (jge _ (Num (t_score excellent))) eqn:H90.
  2:{ repeat match goal with
             | |- context [if ?b then _ else _] => destruct b
             end; discriminate. }
  intros _. destruct p as [a| | |]; try discriminate; [|reflexivity].
  assert (Hnan : Num a <> NaN) by discriminate.
  destruct (estimateSSIM_value (Num a) Hnan) as (q & Hq & Hk).
  rewrite Hq in H90. rewrite calculateQualityScore_eq in H90.
  unfold psnrScoreOf in H90. rewrite H40 in H90.
  unfold jge in H40. cbn [jle t_psnr excellent] in H40.
  assert (Hq95 : (95 # 100) <= q).
  { unfold scoreFrom, jge in H90.
    destruct compressionRatio as [r| | |].
    4:{ cbn in H90. discriminate. }
    3:{ change (jmul NegInf (Num 15)) with NegInf in H90.
        cbn [jmin jle] in H90.
        change (jmul NegInf (Num (1 # 10))) with NegInf in H90.
        cbn [jmul jadd jmax jle jmin] in H90.
        change (Qle_bool 100 0) with false in H90. cbn in H90. discriminate. }
    2: change (jmul PosInf (Num 15)) with PosInf in H90.
    all: cbn [jmul jmin jle] in H90;
      try destruct (Qle_bool 10 (r * 15)) eqn:Hb;
      cbn [jmul jadd jmax jle] in H90;
      match type of H90 with context [Qle_bool 0 ?t] =>
        destruct (Qle_bool 0 t) eqn:H0 end;
      cbn [jmin jle] in H90;
      try match type of H90 with context [Qle_bool 100 ?t] =>
        destruct (Qle_bool 100 t) eqn:H100 end;
      cbn [jround t_score excellent] in H90;
      change (Num 90) with (ofZ 90) in H90;
      apply jle_ofZ, Qround_half_up_lower in H90;
      unfold inject_Z in H90; qprops; lra. }
  assert (Hk950 : (950 <= ssimThousandths (Num a))%Z).
  { apply Z.nlt_ge. intros Hlt.
    assert (Hz : inject_Z (ssimThousandths (Num a)) <= inject_Z 949)
      by (rewrite <- Zle_Qle; lia).
    change (inject_Z 949) with (949 # 1) in Hz.
    unfold Qdiv in Hk. change (/ 1000) with (1 # 1000) in Hk. lra. }
  unfold ssimThousandths in Hk950. apply Qround_half_up_lower in Hk950.
  unfold jge. cbn [jle]. apply Qle_bool_iff.
  unfold clampedPSNR in Hk950. unfold Qdiv in Hk950.
  change (/ 50) with (1 # 50) in Hk950. unfold inject_Z in Hk950.
  destruct (Qle_bool 50 a) eqn:H50; [qprops; lra|].
  rewrite Qle_bool_iff in H40.
  destruct (Qle_bool 0 a) eqn:H0; qprops; lra.
Qed.

(** X5: [compareImageQuality] grades a pair "excellent" only from
    44.95 dB on, not from the 40 dB of the threshold table: the SSIM it
    estimates from a lower PSNR keeps the score below 90 whatever the
    compression ratio. *)
Theorem excellent_grade_needs_45_dB
    (Math_sqrt Math_log10 : jsnum -> jsnum)
    (originalPixels compressedPixels : list byte) (channels : nat)
    (ratio : jsnum) (r : QualityAnalysisResult) :
  compareImageQuality Math_sqrt Math_log10 originalPixels compressedPixels
    channels ratio = Returns r ->
  qualityGrade r = "excellent" ->
  jge (psnr r) (Num (4495 # 100)) = true
  /\ jge (ssim r) (Num (95 # 100)) = true
  /\ jge (qualityScore r) (Num 90) = true.
Proof.
  unfold compareImageQuality.
  destruct (calculateMSE originalPixels compressedPixels channels)
    as [m| |]; try discriminate.
  intros Hr Hgrade. injection Hr as <-.
  cbn [psnr ssim qualityScore qualityGrade] in *.
  set (p := calculatePSNR Math_sqrt Math_log10 m (Num 255)) in *.
  assert (Hp := excellent_needs_psnr p ratio Hgrade).
  split; [exact Hp|]. split.
  - unfold jge.
    apply (jle_trans _ (estimateSSIM (Num (4495 # 100)))); [reflexivity|].
    apply estimateSSIM_mono. exact Hp.
  - unfold getQualityGrade in Hgrade.
    destruct (jge (calculateQualityScore p (estimateSSIM p) ratio)
                (Num (t_score excellent))) eqn:H90; [exact H90|].
    rewrite andb_false_r in Hgrade.
    repeat match type of Hgrade with
           | context [if ?b then _ else _] => destruct b
           end; discriminate.
Qed.

(** A pair whose PSNR comes out as 50 dB, the file 62% smaller. *)
Lemma excellent_grade_needs_45_dB_witness :
  jge (Num (5000 # 100)) (Num (4495 # 100)) = true
  /\ jge (Num (1000 # 1000)) (Num (95 # 100)) = true
  /\ jge (Num 91) (Num 90) = true.
Proof.
  apply (excellent_grade_needs_45_dB (fun x => x) (fun _ => Num (5 # 2))
           ["010"; "020"; "030"]%byte ["012"; "020"; "027"]%byte 3
           (Num (62 # 100))
           {| psnr := Num (5000 # 100); mse := Num (39 # 9);
              ssim := Num (1000 # 1000);
              compressionRatio := Num (62 # 100);
              qualityScore := Num 91;
              qualityGrade := "excellent" |}).
  - vm_compute. reflexivity.
  - reflexivity.
Defined.

(** *** Acceptance criteria *)

(** The [criteria] object of [validateQualityCriteria]; a missing property
    is [None]. *)
Record QualityCriteria : Type := {
  c_minPSNR : option jsnum;
  c_minQualityScore : option jsnum;
  c_maxCompressionRatio : option jsnum;
  c_minCompressionRatio : option jsnum
}.

(** [{}], the default of the parameter. *)
Definition noCriteria : QualityCriteria :=
  {| c_minPSNR := None; c_minQualityScore := None;
     c_maxCompressionRatio := None; c_minCompressionRatio := None |}.

(** [validateQualityCriteria(result, criteria)]: the value it returns (the
    warnings it prints are left out). *)
Definition validateQualityCriteria (result : QualityAnalysisResult)
    (criteria : QualityCriteria) : bool :=
  let minPSNR := default (Num 35) (c_minPSNR criteria) in
  let minQualityScore := default (Num 75) (c_minQualityScore criteria) in
  let maxCompressionRatio :=
    default (Num (64 # 100)) (c_maxCompressionRatio criteria) in
  let minCompressionRatio :=
    default (Num (60 # 100)) (c_minCompressionRatio criteria) in
  let checks_psnr := jge (psnr result) minPSNR in
  let checks_qualityScore := jge (qualityScore result) minQualityScore in
  let checks_compressionRatio :=
    jge (compressionRatio result) minCompressionRatio
    && jle (compressionRatio result) maxCompressionRatio in
  forallb (fun check => check)
    [checks_psnr; checks_qualityScore; checks_compressionRatio].

(** The grade is "good" or better exactly when PSNR reaches 35 dB and the
    score 75. *)
Lemma grade_good_or_excellent (p s q : jsnum) :
  (getQualityGrade p s q = "good" \/ getQualityGrade p s q = "excellent")
  <-> jge p (Num 35) = true /\ jge q (Num 75) = true.
Proof.
  assert (H40 : jge p (Num 40) = true -> jge p (Num 35) = true).
  { unfold jge. apply jle_trans. reflexivity. }
  assert (H90 : jge q (Num 90) = true -> jge q (Num 75) = true).
  { unfold jge. apply jle_trans. reflexivity. }
  unfold getQualityGrade.
  cbn [t_psnr t_score excellent good acceptable poor].
  destruct (jge p (Num 40)) eqn:E40; cbn [andb].
  - rewrite (H40 eq_refl). cbn [andb].
    destruct (jge q (Num 90)) eqn:E90.
    + rewrite (H90 eq_refl). tauto.
    + destruct (jge q (Num 75)); [tauto|].
      split; [|intros [_ ?]; discriminate].
      repeat match goal with
             | |- context [if ?b then _ else _] => destruct b; cbn [andb]
             end; intros [?|?]; discriminate.
  - destruct (jge p (Num 35)); cbn [andb].
    + destruct (jge q (Num 75)); [tauto|].
      split; [|intros [_ ?]; discriminate].
      repeat match goal with
             | |- context [if ?b then _ else _] => destruct b; cbn [andb]
             end; intros [?|?]; discriminate.
    + split; [|intros [? _]; discriminate].
      repeat match goal with
             | |- context [if ?b then _ else _] => destruct b; cbn [andb]
             end; intros [?|?]; discriminate.
Qed.

(** X6: a result of [compareImageQuality] passes the default criteria
    exactly when its grade is "good" or "excellent" and its compression
    ratio lies between 0.60 and 0.64. *)
Theorem default_criteria_accept_good_grades
    (Math_sqrt Math_log10 : jsnum -> jsnum)
    (originalPixels compressedPixels : list byte) (channels : nat)
    (ratio : jsnum) (r : QualityAnalysisResult) :
  compareImageQuality Math_sqrt Math_log10 originalPixels compressedPixels
    channels ratio = Returns r ->
  (validateQualityCriteria r noCriteria = true
   <-> (qualityGrade r = "good" \/ qualityGrade r = "excellent")
       /\ jle (Num (60 # 100)) ratio = true
       /\ jle ratio (Num (64 # 100)) = true).
Proof.
  unfold compareImageQuality.
  destruct (calculateMSE originalPixels compressedPixels channels)
    as [m| |]; try discriminate.
  intros Hr. injection Hr as <-.
  unfold validateQualityCriteria.
  cbn [psnr qualityScore compressionRatio qualityGrade noCriteria default
       c_minPSNR c_minQualityScore c_maxCompressionRatio
       c_minCompressionRatio forallb].
  rewrite grade_good_or_excellent. unfold jge at 3.
  rewrite !andb_true_iff. tauto.
Qed.

(** A pair whose PSNR comes out as 50 dB, the file 62% smaller. *)
Lemma default_criteria_accept_good_grades_witness :
  validateQualityCriteria
    {| psnr := Num (5000 # 100); mse := Num (39 # 9);
       ssim := Num (1000 # 1000); compressionRatio := Num (62 # 100);
       qualityScore := Num 91; qualityGrade := "excellent" |} noCriteria
  = true
  <-> ("excellent" = "good" \/ "excellent" = "excellent")
      /\ jle (Num (60 # 100)) (Num (62 # 100)) = true
      /\ jle (Num (62 # 100)) (Num (64 # 100)) = true.
Proof.
  apply (default_criteria_accept_good_grades (fun x => x)
           (fun _ => Num (5 # 2))
           ["010"; "020"; "030"]%byte ["012"; "020"; "027"]%byte 3
           (Num (62 # 100))).
  vm_compute. reflexivity.
Defined.

(** *** Comparing files and batches of files *)

(** What [fs.stat], [sharp] and [imageToPixelArray] give for a pair of
    paths: the sizes of the two files and, for each image, the raw bytes
    and the channel count. *)
Record DecodedPair : Type := {
  originalSize : Z;
  compressedSize : Z;
  originalData : list byte;
  originalChannels : nat;
  compressedData : list byte;
  compressedChannels : nat
}.

(** One element of the array returned by [batchQualityAnalysis]: the
    metrics and the properties the batch adds to [metadata]. *)
Record BatchResult : Type := {
  metrics : QualityAnalysisResult;
  analysisError : option string;
  batchIndex : nat;
  originalFile : string;
  compressedFile : string
}.

(** The metrics recorded for a pair whose comparison threw. *)
Definition failedAnalysis : QualityAnalysisResult :=
  {| psnr := Num 0; mse := PosInf; ssim := Num 0; compressionRatio := Num 0;
     qualityScore := Num 0; qualityGrade := "error" |}.

Section Files.

Variable Math_sqrt : jsnum -> jsnum.
Variable Math_log10 : jsnum -> jsnum.

(** [path.basename]. *)
Variable path_basename : string -> string.

(** Reading and decoding the two files; an error of the file system or
    of the codec is thrown. *)
Variable decode : string -> string -> completion DecodedPair.

(** [compareImageQuality(originalPath, compressedPath)] from the paths. *)
Definition compareImageFiles (originalPath compressedPath : string)
    : completion QualityAnalysisResult :=
  match decode originalPath compressedPath with
  | Throws message => Throws ("품질 비교 분석 실패: " +:+ message)
  | Diverges => Diverges
  | Returns d =>
      let compressionRatio :=
        jdiv (jsub (ofZ (originalSize d)) (ofZ (compressedSize d)))
             (ofZ (originalSize d)) in
      let channels :=
        Nat.min (Nat.min (originalChannels d) (compressedChannels d)) 3 in
      compareImageQuality Math_sqrt Math_log10 (originalData d)
        (compressedData d) channels compressionRatio
  end.

(** The loop of [batchQualityAnalysis] from index [i] on. *)
Fixpoint analysisLoop (imagePairs : list (string * string)) (i : nat)
    (results : list BatchResult) : completion (list BatchResult) :=
  match imagePairs with
  | [] => Returns results
  | (original, compressed) :: rest =>
      match compareImageFiles original compressed with
      | Returns result =>
          analysisLoop rest (S i)
            (results ++ [{| metrics := result; analysisError := None;
                            batchIndex := i;
                            originalFile := path_basename original;
                            compressedFile := path_basename compressed |}])
      | Throws message =>
          analysisLoop rest (S i)
            (results ++ [{| metrics := failedAnalysis;
                            analysisError := Some message;
                            batchIndex := i;
                            originalFile := path_basename original;
                            compressedFile := path_basename compressed |}])
      | Diverges => Diverges
      end
  end.

(** [batchQualityAnalysis(imagePairs)]; the averages it prints before
    returning are left out. *)
Definition batchQualityAnalysis (imagePairs : list (string * string))
    : completion (list BatchResult) :=
  analysisLoop imagePairs 0 [].

(** What the batch records for one pair at index [i]. *)
Definition recorded (i : nat) (pair : string * string) (e : BatchResult)
    : Prop :=
  batchIndex e = i
  /\ originalFile e = path_basename (fst pair)
  /\ compressedFile e = path_basename (snd pair)
  /\ match compareImageFiles (fst pair) (snd pair) with
     | Returns result => metrics e = result /\ analysisError e = None
     | Throws message =>
         metrics e = failedAnalysis /\ analysisError e = Some message
     | Diverges => False
     end.

Lemma analysisLoop_entries (imagePairs : list (string * string)) :
  (forall pair, In pair imagePairs ->
     compareImageFiles (fst pair) (snd pair) <> Diverges) ->
  forall (i : nat) (results : list BatchResult),
  exists added,
    analysisLoop imagePairs i results = Returns (results ++ added)
    /\ length added = length imagePairs
    /\ forall k pair,
         imagePairs !! k = Some pair ->
         exists e, added !! k = Some e /\ recorded (i + k) pair e.
Proof.
  induction imagePairs as [|[original compressed] rest IH]; intros Hends i results.
  - exists []. rewrite app_nil_r. split; [reflexivity|].
    split; [reflexivity|]. intros k pair Hk. discriminate.
  - assert (Hrest : forall pair, In pair rest ->
              compareImageFiles (fst pair) (snd pair) <> Diverges).
    { intros pair Hin. apply Hends. right. exact Hin. }
    assert (Hhead := Hends (original, compressed) (or_introl eq_refl)).
    cbn [fst snd] in Hhead. cbn [analysisLoop].
    destruct (compareImageFiles original compressed) as [result|message|] eqn:Hc;
      [| |congruence].
    all: match goal with
         | |- context [analysisLoop _ _ (_ ++ [?e])] =>
             destruct (IH Hrest (S i) (results ++ [e])) as (added & Hloop & Hlen & Hk);
             exists (e :: added)
         end.
    all: split; [rewrite Hloop, <- app_assoc; reflexivity|].
    all: split; [cbn; rewrite Hlen; reflexivity|].
    all: intros [|k] pair Hpair; cbn in Hpair.
    all: try (injection Hpair as <-; eexists; split; [reflexivity|];
              unfold recorded; cbn [fst snd batchIndex originalFile
                compressedFile metrics analysisError];
              rewrite Hc, Nat.add_0_r; auto).
    all: destruct (Hk k pair Hpair) as (e & He & Hrec); exists e;
      split; [exact He|]; replace (i + S k)%nat with (S i + k)%nat by lia;
      exact Hrec.
Qed.

(** X7: when every comparison ends, [batchQualityAnalysis] never throws: it
    returns one entry per pair, in the order of the pairs, that carries the
    index and the base names of the pair and either the metrics of the
    comparison or, when the comparison threw, the message and the
    placeholder metrics graded "error". *)
Theorem batchQualityAnalysis_entries (imagePairs : list (string * string)) :
  (forall pair, In pair imagePairs ->
     compareImageFiles (fst pair) (snd pair) <> Diverges) ->
  exists results,
    batchQualityAnalysis imagePairs = Returns results
    /\ length results = length imagePairs
    /\ forall i pair,
         imagePairs !! i = Some pair ->
         exists e, results !! i = Some e /\ recorded i pair e.
Proof.
  intros Hends.
  destruct (analysisLoop_entries imagePairs Hends 0 []) as (added & H & Hlen & Hk).
  exists added. split; [exact H|]. split; [exact Hlen|]. exact Hk.
Qed.

End Files.

(** A readable pair and an original that does not exist. *)
Definition sampleDecode (originalPath compressedPath : string)
    : completion DecodedPair :=
  if String.eqb originalPath "in/a.gif" then
    Returns {| originalSize := 1000; compressedSize := 380;
               originalData := ["010"; "020"; "030"]%byte;
               originalChannels := 3;
               compressedData := ["012"; "020"; "027"]%byte;
               compressedChannels := 3 |}
  else Throws "ENOENT".

Lemma batchQualityAnalysis_entries_witness :
  exists results,
    batchQualityAnalysis (fun x => x) (fun _ => Num (5 # 2)) (fun p => p)
      sampleDecode [("in/a.gif", "out/a.webp"); ("in/b.gif", "out/b.webp")]
    = Returns results
    /\ length results = 2%nat
    /\ forall i pair,
         [("in/a.gif", "out/a.webp"); ("in/b.gif", "out/b.webp")] !! i
         = Some pair ->
         exists e,
           results !! i = Some e
           /\ recorded (fun x => x) (fun _ => Num (5 # 2)) (fun p => p)
                sampleDecode i pair e.
Proof.
  apply (batchQualityAnalysis_entries (fun x => x) (fun _ => Num (5 # 2))
           (fun p => p) sampleDecode
           [("in/a.gif", "out/a.webp"); ("in/b.gif", "out/b.webp")]).
  intros pair [<-|[<-|[]]]; vm_compute; discriminate.
Defined.

(** X8: once the two files are decoded with channel counts of at least 1,
    the comparison ends: it returns metrics when the two buffers have the
    same length, and throws the size error behind the prefix of
    [compareImageQuality] when they do not. *)
Theorem compareImageFiles_completes
    (Math_sqrt Math_log10 : jsnum -> jsnum)
    (decode : string -> string -> completion DecodedPair)
    (originalPath compressedPath : string) (d : DecodedPair) :
  decode originalPath compressedPath = Returns d ->
  (1 <= originalChannels d)%nat -> (1 <= compressedChannels d)%nat ->
  (length (originalData d) = length (compressedData d) ->
   exists result,
     compareImageFiles Math_sqrt Math_log10 decode originalPath compressedPath
     = Returns result)
  /\ (length (originalData d) <> length (compressedData d) ->
      compareImageFiles Math_sqrt Math_log10 decode originalPath compressedPath
      = Throws "품질 비교 분석 실패: 픽셀 배열 크기가 일치하지 않습니다").
Proof.
  intros Hd Ho Hc. unfold compareImageFiles, compareImageQuality.
  rewrite Hd. split; intros Hlen.
  - destruct (calculateMSE_returns (originalData d) (compressedData d)
                (Nat.min (Nat.min (originalChannels d) (compressedChannels d)) 3))
      as [value ->]; [lia|exact Hlen|].
    eexists. reflexivity.
  - unfold calculateMSE. apply Nat.eqb_neq in Hlen. rewrite Hlen.
    reflexivity.
Qed.

Lemma compareImageFiles_completes_witness :
  (length ["010"; "020"; "030"]%byte = length ["012"; "020"; "027"]%byte ->
   exists result,
     compareImageFiles (fun x => x) (fun _ => Num (5 # 2)) sampleDecode
       "in/a.gif" "out/a.webp" = Returns result)
  /\ (length ["010"; "020"; "030"]%byte <> length ["012"; "020"; "027"]%byte ->
      compareImageFiles (fun x => x) (fun _ => Num (5 # 2)) sampleDecode
        "in/a.gif" "out/a.webp"
      = Throws "품질 비교 분석 실패: 픽셀 배열 크기가 일치하지 않습니다").
Proof.
  apply (compareImageFiles_completes (fun x => x) (fun _ => Num (5 # 2))
           sampleDecode "in/a.gif" "out/a.webp"
           {| originalSize := 1000; compressedSize := 380;
              originalData := ["010"; "020"; "030"]%byte;
              originalChannels := 3;
              compressedData := ["012"; "020"; "027"]%byte;
              compressedChannels := 3 |});
    [reflexivity | cbn; lia | cbn; lia].
Defined.

(** *** Range of the error and precision of PSNR *)

Lemma byteValue_range (b : byte) : (0 <= byteValue b <= 255)%Z.
Proof.
  unfold byteValue. assert (H := Byte.to_N_bounded b). lia.
Qed.

Lemma byteValue_inj (x y : byte) : byteValue x = byteValue y -> x = y.
Proof.
  unfold byteValue. intros H. apply N2Z.inj in H.
  assert (Hx := Byte.of_to_N x). rewrite H, Byte.of_to_N in Hx.
  congruence.
Qed.

Lemma sumSquaredDiff_range (a b : list byte) :
  (0 <= sumSquaredDiff a b <= 65025 * Z.of_nat (length a))%Z.
Proof.
  revert b. induction a as [|x a IH]; intros [|y b]; cbn [sumSquaredDiff];
    try (cbn [length]; lia).
  specialize (IH b). assert (Hx := byteValue_range x).
  assert (Hy := byteValue_range y).
  change (length (x :: a)) with (S (length a)). rewrite Nat2Z.inj_succ.
  set (d := (byteValue x - byteValue y)%Z).
  assert (Hd : (0 <= (255 - d) * (255 + d))%Z)
    by (apply Z.mul_nonneg_nonneg; lia).
  assert (Hd0 := Z.square_nonneg d). nia.
Qed.

Lemma sumSquaredDiff_zero (a b : list byte) :
  length a = length b -> (sumSquaredDiff a b = 0%Z <-> a = b).
Proof.
  revert b. induction a as [|x a IH]; intros [|y b] Hlen; try discriminate.
  - cbn. tauto.
  - injection Hlen as Hlen. specialize (IH b Hlen).
    assert (Hr := sumSquaredDiff_range a b). cbn [sumSquaredDiff].
    split.
    + intros H.
      assert (Hxy : byteValue x = byteValue y) by nia.
      assert (Hab : sumSquaredDiff a b = 0%Z) by nia.
      apply byteValue_inj in Hxy. apply IH in Hab. congruence.
    + intros H. injection H as -> Hab. apply IH in Hab. lia.
Qed.

(** The value of [calculateMSE] on whole pixels. *)
Lemma calculateMSE_mean
    (originalPixels compressedPixels : list byte) (channels n : nat) :
  (1 <= channels)%nat -> (1 <= n)%nat ->
  length originalPixels = (n * channels)%nat ->
  length compressedPixels = length originalPixels ->
  exists q,
    calculateMSE originalPixels compressedPixels channels = Returns (Num q)
    /\ q == meanSquaredDiff originalPixels compressedPixels.
Proof.
  intros Hch Hn Hlen Heq. unfold calculateMSE.
  rewrite Heq, Nat.eqb_refl. cbn [negb].
  destruct (pixelLoop_sum originalPixels compressedPixels channels Heq Hch
              (length originalPixels) n 0 (Num 0))
    as (t & -> & q & -> & Hq).
  - cbn. exact Hlen.
  - rewrite Hlen. nia.
  - exists 0. split; reflexivity.
  - rewrite prefixSum_all in Hq by (symmetry; exact Heq).
    assert (Hc := inject_Z_of_nat_pos channels Hch).
    assert (Hl : 0 < inject_Z (Z.of_nat (length originalPixels))).
    { apply inject_Z_of_nat_pos. nia. }
    unfold ofNat, ofZ. cbn [jdiv].
    destruct (Qeq_bool (inject_Z (Z.of_nat channels)) 0) eqn:E1.
    { qprops. lra. }
    cbn [jmul jdiv].
    match goal with
    | |- context [Qeq_bool ?t 0] => destruct (Qeq_bool t 0) eqn:E2
    end.
    { qprops. field_simplify in E2; lra. }
    eexists. split; [reflexivity|].
    unfold meanSquaredDiff. rewrite Hq. field. split; lra.
Qed.

(** X9: on two buffers of the same [n >= 1] whole pixels the mean squared
    error lies between 0 and 255 squared, and it is 0 exactly when the two
    buffers hold the same bytes. *)
Theorem calculateMSE_range
    (originalPixels compressedPixels : list byte) (channels n : nat) :
  (1 <= channels)%nat -> (1 <= n)%nat ->
  length originalPixels = (n * channels)%nat ->
  length compressedPixels = length originalPixels ->
  exists q,
    calculateMSE originalPixels compressedPixels channels = Returns (Num q)
    /\ 0 <= q <= 65025
    /\ (jeq (Num q) (Num 0) = true <-> originalPixels = compressedPixels).
Proof.
  intros Hch Hn Hlen Heq.
  destruct (calculateMSE_mean originalPixels compressedPixels channels n
              Hch Hn Hlen Heq) as (q & Hq & Hmean).
  exists q. split; [exact Hq|].
  assert (Hr := sumSquaredDiff_range originalPixels compressedPixels).
  assert (Hz := sumSquaredDiff_zero originalPixels compressedPixels
                  (eq_sym Heq)).
  assert (Hl : 0 < inject_Z (Z.of_nat (length originalPixels))).
  { apply inject_Z_of_nat_pos. nia. }
  set (s := sumSquaredDiff originalPixels compressedPixels) in *.
  set (l := inject_Z (Z.of_nat (length originalPixels))) in *.
  assert (Hs0 : 0 <= inject_Z s).
  { change 0 with (inject_Z 0). rewrite <- Zle_Qle. lia. }
  assert (Hs1 : inject_Z s <= 65025 * l).
  { change 65025 with (inject_Z 65025). unfold l.
    rewrite <- inject_Z_mult, <- Zle_Qle. lia. }
  assert (Hql : q * l == inject_Z s).
  { rewrite Hmean. unfold meanSquaredDiff. fold s. fold l. field. lra. }
  split; [split|].
  - apply Qnot_lt_le. intros Hneg.
    assert (q * l < 0) by nra. lra.
  - apply Qnot_lt_le. intros Hbig.
    assert (65025 * l < q * l) by nra. lra.
  - cbn [jeq]. rewrite Qeq_bool_iff, <- Hz. split.
    + intros H0. rewrite H0 in Hql.
      assert (Hi : inject_Z s == inject_Z 0) by (rewrite <- Hql; ring).
      exact (proj1 (inject_Z_injective s 0) Hi).
    + intros H0. rewrite H0 in Hql. change (inject_Z 0) with 0 in Hql.
      nra.
Qed.

(** Two pixels of three channels. *)
Lemma calculateMSE_range_witness :
  exists q,
    calculateMSE ["010"; "020"; "030"; "040"; "050"; "060"]%byte
                 ["012"; "020"; "027"; "040"; "054"; "060"]%byte 3
    = Returns (Num q)
    /\ 0 <= q <= 65025
    /\ (jeq (Num q) (Num 0) = true
        <-> ["010"; "020"; "030"; "040"; "050"; "060"]%byte
            = ["012"; "020"; "027"; "040"; "054"; "060"]%byte).
Proof.
  apply (calculateMSE_range
           ["010"; "020"; "030"; "040"; "050"; "060"]%byte
           ["012"; "020"; "027"; "040"; "054"; "060"]%byte 3 2);
    [lia | lia | reflexivity | reflexivity].
Defined.

(** X10: when the images differ and the logarithm is a finite number [l],
    [calculatePSNR] returns a whole number of hundredths that is within
    0.005 of [20 * l]. *)
Theorem calculatePSNR_two_decimals
    (Math_sqrt Math_log10 : jsnum -> jsnum) (mse maxPixelValue : jsnum)
    (l : Q) :
  jeq mse (Num 0) = false ->
  Math_log10 (jdiv maxPixelValue (Math_sqrt mse)) = Num l ->
  exists z : Z,
    calculatePSNR Math_sqrt Math_log10 mse maxPixelValue
    = Num (inject_Z z / 100)
    /\ 20 * l - (1 # 200) < inject_Z z / 100 <= 20 * l + (1 # 200).
Proof.
  intros Hmse Hlog. unfold calculatePSNR. rewrite Hmse, Hlog.
  cbn [jmul jround ofZ jdiv]. change (Qeq_bool 100 0) with false.
  eexists. split; [reflexivity|].
  unfold Qround_half_up.
  assert (Hlow := Qfloor_le (20 * l * 100 + (1 # 2))).
  assert (Hup := Qlt_floor (20 * l * 100 + (1 # 2))).
  rewrite inject_Z_plus in Hup. change (inject_Z 1) with 1 in Hup.
  unfold Qdiv. change (/ 100) with (1 # 100). split; lra.
Qed.

(** A mean squared error of 4 with the logarithm 2.10721. *)
Lemma calculatePSNR_two_decimals_witness :
  exists z : Z,
    calculatePSNR (fun _ => Num 2) (fun _ => Num (210721 # 100000)) (Num 4)
      (Num 255)
    = Num (inject_Z z / 100)
    /\ 20 * (210721 # 100000) - (1 # 200) < inject_Z z / 100
       <= 20 * (210721 # 100000) + (1 # 200).
Proof.
  apply (calculatePSNR_two_decimals (fun _ => Num 2)
           (fun _ => Num (210721 # 100000)) (Num 4) (Num 255)
           (210721 # 100000)); reflexivity.
Defined.

End Quality.

(** ** Compression optimizer (optimizer.js) *)

Module Optimizer.

(** [Math.min] and [Math.max] on two finite numbers. *)
Definition Math_min (a b : Q) : Q := if Qle_bool a b then a else b.
Definition Math_max (a b : Q) : Q := if Qle_bool a b then b else a.

(** The fully populated [OptimizationOptions].  Quality and effort are the
    integers that the encoder takes. *)
Record OptimizationOptions : Type := {
  targetCompressionRatio : Q;
  minPSNR : Q;
  maxQuality : Z;
  minQuality : Z;
  maxEffort : Z;
  allowLossless : bool
}.

Definition DEFAULT_OPTIONS : OptimizationOptions := {|
  targetCompressionRatio := 62 # 100;
  minPSNR := 35;
  maxQuality := 95;
  minQuality := 45;
  maxEffort := 6;
  allowLossless := false
|}.

(** The [options] argument of a caller: any subset of the properties. *)
Record UserOptions : Type := {
  o_targetCompressionRatio : option Q;
  o_minPSNR : option Q;
  o_maxQuality : option Z;
  o_minQuality : option Z;
  o_maxEffort : option Z;
  o_allowLossless : option bool
}.

Definition noOptions : UserOptions := {|
  o_targetCompressionRatio := None; o_minPSNR := None; o_maxQuality := None;
  o_minQuality := None; o_maxEffort := None; o_allowLossless := None
|}.

(** [{ ...DEFAULT_OPTIONS, ...options }]. *)
Definition mergeOptions (options : UserOptions) : OptimizationOptions := {|
  targetCompressionRatio :=
    default (targetCompressionRatio DEFAULT_OPTIONS) (o_targetCompressionRatio options);
  minPSNR := default (minPSNR DEFAULT_OPTIONS) (o_minPSNR options);
  maxQuality := default (maxQuality DEFAULT_OPTIONS) (o_maxQuality options);
  minQuality := default (minQuality DEFAULT_OPTIONS) (o_minQuality options);
  maxEffort := default (maxEffort DEFAULT_OPTIONS) (o_maxEffort options);
  allowLossless := default (allowLossless DEFAULT_OPTIONS) (o_allowLossless options)
|}.

(** A merged record handed on as the [options] of another optimizer. *)
Definition asOptions (opts : OptimizationOptions) : UserOptions := {|
  o_targetCompressionRatio := Some (targetCompressionRatio opts);
  o_minPSNR := Some (minPSNR opts);
  o_maxQuality := Some (maxQuality opts);
  o_minQuality := Some (minQuality opts);
  o_maxEffort := Some (maxEffort opts);
  o_allowLossless := Some (allowLossless opts)
|}.

(** [GIFAnalysis], the attributes of the input image. *)
Record GIFAnalysis : Type := {
  fileSize : Z;
  width : Z;
  height : Z;
  frames : Z;
  format : string;
  density : Z;
  hasAlpha : bool
}.

Record QualityAdjustments : Type := {
  baseQuality : Z;
  targetAdjustment : Z;
  sizeAdjustment : Z;
  frameAdjustment : Z
}.

(** [metadata] of a result; the nested [compressionResult] and
    [qualityResult] of the balanced strategy are left out. *)
Record Metadata : Type := {
  optimizationStrategy : string;
  inputAnalysis : GIFAnalysis;
  qualityAdjustments : option QualityAdjustments;
  selectedStrategy : option string;
  selectionReason : option string
}.

(** An [OptimizationResult].  Its [compressionRatio] is held twice: as
    the rational that exact arithmetic gives, and in [compressionRatio64]
    as the binary64 number that the runtime computes, which differs from it
    in the last place and from which the integer [predictedSize] comes. *)
Record OptimizationResult : Type := {
  quality : Z;
  effort : Z;
  lossless : bool;
  predictedSize : Z;
  compressionRatio : Q;
  compressionRatio64 : Binary64.float64;
  estimatedPSNR : jsnum;
  metadata : Metadata
}.

(** [predictQualityFromSize(width, height, frames)]. *)
Definition predictQualityFromSize (width height frames : Z) : Z :=
  let totalPixels := (width * height * frames)%Z in
  if (totalPixels <? 50000)%Z then 85%Z
  else if (totalPixels <? 200000)%Z then 80%Z
  else if (totalPixels <? 800000)%Z then 75%Z
  else if (totalPixels <? 2000000)%Z then 70%Z
  else 65%Z.

Import Binary64.

(** [Math.floor(analysis.fileSize * (1 - ratio))], in binary64. *)
Definition predictSize (fileSize : Z) (ratio : float64) : Z :=
  ffloor (fmul (ofInt fileSize) (fsub (ofInt 1) ratio)).

(** [Math.floor((1 - targetSizeReduction) * 30)], in binary64. *)
Definition targetQualityAdjustment (targetSizeReduction : Q) : Z :=
  ffloor (fmul (fsub (ofInt 1) (ofDecimal targetSizeReduction)) (ofInt 30)).

(** [Math.min(cap, start + (100 - quality) / 100 * slope)], in binary64. *)
Definition estimateRatio64 (cap start slope : Q) (quality : Z) : float64 :=
  fmin (ofDecimal cap)
    (fadd (ofDecimal start)
       (fmul (fdiv (fsub (ofInt 100) (ofInt quality)) (ofInt 100))
             (ofDecimal slope))).

(** [optimizeForCompression(analysis, options)]. *)
Definition optimizeForCompression (analysis : GIFAnalysis)
    (options : UserOptions) : OptimizationResult :=
  let opts := mergeOptions options in
  let baseQuality :=
    predictQualityFromSize (width analysis) (height analysis) (frames analysis) in
  let targetSizeReduction := targetCompressionRatio opts in
  let qualityAdjustment := targetQualityAdjustment targetSizeReduction in
  let recommendedQuality :=
    Z.max (minQuality opts)
          (Z.min (maxQuality opts) (baseQuality - qualityAdjustment)) in
  let recommendedQuality :=
    if (width analysis * height analysis >? 1000000)%Z
    then Z.max (minQuality opts) (recommendedQuality - 10)
    else recommendedQuality in
  let recommendedQuality :=
    if (frames analysis >? 20)%Z
    then Z.max (minQuality opts) (recommendedQuality - 5)
    else recommendedQuality in
  let estimatedCompressionRatio :=
    Math_min (8 # 10)
      ((3 # 10) + (100 - inject_Z recommendedQuality) / 100 * (4 # 10)) in
  let estimatedCompressionRatio64 :=
    estimateRatio64 (8 # 10) (3 # 10) (4 # 10) recommendedQuality in
  let predictedSize :=
    predictSize (fileSize analysis) estimatedCompressionRatio64 in
  let estimatedPSNR :=
    Math_max 30 (25 + (inject_Z recommendedQuality / 100) * 20) in
  {| quality := recommendedQuality;
     effort := maxEffort opts;
     lossless := false;
     predictedSize := predictedSize;
     compressionRatio := estimatedCompressionRatio;
     compressionRatio64 := estimatedCompressionRatio64;
     estimatedPSNR := Num estimatedPSNR;
     metadata :=
       {| optimizationStrategy := "compression-focused";
          inputAnalysis := analysis;
          qualityAdjustments :=
            Some {| baseQuality := baseQuality;
                    targetAdjustment := qualityAdjustment;
                    sizeAdjustment :=
                      if (width analysis * height analysis >? 1000000)%Z
                      then (-10)%Z else 0%Z;
                    frameAdjustment :=
                      if (frames analysis >? 20)%Z then (-5)%Z else 0%Z |};
          selectedStrategy := None;
          selectionReason := None |} |}.

(** [optimizeForQuality(analysis, options)]. *)
Definition optimizeForQuality (analysis : GIFAnalysis)
    (options : UserOptions) : OptimizationResult :=
  let opts := mergeOptions options in
  let recommendedQuality :=
    if (fileSize analysis >? 5 * 1024 * 1024)%Z then 80%Z
    else if (fileSize analysis >? 1 * 1024 * 1024)%Z then 85%Z
    else 90%Z in
  if allowLossless opts && (fileSize analysis <? 2 * 1024 * 1024)%Z then
    {| quality := 100;
       effort := maxEffort opts;
       lossless := true;
       predictedSize :=
         ffloor (fmul (ofInt (fileSize analysis)) (ofDecimal (7 # 10)));
       compressionRatio := 3 # 10;
       compressionRatio64 := ofDecimal (3 # 10);
       estimatedPSNR := PosInf;
       metadata :=
         {| optimizationStrategy := "quality-focused-lossless";
            inputAnalysis := analysis;
            qualityAdjustments := None;
            selectedStrategy := None;
            selectionReason := None |} |}
  else
    let estimatedCompressionRatio :=
      Math_min (6 # 10)
        ((2 # 10) + (100 - inject_Z recommendedQuality) / 100 * (3 # 10)) in
    let estimatedCompressionRatio64 :=
      estimateRatio64 (6 # 10) (2 # 10) (3 # 10) recommendedQuality in
    let predictedSize :=
      predictSize (fileSize analysis) estimatedCompressionRatio64 in
    let estimatedPSNR :=
      Math_max (minPSNR opts) (30 + (inject_Z recommendedQuality / 100) * 25) in
    {| quality := recommendedQuality;
       effort := maxEffort opts;
       lossless := false;
       predictedSize := predictedSize;
       compressionRatio := estimatedCompressionRatio;
       compressionRatio64 := estimatedCompressionRatio64;
       estimatedPSNR := Num estimatedPSNR;
       metadata :=
         {| optimizationStrategy := "quality-focused";
            inputAnalysis := analysis;
            qualityAdjustments := None;
            selectedStrategy := None;
            selectionReason := None |} |}.

(** [optimizeBalanced(analysis, options)]. *)
Definition optimizeBalanced (analysis : GIFAnalysis)
    (options : UserOptions) : OptimizationResult :=
  let opts := mergeOptions options in
  let compressionResult := optimizeForCompression analysis (asOptions opts) in
  let qualityResult := optimizeForQuality analysis (asOptions opts) in
  let balancedQuality :=
    ((quality compressionResult + quality qualityResult) / 2)%Z in
  let balancedCompressionRatio :=
    (compressionRatio compressionResult + compressionRatio qualityResult) / 2 in
  let balancedCompressionRatio64 :=
    fdiv (fadd (compressionRatio64 compressionResult)
               (compressionRatio64 qualityResult)) (ofInt 2) in
  {| quality := balancedQuality;
     effort := maxEffort opts;
     lossless := false;
     predictedSize :=
       predictSize (fileSize analysis) balancedCompressionRatio64;
     compressionRatio := balancedCompressionRatio;
     compressionRatio64 := balancedCompressionRatio64;
     estimatedPSNR :=
       Num (Math_max (minPSNR opts) (30 + (inject_Z balancedQuality / 100) * 25));
     metadata :=
       {| optimizationStrategy := "balanced";
          inputAnalysis := analysis;
          qualityAdjustments := None;
          selectedStrategy := None;
          selectionReason := None |} |}.

(** [reasons.join(', ')]. *)
Fixpoint join (separator : string) (parts : list string) : string :=
  match parts with
  | [] => ""
  | [part] => part
  | part :: rest => part +:+ separator +:+ join separator rest
  end.

(** [getStrategyReason(analysis, strategy)]. *)
Definition getStrategyReason (analysis : GIFAnalysis) (strategy : string) : string :=
  let reasons := [] in
  let reasons :=
    if (fileSize analysis >? 10 * 1024 * 1024)%Z
    then reasons ++ ["대용량 파일 (>10MB)"] else reasons in
  let reasons :=
    if (fileSize analysis <? 500 * 1024)%Z
    then reasons ++ ["소용량 파일 (<500KB)"] else reasons in
  let reasons :=
    if (width analysis * height analysis >? 2000000)%Z
    then reasons ++ ["고해상도 이미지"] else reasons in
  let reasons :=
    if (frames analysis >? 50)%Z
    then reasons ++ ["다량 프레임 (>50)"] else reasons in
  if (0 <? length reasons)%nat then join ", " reasons else "기본 균형 전략".

(** The strategy that [optimizeAdaptive] picks from the analysis. *)
Definition selectStrategy (analysis : GIFAnalysis) : string :=
  if (fileSize analysis >? 10 * 1024 * 1024)%Z then "compression"
  else if (fileSize analysis <? 500 * 1024)%Z then "quality"
  else if (width analysis * height analysis >? 2000000)%Z then "compression"
  else if (frames analysis >? 50)%Z then "compression"
  else "balanced".

Definition withSelection (result : OptimizationResult)
    (strategy reason : string) : OptimizationResult :=
  {| quality := quality result;
     effort := effort result;
     lossless := lossless result;
     predictedSize := predictedSize result;
     compressionRatio := compressionRatio result;
     compressionRatio64 := compressionRatio64 result;
     estimatedPSNR := estimatedPSNR result;
     metadata :=
       {| optimizationStrategy := optimizationStrategy (metadata result);
          inputAnalysis := inputAnalysis (metadata result);
          qualityAdjustments := qualityAdjustments (metadata result);
          selectedStrategy := Some strategy;
          selectionReason := Some reason |} |}.

(** [optimizeAdaptive(inputPath, options)], from the outcome of
    [analyzeGIF(inputPath)], which reads the file. *)
Definition optimizeAdaptive (analyzeGIF : completion GIFAnalysis)
    (options : UserOptions) : completion OptimizationResult :=
  match analyzeGIF with
  | Throws message => Throws ("적응형 최적화 실패: " +:+ message)
  | Diverges => Diverges
  | Returns analysis =>
      let opts := mergeOptions options in
      let strategy := selectStrategy analysis in
      let result :=
        if String.eqb strategy "compression"
        then optimizeForCompression analysis (asOptions opts)
        else if String.eqb strategy "quality"
        then optimizeForQuality analysis (asOptions opts)
        else optimizeBalanced analysis (asOptions opts) in
      Returns (withSelection result strategy
                 (getStrategyReason analysis strategy))
  end.

(** *** The adaptive selector as an ordered list of rules *)

(** The rules of the specification: a condition on the attributes and the
    strategy it selects; the first rule that fires wins. *)
Definition adaptiveRules : list ((GIFAnalysis -> bool) * string) :=
  [ (fun a => (fileSize a >? 10 * 1024 * 1024)%Z, "compression");
    (fun a => (fileSize a <? 500 * 1024)%Z, "quality");
    (fun a => (width a * height a >? 2000000)%Z, "compression");
    (fun a => (frames a >? 50)%Z, "compression") ].

Fixpoint firstMatch (rules : list ((GIFAnalysis -> bool) * string))
    (analysis : GIFAnalysis) (otherwise : string) : string :=
  match rules with
  | [] => otherwise
  | (condition, strategy) :: rules' =>
      if condition analysis then strategy
      else firstMatch rules' analysis otherwise
  end.

(** The optimizer that a strategy name stands for. *)
Definition optimizerOf (strategy : string)
    : GIFAnalysis -> UserOptions -> OptimizationResult :=
  if String.eqb strategy "compression" then optimizeForCompression
  else if String.eqb strategy "quality" then optimizeForQuality
  else optimizeBalanced.

(** [needle] occurs in [text]. *)
Definition mentions (text needle : string) : bool :=
  match String.index 0 needle text with
  | Some _ => true
  | None => false
  end.

Definition scenario : GIFAnalysis :=
  {| fileSize := 12000000; width := 1920; height := 1080; frames := 30;
     format := "gif"; density := 72; hasAlpha := false |}.

Lemma selectStrategy_firstMatch (analysis : GIFAnalysis) :
  selectStrategy analysis = firstMatch adaptiveRules analysis "balanced".
Proof.
  unfold selectStrategy, adaptiveRules, firstMatch.
  repeat match goal with
         | |- context [if ?b then _ else _] => destruct b
         end; reflexivity.
Qed.

(** The reason of a file above 10 MB begins with the large-file trigger. *)
Lemma large_file_reason (analysis : GIFAnalysis) (strategy : string) :
  (fileSize analysis > 10 * 1024 * 1024)%Z ->
  exists rest,
    getStrategyReason analysis strategy = "대용량 파일 (>10MB)" +:+ rest.
Proof.
  intros H. unfold getStrategyReason.
  assert ((fileSize analysis >? 10 * 1024 * 1024)%Z = true) as -> by lia.
  destruct (fileSize analysis <? 500 * 1024)%Z,
    (width analysis * height analysis >? 2000000)%Z,
    (frames analysis >? 50)%Z; eexists; reflexivity.
Qed.

(** C6: the adaptive optimizer selects the strategy of the first rule that
    fires in the order file size above 10 MB, file size below 500 KB, area
    above 2,000,000, more than 50 frames, and the balanced strategy when
    none does, and returns what the optimizer of that strategy returns; on
    the attributes of the scenario it selects "compression" and its reason
    names the large file. *)
Theorem adaptive_selector_rules :
  (forall (analysis : GIFAnalysis) (options : UserOptions),
      let strategy := firstMatch adaptiveRules analysis "balanced" in
      optimizeAdaptive (Returns analysis) options
      = Returns (withSelection
                   (optimizerOf strategy analysis
                      (asOptions (mergeOptions options)))
                   strategy (getStrategyReason analysis strategy)))
  /\ (forall options : UserOptions,
        exists r reason,
          optimizeAdaptive (Returns scenario) options = Returns r
          /\ selectedStrategy (metadata r) = Some "compression"
          /\ optimizationStrategy (metadata r) = "compression-focused"
          /\ selectionReason (metadata r) = Some reason
          /\ mentions reason "대용량 파일 (>10MB)" = true).
Proof.
  split.
  - intros analysis options strategy. unfold optimizeAdaptive.
    fold strategy. unfold strategy.
    rewrite <- selectStrategy_firstMatch. unfold optimizerOf.
    destruct (String.eqb (selectStrategy analysis) "compression");
      [reflexivity|].
    destruct (String.eqb (selectStrategy analysis) "quality"); reflexivity.
  - intros options. eexists. eexists.
    split; [reflexivity|]. repeat split; reflexivity.
Qed.

(** *** The compression strategy in closed form *)

(** [clamp(v, lo, hi)] of the specification. *)
Definition clamp (v lo hi : Z) : Z := Z.max lo (Z.min hi v).

(** The quality of the compression strategy as the specification gives it:
    one clamp around the base quality less all the adjustments. *)
Definition specCompressionQuality (analysis : GIFAnalysis)
    (opts : OptimizationOptions) : Z :=
  let baseQuality :=
    predictQualityFromSize (width analysis) (height analysis) (frames analysis) in
  clamp (baseQuality
         - Qfloor ((1 - targetCompressionRatio opts) * 30)
         - (if (width analysis * height analysis >? 1000000)%Z then 10 else 0)
         - (if (frames analysis >? 20)%Z then 5 else 0))%Z
        (minQuality opts) (maxQuality opts).

Definition smallImage : GIFAnalysis :=
  {| fileSize := 1001; width := 100; height := 100; frames := 1;
     format := "gif"; density := 72; hasAlpha := false |}.

Definition wideImage : GIFAnalysis :=
  {| fileSize := 1001; width := 2000; height := 1000; frames := 1;
     format := "gif"; density := 72; hasAlpha := false |}.

Definition qualityFrom30To50 : UserOptions :=
  {| o_targetCompressionRatio := None; o_minPSNR := None;
     o_maxQuality := Some 50%Z; o_minQuality := Some 30%Z;
     o_maxEffort := None; o_allowLossless := None |}.

(** The base quality has five tiers, 85 down to 65. *)
Lemma predictQualityFromSize_tiers (w h f : Z) :
  let totalPixels := (w * h * f)%Z in
  predictQualityFromSize w h f
  = (if (totalPixels <? 50000) then 85
     else if (totalPixels <? 200000) then 80
     else if (totalPixels <? 800000) then 75
     else if (totalPixels <? 2000000) then 70 else 65)%Z
  /\ (65 <= predictQualityFromSize w h f <= 85)%Z.
Proof.
  unfold predictQualityFromSize. split; [reflexivity|].
  repeat match goal with
         | |- context [if ?b then _ else _] => destruct b
         end; lia.
Qed.

(** The target ratio 0.8, whose distance to 1 times 30 is just below 6 in
    binary64. *)
Definition target80 : UserOptions :=
  {| o_targetCompressionRatio := Some (8 # 10); o_minPSNR := None;
     o_maxQuality := None; o_minQuality := None;
     o_maxEffort := None; o_allowLossless := None |}.

(** C4, as the code has it: when the base quality less the target
    adjustment does not exceed [maxQuality], and the binary64 product
    [(1 - targetRatio) * 30] has the floor of the exact product (both hold
    with the default options), the quality of the compression strategy is
    the single clamp of the specification; the effort is [maxEffort]; the
    predicted ratio and PSNR follow the formulas; the predicted size is the
    floor of [fileSize * (1 - ratio)], the ratio and the product taken in
    binary64. *)
Theorem compression_strategy_formula (analysis : GIFAnalysis)
    (options : UserOptions) :
  let opts := mergeOptions options in
  let r := optimizeForCompression analysis options in
  targetQualityAdjustment (targetCompressionRatio opts)
  = Qfloor ((1 - targetCompressionRatio opts) * 30) ->
  (predictQualityFromSize (width analysis) (height analysis) (frames analysis)
   - Qfloor ((1 - targetCompressionRatio opts) * 30) <= maxQuality opts)%Z ->
  quality r = specCompressionQuality analysis opts
  /\ effort r = maxEffort opts
  /\ compressionRatio r
     = Math_min (8 # 10) ((3 # 10) + (100 - inject_Z (quality r)) / 100 * (4 # 10))
  /\ compressionRatio64 r
     = fmin (ofDecimal (8 # 10))
         (fadd (ofDecimal (3 # 10))
            (fmul (fdiv (fsub (ofInt 100) (ofInt (quality r))) (ofInt 100))
                  (ofDecimal (4 # 10))))
  /\ predictedSize r
     = ffloor (fmul (ofInt (fileSize analysis))
                    (fsub (ofInt 1) (compressionRatio64 r)))
  /\ estimatedPSNR r
     = Num (Math_max 30 (25 + inject_Z (quality r) / 100 * 20)).
Proof.
  intros opts r Hfloor Hmax.
  split; [|repeat split; reflexivity].
  unfold r, optimizeForCompression, specCompressionQuality, clamp.
  cbn [quality]. fold opts. rewrite Hfloor.
  destruct (width analysis * height analysis >? 1000000)%Z;
    destruct (frames analysis >? 20)%Z; lia.
Qed.

Lemma compression_strategy_formula_witness :
  quality (optimizeForCompression scenario noOptions)
  = specCompressionQuality scenario (mergeOptions noOptions)
  /\ effort (optimizeForCompression scenario noOptions)
     = maxEffort (mergeOptions noOptions)
  /\ compressionRatio (optimizeForCompression scenario noOptions)
     = Math_min (8 # 10)
         ((3 # 10)
          + (100 - inject_Z (quality (optimizeForCompression scenario noOptions)))
            / 100 * (4 # 10))
  /\ compressionRatio64 (optimizeForCompression scenario noOptions)
     = fmin (ofDecimal (8 # 10))
         (fadd (ofDecimal (3 # 10))
            (fmul (fdiv (fsub (ofInt 100)
                           (ofInt (quality
                                     (optimizeForCompression scenario noOptions))))
                        (ofInt 100))
                  (ofDecimal (4 # 10))))
  /\ predictedSize (optimizeForCompression scenario noOptions)
     = ffloor (fmul (ofInt (fileSize scenario))
                    (fsub (ofInt 1)
                       (compressionRatio64
                          (optimizeForCompression scenario noOptions))))
  /\ estimatedPSNR (optimizeForCompression scenario noOptions)
     = Num (Math_max 30
              (25 + inject_Z (quality (optimizeForCompression scenario noOptions))
                    / 100 * 20)).
Proof.
  apply (compression_strategy_formula scenario noOptions).
  - vm_compute. reflexivity.
  - vm_compute. discriminate.
Defined.

(** C4 as stated fails three times.  With [maxQuality = 50] below the
    base quality less the target adjustment (54) the code clamps to 50
    before it subtracts 10 for the area and returns 40, where the single
    clamp of the specification gives 44.  With the default options the
    predicted size of a file of 1001 bytes is the integer 596, not
    1001 * (1 - 0.404).  With the target ratio 0.8 the binary64 product
    [(1 - 0.8) * 30] is just below 6, so that the code subtracts 5 and
    returns 80 where the formula gives 79. *)
Lemma compression_formula_counterexample :
  quality (optimizeForCompression wideImage qualityFrom30To50) = 40%Z
  /\ specCompressionQuality wideImage (mergeOptions qualityFrom30To50) = 44%Z
  /\ predictedSize (optimizeForCompression smallImage noOptions) = 596%Z
  /\ inject_Z (fileSize smallImage)
     * (1 - compressionRatio (optimizeForCompression smallImage noOptions))
     == 596596 # 1000
  /\ quality (optimizeForCompression smallImage target80) = 80%Z
  /\ specCompressionQuality smallImage (mergeOptions target80) = 79%Z.
Proof. vm_compute. repeat split; reflexivity. Qed.

(** *** Bounds on quality and effort *)

(** The four strategies of the optimizer. *)
Inductive Strategy : Type :=
| Compression
| QualityFirst
| Balanced
| Adaptive.

(** The optimizer of a strategy, on attributes already analysed. *)
Definition runStrategy (strategy : Strategy) (analysis : GIFAnalysis)
    (options : UserOptions) : completion OptimizationResult :=
  match strategy with
  | Compression => Returns (optimizeForCompression analysis options)
  | QualityFirst => Returns (optimizeForQuality analysis options)
  | Balanced => Returns (optimizeBalanced analysis options)
  | Adaptive => optimizeAdaptive (Returns analysis) options
  end.

Definition losslessAllowed : UserOptions :=
  {| o_targetCompressionRatio := None; o_minPSNR := None;
     o_maxQuality := None; o_minQuality := None;
     o_maxEffort := None; o_allowLossless := Some true |}.



Lemma mergeOptions_asOptions (opts : OptimizationOptions) :
  mergeOptions (asOptions opts) = opts.
Proof. destruct opts. reflexivity. Qed.



Section Bounds.

Variable analysis : GIFAnalysis.
Variable options : UserOptions.

Let opts := mergeOptions options.

Hypothesis lossy : allowLossless opts = false.
Hypothesis min_le_80 : (minQuality opts <= 80)%Z.
Hypothesis max_ge_90 : (90 <= maxQuality opts)%Z.
Hypothesis effort_range : (0 <= maxEffort opts <= 6)%Z.





End Bounds.




(** *** Validation of a recommendation *)

(** [x < y] of JavaScript. *)
Definition jlt (x y : jsnum) : bool :=
  match x, y with
  | NaN, _ | _, NaN => false
  | Num a, Num b => Qlt_bool a b
  | NegInf, NegInf | PosInf, _ | _, NegInf => false
  | _, _ => true
  end.

(** [validateOptimization(result, options)]: the value it returns.  The
    second test of the source, on the compression ratio, only prints a
    warning. *)
Definition validateOptimization (result : OptimizationResult)
    (options : UserOptions) : bool :=
  let opts := mergeOptions options in
  if jlt (estimatedPSNR result) (Num (minPSNR opts)) then false
  else true.

Lemma Math_max_lower (a b : Q) : a <= Math_max a b.
Proof.
  unfold Math_max. destruct (Qle_bool a b) eqn:H.
  - apply Qle_bool_iff in H. exact H.
  - lra.
Qed.

Lemma jlt_max_false (a b : Q) : jlt (Num (Math_max a b)) (Num a) = false.
Proof.
  cbn [jlt]. unfold Qlt_bool. apply negb_false_iff, Qle_bool_iff, Math_max_lower.
Qed.

(** X11: whatever the image and the options, the recommendations of the
    quality strategy and of the balanced strategy pass
    [validateOptimization] under the same options. *)
Theorem quality_and_balanced_validate (analysis : GIFAnalysis)
    (options : UserOptions) :
  validateOptimization (optimizeForQuality analysis options) options = true
  /\ validateOptimization (optimizeBalanced analysis options) options = true.
Proof.
  unfold validateOptimization. split.
  - unfold optimizeForQuality.
    destruct (allowLossless (mergeOptions options)
              && (fileSize analysis <? 2 * 1024 * 1024)%Z);
      cbn [estimatedPSNR]; [reflexivity|].
    rewrite jlt_max_false. reflexivity.
  - unfold optimizeBalanced. cbn [estimatedPSNR].
    rewrite jlt_max_false. reflexivity.
Qed.

(** X12: with the default options the recommendation of the compression
    strategy passes [validateOptimization] exactly when its quality is at
    least 50; the qualities 45 to 49, which the default bounds allow,
    estimate a PSNR below the required 35 dB. *)
Theorem compression_validates_from_quality_50 (analysis : GIFAnalysis) :
  validateOptimization (optimizeForCompression analysis noOptions) noOptions
  = true
  <-> (50 <= quality (optimizeForCompression analysis noOptions))%Z.
Proof.
  unfold validateOptimization.
  change (minPSNR (mergeOptions noOptions)) with 35.
  unfold optimizeForCompression. cbn [estimatedPSNR quality jlt].
  match goal with
  | |- context [Math_max 30 (25 + inject_Z ?q / 100 * 20)] => set (recommended := q)
  end.
  unfold Qlt_bool, Math_max.
  destruct (Qle_bool 30 (25 + inject_Z recommended / 100 * 20)) eqn:H30.
  - destruct (Qle_bool 35 (25 + inject_Z recommended / 100 * 20)) eqn:H35;
      cbn [negb].
    + split; [intros _|reflexivity].
      apply Qle_bool_iff in H35. unfold Qdiv in H35.
      change (/ 100) with (1 # 100) in H35.
      assert (H : inject_Z 50 <= inject_Z recommended)
        by (change (inject_Z 50) with (50 # 1); lra).
      rewrite <- Zle_Qle in H. exact H.
    + split; [discriminate|intros H].
      apply Quality.Qle_bool_false in H35. unfold Qdiv in H35.
      change (/ 100) with (1 # 100) in H35.
      assert (Hq : inject_Z 50 <= inject_Z recommended)
        by (rewrite <- Zle_Qle; exact H).
      change (inject_Z 50) with (50 # 1) in Hq. lra.
  - change (Qle_bool 35 30) with false. cbn [negb].
    split; [discriminate|intros H].
    apply Quality.Qle_bool_false in H30. unfold Qdiv in H30.
    change (/ 100) with (1 # 100) in H30.
    assert (Hq : inject_Z 50 <= inject_Z recommended)
      by (rewrite <- Zle_Qle; exact H).
    change (inject_Z 50) with (50 # 1) in Hq. lra.
Qed.

(** *** Predicted ratio *)

Lemma compression_quality_upper (analysis : GIFAnalysis) (options : UserOptions) :
  let opts := mergeOptions options in
  (minQuality opts <= 100)%Z -> (maxQuality opts <= 100)%Z ->
  (quality (optimizeForCompression analysis options) <= 100)%Z.
Proof.
  intros opts Hmin Hmax. unfold optimizeForCompression. cbn [quality].
  fold opts.
  destruct (width analysis * height analysis >? 1000000)%Z;
    destruct (frames analysis >? 20)%Z; lia.
Qed.

Lemma compression_ratio_range (analysis : GIFAnalysis) (options : UserOptions) :
  let opts := mergeOptions options in
  (minQuality opts <= 100)%Z -> (maxQuality opts <= 100)%Z ->
  (3 # 10) <= compressionRatio (optimizeForCompression analysis options)
  <= (8 # 10).
Proof.
  intros opts Hmin Hmax.
  assert (Hq := compression_quality_upper analysis options Hmin Hmax).
  unfold optimizeForCompression in *. cbn [quality compressionRatio] in *.
  match goal with
  | |- context [Math_min _ (_ + (100 - inject_Z ?q) / 100 * _)] =>
      set (recommended := q) in *
  end.
  assert (Hr : inject_Z recommended <= inject_Z 100)
    by (rewrite <- Zle_Qle; exact Hq).
  change (inject_Z 100) with (100 # 1) in Hr.
  unfold Math_min, Qdiv. change (/ 100) with (1 # 100).
  match goal with
  | |- context [Qle_bool ?a ?b] => destruct (Qle_bool a b) eqn:H
  end; [lra|].
  apply Quality.Qle_bool_false in H. lra.
Qed.

Lemma quality_ratio_range (analysis : GIFAnalysis) (options : UserOptions) :
  (2 # 10) <= compressionRatio (optimizeForQuality analysis options)
  <= (3 # 10).
Proof.
  unfold optimizeForQuality.
  destruct (allowLossless (mergeOptions options)
            && (fileSize analysis <? 2 * 1024 * 1024)%Z);
    cbn [compressionRatio]; [lra|].
  destruct (fileSize analysis >? 5 * 1024 * 1024)%Z;
    [|destruct (fileSize analysis >? 1 * 1024 * 1024)%Z];
    vm_compute; intuition discriminate.
Qed.

(** The predicted size is the floor of a binary64 product, which can lie
    one below the floor of the exact product: the balanced strategy on a
    file of 1,500,000 bytes predicts the ratio 0.3645, whose exact product
    is 953250, and the lossless recommendation on a file of 90 bytes has
    the exact product 63. *)
Definition twoLargeFrames : GIFAnalysis :=
  {| fileSize := 1500000; width := 1000; height := 1000; frames := 2;
     format := "gif"; density := 72; hasAlpha := false |}.

Definition tinyImage : GIFAnalysis :=
  {| fileSize := 90; width := 10; height := 10; frames := 1;
     format := "gif"; density := 72; hasAlpha := false |}.

Example predictedSize_balanced_below_exact :
  predictedSize (optimizeBalanced twoLargeFrames noOptions) = 953249%Z
  /\ compressionRatio (optimizeBalanced twoLargeFrames noOptions)
     == 3645 # 10000
  /\ Qfloor (inject_Z (fileSize twoLargeFrames)
             * (1 - compressionRatio (optimizeBalanced twoLargeFrames noOptions)))
     = 953250%Z.
Proof. vm_compute. repeat split; reflexivity. Qed.

Example predictedSize_lossless_below_exact :
  lossless (optimizeForQuality tinyImage losslessAllowed) = true
  /\ predictedSize (optimizeForQuality tinyImage losslessAllowed) = 62%Z
  /\ Qfloor (inject_Z (fileSize tinyImage) * (7 # 10)) = 63%Z.
Proof. vm_compute. repeat split; reflexivity. Qed.

Example predictedSize_target80 :
  predictedSize (optimizeForCompression smallImage target80) = 620%Z.
Proof. vm_compute. reflexivity. Qed.

(** X13: when both quality bounds are at most 100, every strategy predicts
    a compression ratio between 0.2 and 0.8; the quality strategy never
    predicts more than 0.3, the compression strategy never less. *)
Theorem predicted_ratio_range (strategy : Strategy)
    (analysis : GIFAnalysis) (options : UserOptions) :
  let opts := mergeOptions options in
  (minQuality opts <= 100)%Z -> (maxQuality opts <= 100)%Z ->
  (exists r,
      runStrategy strategy analysis options = Returns r
      /\ (2 # 10) <= compressionRatio r <= (8 # 10))
  /\ compressionRatio (optimizeForQuality analysis options) <= (3 # 10)
  /\ (3 # 10) <= compressionRatio (optimizeForCompression analysis options).
Proof.
  intros opts Hmin Hmax.
  assert (Hm : mergeOptions (asOptions opts) = opts)
    by apply mergeOptions_asOptions.
  assert (Hc : forall o, mergeOptions o = opts ->
             (3 # 10) <= compressionRatio (optimizeForCompression analysis o)
             <= (8 # 10)).
  { intros o Ho. apply compression_ratio_range; rewrite Ho; assumption. }
  assert (Hq := quality_ratio_range analysis).
  assert (Hb : forall o, mergeOptions o = opts ->
             (2 # 10) <= compressionRatio (optimizeBalanced analysis o)
             <= (8 # 10)).
  { intros o Ho. unfold optimizeBalanced. cbn [compressionRatio].
    rewrite Ho.
    assert (H1 := Hc (asOptions opts) Hm).
    assert (H2 := Hq (asOptions opts)).
    unfold Qdiv. change (/ 2) with (1 # 2). lra. }
  split; [|split; [apply Hq|apply (Hc options eq_refl)]].
  destruct strategy; cbn [runStrategy].
  - eexists. split; [reflexivity|].
    specialize (Hc options eq_refl). lra.
  - eexists. split; [reflexivity|]. specialize (Hq options). lra.
  - eexists. split; [reflexivity|]. apply Hb. reflexivity.
  - unfold optimizeAdaptive. eexists. split; [reflexivity|].
    cbn [withSelection compressionRatio]. fold opts.
    destruct (String.eqb (selectStrategy analysis) "compression").
    + specialize (Hc (asOptions opts) Hm). lra.
    + destruct (String.eqb (selectStrategy analysis) "quality").
      * specialize (Hq (asOptions opts)). lra.
      * apply Hb. exact Hm.
Qed.

(** The adaptive strategy on the scenario with the default options. *)
Lemma predicted_ratio_range_witness :
  (exists r,
      runStrategy Adaptive scenario noOptions = Returns r
      /\ (2 # 10) <= compressionRatio r <= (8 # 10))
  /\ compressionRatio (optimizeForQuality scenario noOptions) <= (3 # 10)
  /\ (3 # 10) <= compressionRatio (optimizeForCompression scenario noOptions).
Proof.
  apply (predicted_ratio_range Adaptive scenario noOptions);
    vm_compute; discriminate.
Defined.

(** *** The balanced strategy *)

Lemma optimizeForCompression_merged (analysis : GIFAnalysis)
    (options : UserOptions) :
  optimizeForCompression analysis (asOptions (mergeOptions options))
  = optimizeForCompression analysis options.
Proof.
  unfold optimizeForCompression. rewrite mergeOptions_asOptions. reflexivity.
Qed.

Lemma optimizeForQuality_merged (analysis : GIFAnalysis)
    (options : UserOptions) :
  optimizeForQuality analysis (asOptions (mergeOptions options))
  = optimizeForQuality analysis options.
Proof.
  unfold optimizeForQuality. rewrite mergeOptions_asOptions. reflexivity.
Qed.

(** X14: the balanced strategy returns the mean of what the compression
    strategy and the quality strategy return for the same options: its
    quality is the floor of the mean of the two, so it lies between them,
    and its ratio is the mean of the two ratios. *)
Theorem balanced_is_the_mean (analysis : GIFAnalysis) (options : UserOptions) :
  let c := optimizeForCompression analysis options in
  let q := optimizeForQuality analysis options in
  let b := optimizeBalanced analysis options in
  quality b = ((quality c + quality q) / 2)%Z
  /\ (Z.min (quality c) (quality q) <= quality b
      <= Z.max (quality c) (quality q))%Z
  /\ compressionRatio b == (compressionRatio c + compressionRatio q) / 2
  /\ Math_min (compressionRatio c) (compressionRatio q) <= compressionRatio b
     <= Math_max (compressionRatio c) (compressionRatio q).
Proof.
  intros c q b. unfold b, optimizeBalanced. cbn [quality compressionRatio].
  rewrite optimizeForCompression_merged, optimizeForQuality_merged.
  fold c q. split; [reflexivity|]. split.
  - split.
    + apply Z.div_le_lower_bound; lia.
    + apply Z.div_le_upper_bound; lia.
  - split; [reflexivity|].
    unfold Math_min, Math_max, Qdiv. change (/ 2) with (1 # 2).
    destruct (Qle_bool (compressionRatio c) (compressionRatio q)) eqn:H.
    + apply Qle_bool_iff in H. lra.
    + apply Quality.Qle_bool_false in H. lra.
Qed.

(** *** Larger inputs *)

Lemma predictQualityFromSize_antitone (w1 h1 f1 w2 h2 f2 : Z) :
  (w1 * h1 * f1 <= w2 * h2 * f2)%Z ->
  (predictQualityFromSize w2 h2 f2 <= predictQualityFromSize w1 h1 f1)%Z.
Proof.
  intros H. unfold predictQualityFromSize.
  repeat match goal with
         | |- context [(?a <? ?b)%Z] => destruct (Z.ltb_spec a b)
         end; lia.
Qed.

(** X15: for fixed options a larger input never gets a higher quality:
    the compression strategy is antitone in the area, the frame count and
    their product, the quality strategy in the file size. *)
Theorem quality_antitone_in_size (a1 a2 : GIFAnalysis) (options : UserOptions) :
  (width a1 * height a1 <= width a2 * height a2)%Z ->
  (frames a1 <= frames a2)%Z ->
  (width a1 * height a1 * frames a1 <= width a2 * height a2 * frames a2)%Z ->
  (fileSize a1 <= fileSize a2)%Z ->
  (quality (optimizeForCompression a2 options)
   <= quality (optimizeForCompression a1 options))%Z
  /\ (quality (optimizeForQuality a2 options)
      <= quality (optimizeForQuality a1 options))%Z.
Proof.
  intros Harea Hframes Hpixels Hsize. split.
  - unfold optimizeForCompression. cbn [quality].
    assert (Hbase := predictQualityFromSize_antitone _ _ _ _ _ _ Hpixels).
    repeat match goal with
           | |- context [(?a >? ?b)%Z] =>
               let H := fresh in
               destruct (Z.gtb_spec a b) as [H|H]
           end; lia.
  - unfold optimizeForQuality.
    destruct (allowLossless (mergeOptions options)); cbn [andb].
    + repeat match goal with
             | |- context [(?a >? ?b)%Z] => destruct (Z.gtb_spec a b)
             | |- context [(?a <? ?b)%Z] => destruct (Z.ltb_spec a b)
             end; cbn [quality]; lia.
    + cbn [quality].
      repeat match goal with
             | |- context [(?a >? ?b)%Z] => destruct (Z.gtb_spec a b)
             end; lia.
Qed.

(** A thumbnail against the scenario. *)
Lemma quality_antitone_in_size_witness :
  (quality (optimizeForCompression scenario noOptions)
   <= quality (optimizeForCompression smallImage noOptions))%Z
  /\ (quality (optimizeForQuality scenario noOptions)
      <= quality (optimizeForQuality smallImage noOptions))%Z.
Proof.
  apply (quality_antitone_in_size smallImage scenario noOptions);
    vm_compute; discriminate.
Defined.

(** *** The reason of the selection *)

(** X16: the reason that [optimizeAdaptive] records is the default text
    "기본 균형 전략" exactly when the balanced strategy was selected. *)
Theorem default_reason_iff_balanced (analysis : GIFAnalysis) :
  getStrategyReason analysis (selectStrategy analysis) = "기본 균형 전략"
  <-> selectStrategy analysis = "balanced".
Proof.
  unfold getStrategyReason, selectStrategy.
  destruct (fileSize analysis >? 10 * 1024 * 1024)%Z,
    (fileSize analysis <? 500 * 1024)%Z,
    (width analysis * height analysis >? 2000000)%Z,
    (frames analysis >? 50)%Z;
    vm_compute; split; intros H; try reflexivity; discriminate H.
Qed.

(** *** Analysis of the input file *)

(** What [fs.stat] and [sharp(inputPath).metadata()] report for a file
    that can be read: the size in bytes and the metadata of the image,
    whose width and height are at least 1; [density] may be missing. *)
Record Probe : Type := {
  p_size : Z;
  p_width : positive;
  p_height : positive;
  p_format : string;
  p_density : option Z;
  p_channels : Z;
  p_hasAlpha : bool
}.

(** [analyzeGIF(inputPath)], from the outcome of reading the file. *)
Definition analyzeGIF (probe : completion Probe) : completion GIFAnalysis :=
  match probe with
  | Throws message => Throws ("GIF 분석 실패: " +:+ message)
  | Diverges => Diverges
  | Returns p =>
      let estimatedFrames :=
        Z.max 1 (p_size p / (Z.pos (p_width p) * Z.pos (p_height p) * 3)) in
      Returns {| fileSize := p_size p;
                 width := Z.pos (p_width p);
                 height := Z.pos (p_height p);
                 frames := Z.min estimatedFrames 100;
                 format := p_format p;
                 density :=
                   match p_density p with
                   | Some d => if (d =? 0)%Z then 72%Z else d
                   | None => 72%Z
                   end;
                 hasAlpha := (p_channels p =? 4)%Z || p_hasAlpha p |}
  end.

Lemma adaptive_inputAnalysis (analysis : GIFAnalysis) (options : UserOptions)
    (r : OptimizationResult) :
  optimizeAdaptive (Returns analysis) options = Returns r ->
  inputAnalysis (metadata r) = analysis.
Proof.
  cbn [optimizeAdaptive]. intros H. injection H as <-.
  cbn [withSelection metadata inputAnalysis].
  destruct (String.eqb _ "compression"); [reflexivity|].
  destruct (String.eqb _ "quality"); [|reflexivity].
  unfold optimizeForQuality.
  destruct (allowLossless _ && _); reflexivity.
Qed.

(** X17: [optimizeAdaptive] throws exactly when the file cannot be read,
    with the message behind the prefixes of the two functions; for a
    readable file it returns a recommendation whose recorded analysis has
    the size of the file, a frame estimate between 1 and 100 and a density
    that is not 0. *)
Theorem adaptive_on_probe (options : UserOptions) :
  (forall message,
      optimizeAdaptive (analyzeGIF (Throws message)) options
      = Throws ("적응형 최적화 실패: GIF 분석 실패: " +:+ message))
  /\ (forall p,
        exists r,
          optimizeAdaptive (analyzeGIF (Returns p)) options = Returns r
          /\ fileSize (inputAnalysis (metadata r)) = p_size p
          /\ (1 <= frames (inputAnalysis (metadata r)) <= 100)%Z
          /\ density (inputAnalysis (metadata r)) <> 0%Z).
Proof.
  split; [reflexivity|].
  intros p. cbn [analyzeGIF].
  match goal with
  | |- context [optimizeAdaptive (Returns ?a) _] => set (analysis := a)
  end.
  destruct (optimizeAdaptive (Returns analysis) options) as [r| |] eqn:Hr;
    try discriminate.
  exists r. split; [reflexivity|].
  rewrite (adaptive_inputAnalysis analysis options r Hr).
  unfold analysis. cbn [fileSize frames density].
  split; [reflexivity|]. split; [lia|].
  destruct (p_density p) as [d|]; [|discriminate].
  destruct (Z.eqb_spec d 0); [discriminate|assumption].
Qed.

End Optimizer.

(** ** Converter statistics (converter.js) *)

Module Converter.

(** [this.stats] of a [GifToWebPConverter]. *)
Record Stats : Type := {
  processed : Z;
  failed : Z;
  totalSizeBefore : Z;
  totalSizeAfter : Z
}.

(** The statistics set by the constructor and by [resetStats()]. *)
Definition resetStats : Stats :=
  {| processed := 0; failed := 0; totalSizeBefore := 0; totalSizeAfter := 0 |}.

(** [updateStats(inputSize, outputSize, success)]. *)
Definition updateStats (stats : Stats) (inputSize outputSize : Z)
    (success : bool) : Stats :=
  if success then
    {| processed := processed stats + 1;
       failed := failed stats;
       totalSizeBefore := totalSizeBefore stats + inputSize;
       totalSizeAfter := totalSizeAfter stats + outputSize |}
  else
    {| processed := processed stats;
       failed := failed stats + 1;
       totalSizeBefore := totalSizeBefore stats;
       totalSizeAfter := totalSizeAfter stats |}.

(** What [getStats()] returns: the statistics and two derived numbers. *)
Record StatsReport : Type := {
  r_stats : Stats;
  totalCompressionRatio : Q;
  totalSaved : Z
}.

Definition getStats (stats : Stats) : StatsReport :=
  {| r_stats := stats;
     totalCompressionRatio :=
       if (totalSizeBefore stats >? 0)%Z then
         (inject_Z (totalSizeBefore stats - totalSizeAfter stats)
          / inject_Z (totalSizeBefore stats)) * 100
       else 0;
     totalSaved := (totalSizeBefore stats - totalSizeAfter stats)%Z |}.

(** The result object of [convertFile]: the one of the [try] block and the
    one of the [catch] block. *)
Inductive ConversionResult : Type :=
| Success (inputPath outputPath : string) (inputSize outputSize : Z)
    (compressionRatio : jsnum) (processingTime savedBytes : Z)
| Failure (inputPath error : string).

Definition success (r : ConversionResult) : bool :=
  match r with Success _ _ _ _ _ _ _ => true | Failure _ _ => false end.

(** What validation, the codec and the file system did to one conversion:
    everything went through, with the sizes of the two files and the time
    taken, or one of the awaited calls threw. *)
Inductive Conversion : Type :=
| Converted (inputSize outputSize processingTime : Z)
| Threw (message : string).

(** [convertFile(inputPath, outputPath)]: the statistics after the call and
    the value the returned promise is fulfilled with.  The promise is never
    rejected: the [catch] block turns every error into a result. *)
Definition convertFile (stats : Stats) (inputPath outputPath : string)
    (io : Conversion) : Stats * ConversionResult :=
  match io with
  | Converted inputSize outputSize processingTime =>
      let compressionRatio :=
        jmul (jdiv (ofZ (inputSize - outputSize)) (ofZ inputSize)) (Num 100) in
      (updateStats stats inputSize outputSize true,
       Success inputPath outputPath inputSize outputSize compressionRatio
         processingTime (inputSize - outputSize))
  | Threw message =>
      (updateStats stats 0 0 false, Failure inputPath message)
  end.

(** *** Validation of the input file *)

Section Validation.

(** [path.extname], [String.prototype.toLowerCase] and [formatBytes], which
    only build strings. *)
Variable path_extname : string -> string.
Variable toLowerCase : string -> string.
Variable formatBytes : Z -> string.

(** [validateInputFile(inputPath)]: the message of the error it throws, or
    [None] when it returns.  [pathExists] and [size] are what
    [fs.pathExists] and [fs.stat] report. *)
Definition validateInputFile (inputPath : string) (pathExists : bool)
    (size : Z) : option string :=
  if negb pathExists then
    Some ("파일을 찾을 수 없습니다: " +:+ inputPath)
  else
    let ext := toLowerCase (path_extname inputPath) in
    if negb (String.eqb ext ".gif") then
      Some ("GIF 파일이 아닙니다: " +:+ ext)
    else
      let maxSize := (100 * 1024 * 1024)%Z in
      if (size >? maxSize)%Z then
        Some ("파일이 너무 큽니다: " +:+ formatBytes size +:+ " (최대 "
              +:+ formatBytes maxSize +:+ ")")
      else None.

(** The [try] block of [convertFile]: the validation comes first, and its
    error is the one of the block; [encoding] is what the codec and the
    file system do after it. *)
Definition attempt (validation : option string) (encoding : Conversion)
    : Conversion :=
  match validation with
  | Some message => Threw message
  | None => encoding
  end.

(** X26: [validateInputFile] accepts exactly the existing files whose
    extension is ".gif" in any case and whose size is at most 100 MiB, and
    a missing file is reported as such whatever its name.  A file it
    refuses never reaches the encoder: [convertFile] returns a failed
    result that carries the message of the validation, and of the
    statistics only [failed] changes, by one. *)
Theorem invalid_input_is_a_failed_result (inputPath : string)
    (pathExists : bool) (size : Z) :
  let validation := validateInputFile inputPath pathExists size in
  (validation = None
   <-> pathExists = true
       /\ toLowerCase (path_extname inputPath) = ".gif"
       /\ (size <= 104857600)%Z)
  /\ (pathExists = false ->
      validation = Some ("파일을 찾을 수 없습니다: " +:+ inputPath))
  /\ (forall message stats outputPath encoding,
        validation = Some message ->
        convertFile stats inputPath outputPath (attempt validation encoding)
        = ({| processed := processed stats;
              failed := failed stats + 1;
              totalSizeBefore := totalSizeBefore stats;
              totalSizeAfter := totalSizeAfter stats |},
           Failure inputPath message)).
Proof.
  intros validation. unfold validation, validateInputFile. split; [|split].
  - destruct pathExists; cbn [negb]; [|split; [discriminate|intros [? _]; discriminate]].
    destruct (String.eqb_spec (toLowerCase (path_extname inputPath)) ".gif")
      as [Hext|Hext]; cbn [negb].
    + destruct (Z.gtb_spec size (100 * 1024 * 1024)) as [Hsize|Hsize].
      * split; [discriminate|]. intros (_ & _ & H). lia.
      * split; [|reflexivity]. intros _. repeat split; [exact Hext|lia].
    + split; [discriminate|]. intros (_ & H & _). contradiction.
  - intros ->. reflexivity.
  - intros message stats outputPath encoding ->. reflexivity.
Qed.

End Validation.

End Converter.

(** ** The mapping loop of p-map

    [pMap] is imported from the package p-map (version 7), which is not
    among the sources of the repository.  This module follows the loop of
    the package: its function [next], the counters [resolvingCount] and
    [currentIndex], the flags [isResolved], [isRejected] and
    [isIterableDone], and the messages of the errors it rejects with. *)

Module PMap.

(** How the promise of a mapper call, or the one of [pMap], is settled. *)
Inductive settled (B : Type) : Type :=
| Fulfilled (value : B)
| Rejected (reason : string).
Arguments Fulfilled {B} value.
Arguments Rejected {B} reason.

Section Loop.

Context {B : Type}.

(** The local variables of one [pMap] call.  [pending] holds the indexes
    whose mapper promise is not settled yet, [settlement] what the promise
    returned by [pMap] was settled with. *)
Record state : Type := {
  result : gmap nat B;
  errors : list string;
  isRejected : bool;
  isResolved : bool;
  isIterableDone : bool;
  resolvingCount : nat;
  currentIndex : nat;
  pending : gset nat;
  settlement : option (settled (gmap nat B))
}.

Definition initial : state :=
  {| result := ∅; errors := []; isRejected := false; isResolved := false;
     isIterableDone := false; resolvingCount := 0; currentIndex := 0;
     pending := ∅; settlement := None |}.

(** A promise keeps its first settlement. *)
Definition settleOnce (now : settled (gmap nat B))
    (before : option (settled (gmap nat B))) : option (settled (gmap nat B)) :=
  match before with
  | Some _ => before
  | None => Some now
  end.

(** [reject(reason)]. *)
Definition reject (reason : string) (s : state) : state :=
  {| result := result s; errors := errors s;
     isRejected := true; isResolved := true;
     isIterableDone := isIterableDone s;
     resolvingCount := resolvingCount s; currentIndex := currentIndex s;
     pending := pending s;
     settlement := settleOnce (Rejected reason) (settlement s) |}.

Variable total : nat.
Variable stopOnError : bool.

(** [next()]: takes the next element of the iterable, if the run goes on;
    at the end of the iterable with nothing left resolving, settles the
    promise; otherwise starts the mapper on the element.  Without
    [stopOnError] the collected errors reject the promise with
    [new AggregateError(errors)], an error whose message is empty. *)
Definition next (s : state) : state :=
  if isResolved s then s
  else
    let index := currentIndex s in
    if (total <=? index)%nat then
      if (resolvingCount s =? 0)%nat then
        if negb stopOnError && (0 <? length (errors s))%nat then
          reject ""
            {| result := result s; errors := errors s;
               isRejected := isRejected s; isResolved := isResolved s;
               isIterableDone := true;
               resolvingCount := resolvingCount s; currentIndex := S index;
               pending := pending s; settlement := settlement s |}
        else
          {| result := result s; errors := errors s;
             isRejected := isRejected s; isResolved := true;
             isIterableDone := true;
             resolvingCount := resolvingCount s; currentIndex := S index;
             pending := pending s;
             settlement := settleOnce (Fulfilled (result s)) (settlement s) |}
      else
        {| result := result s; errors := errors s;
           isRejected := isRejected s; isResolved := isResolved s;
           isIterableDone := true;
           resolvingCount := resolvingCount s; currentIndex := S index;
           pending := pending s; settlement := settlement s |}
    else
      {| result := result s; errors := errors s;
         isRejected := isRejected s; isResolved := isResolved s;
         isIterableDone := isIterableDone s;
         resolvingCount := S (resolvingCount s); currentIndex := S index;
         pending := {[index]} ∪ pending s; settlement := settlement s |}.

(** The loop [for (let index = 0; index < concurrency; index++)] that
    starts the first mappers. *)
Fixpoint spawn (concurrency : nat) (s : state) : state :=
  match concurrency with
  | O => s
  | S concurrency' =>
      let s' := next s in
      if isIterableDone s' || isRejected s' then s'
      else spawn concurrency' s'
  end.

(** [pMap(iterable, mapper, {concurrency, stopOnError})] up to the point
    where it waits for the first mapper: a [TypeError] unless
    [concurrency >= 1], that is, for the concurrency 0, which the message
    names. *)
Definition pMap (concurrency : nat) : state :=
  if (concurrency <? 1)%nat then
    reject "Expected `concurrency` to be an integer from 1 and up or `Infinity`, got `0` (number)"
      initial
  else spawn concurrency initial.

(** What follows the mapper call of [index] once its promise is settled:
    a value is stored and the next element is taken; a rejection ends the
    run when [stopOnError] is set, and is collected otherwise. *)
Definition settle (index : nat) (outcome : settled B) (s : state) : state :=
  if decide (index ∈ pending s) then
    match outcome with
    | Fulfilled value =>
        next {| result := <[index := value]> (result s); errors := errors s;
                isRejected := isRejected s; isResolved := isResolved s;
                isIterableDone := isIterableDone s;
                resolvingCount := pred (resolvingCount s);
                currentIndex := currentIndex s;
                pending := pending s ∖ {[index]};
                settlement := settlement s |}
    | Rejected reason =>
        if stopOnError then
          reject reason
            {| result := result s; errors := errors s;
               isRejected := isRejected s; isResolved := isResolved s;
               isIterableDone := isIterableDone s;
               resolvingCount := resolvingCount s;
               currentIndex := currentIndex s;
               pending := pending s ∖ {[index]};
               settlement := settlement s |}
        else
          next {| result := result s; errors := errors s ++ [reason];
                  isRejected := isRejected s; isResolved := isResolved s;
                  isIterableDone := isIterableDone s;
                  resolvingCount := pred (resolvingCount s);
                  currentIndex := currentIndex s;
                  pending := pending s ∖ {[index]};
                  settlement := settlement s |}
    end
  else s.

End Loop.

Arguments state B : clear implicits.

(** *** Invariants of the loop *)

Lemma size_remove (X : gset nat) (i : nat) :
  i ∈ X -> S (size (X ∖ {[i]})) = size X.
Proof.
  intros Hi.
  assert (H : X = {[i]} ∪ X ∖ {[i]})
    by (apply union_difference_singleton_L; exact Hi).
  assert (Hd : ({[i]} : gset nat) ## X ∖ {[i]}) by set_solver.
  rewrite H at 2.
  rewrite (size_union ({[i]} : gset nat) (X ∖ {[i]}) Hd), size_singleton.
  reflexivity.
Qed.

Lemma size_add (X : gset nat) (i : nat) :
  i ∉ X -> size ({[i]} ∪ X) = S (size X).
Proof.
  intros Hi.
  assert (Hd : ({[i]} : gset nat) ## X) by set_solver.
  rewrite (size_union ({[i]} : gset nat) X Hd), size_singleton.
  reflexivity.
Qed.

(** Reads the fields of a state that is written out. *)
Ltac state_simpl :=
  cbn [result errors isRejected isResolved isIterableDone resolvingCount
       currentIndex pending settlement reject initial].

Section Invariant.

Context {B : Type}.
Variable total : nat.
Variable stopOnError : bool.
Variable concurrency : nat.

(** What holds of the variables of the loop between two jobs, with [free]
    slots of the pool still to be filled. *)
Record inv (free : nat) (s : state B) : Prop := {
  inv_pending : forall i, i ∈ pending s -> (i < currentIndex s /\ i < total)%nat;
  inv_result : forall i, is_Some (result s !! i) ->
    (i < currentIndex s /\ i < total)%nat /\ i ∉ pending s;
  inv_bound : (size (pending s) + free <= concurrency)%nat;
  inv_full : isResolved s = false -> (currentIndex s < total)%nat ->
    (size (pending s) + free = concurrency)%nat;
  inv_count : isRejected s = false -> resolvingCount s = size (pending s);
  inv_tally : isRejected s = false ->
    (size (result s) + length (errors s) + size (pending s)
     = Nat.min (currentIndex s) total)%nat;
  inv_done : isIterableDone s = true -> (total < currentIndex s)%nat;
  inv_rejected : isRejected s = true -> isResolved s = true;
  inv_idle : isResolved s = true -> isRejected s = false -> pending s = ∅;
  inv_started : isRejected s = false -> errors s = [] ->
    forall i, (i < currentIndex s)%nat -> (i < total)%nat ->
      i ∈ pending s \/ is_Some (result s !! i);
  inv_fulfilled : forall m, settlement s = Some (Fulfilled m) ->
    isResolved s = true /\ isRejected s = false /\ errors s = []
    /\ m = result s /\ (total < currentIndex s)%nat;
  inv_errors : stopOnError = true -> errors s = []
}.

Lemma inv_initial : inv concurrency initial.
Proof.
  split; state_simpl; intros; rewrite ?size_empty, ?map_size_empty;
    try congruence; try lia; try set_solver.
  rewrite lookup_empty in H. destruct H; discriminate.
Qed.

Lemma inv_weaken (k free : nat) (s : state B) :
  inv (k + free) s ->
  isIterableDone s = true \/ isResolved s = true ->
  inv free s.
Proof.
  intros [] Hend. split; auto.
  - lia.
  - intros Hres Hlt. destruct Hend as [Hd|Hr]; [|congruence].
    specialize (inv_done0 Hd). lia.
Qed.

Lemma settleOnce_fulfilled (now : settled (gmap nat B))
    (before : option (settled (gmap nat B))) (m : gmap nat B) :
  settleOnce now before = Some (Fulfilled m) ->
  before = Some (Fulfilled m) \/ (before = None /\ now = Fulfilled m).
Proof.
  destruct before; cbn; intros H; [left; exact H|right].
  split; congruence.
Qed.

Lemma inv_reject (free : nat) (reason : string) (s : state B) :
  inv free s -> isResolved s = false \/ isRejected s = true ->
  inv free (reject reason s).
Proof.
  intros [] Hs. split; state_simpl; auto; try congruence.
  intros m Hm. apply settleOnce_fulfilled in Hm as [Hm|[_ Hm]]; [|discriminate].
  apply inv_fulfilled0 in Hm. destruct Hs; intuition congruence.
Qed.

(** The fields that only look at parts of the state that a step leaves
    alone, or that grow with [currentIndex]. *)
Ltac inv_same :=
  match goal with
  | H : forall i, i ∈ pending _ -> _ |- forall i, i ∈ _ -> _ =>
      let i := fresh "i" in let Hi := fresh "Hi" in
      intros i Hi; specialize (H i Hi); lia
  | H : forall i, is_Some (result _ !! i) -> _ |- forall i, is_Some _ -> _ =>
      let i := fresh "i" in let Hi := fresh "Hi" in
      intros i Hi; destruct (H i Hi) as [[? ?] ?];
      split; [split; lia|assumption]
  | |- _ => solve [auto]
  | |- _ => solve [intros; congruence]
  | |- _ => solve [intros; lia]
  end.

Lemma next_inv (free : nat) (s : state B) :
  inv (S free) s -> inv free (next total stopOnError s).
Proof.
  intros Hs. unfold next.
  destruct (isResolved s) eqn:Hres.
  { apply (inv_weaken 1); [exact Hs|right; exact Hres]. }
  assert (Hrej : isRejected s = false).
  { destruct (isRejected s) eqn:E; [|reflexivity].
    apply (inv_rejected _ _ Hs) in E. congruence. }
  assert (Hnot : forall m, settlement s <> Some (Fulfilled m)).
  { intros m Hm. apply (inv_fulfilled _ _ Hs) in Hm. intuition congruence. }
  destruct (total <=? currentIndex s)%nat eqn:Hend.
  - apply Nat.leb_le in Hend.
    assert (Htally := inv_tally _ _ Hs Hrej).
    assert (Hstarted : forall i, (i < S (currentIndex s))%nat -> (i < total)%nat ->
                                 (i < currentIndex s)%nat) by (intros; lia).
    destruct (resolvingCount s =? 0)%nat eqn:Hcount.
    + apply Nat.eqb_eq in Hcount.
      assert (Hempty : pending s = ∅).
      { apply leibniz_equiv, size_empty_inv.
        rewrite <- (inv_count _ _ Hs Hrej). exact Hcount. }
      destruct (negb stopOnError && (0 <? length (errors s))%nat) eqn:Herr.
      * apply inv_reject; [|left; reflexivity].
        destruct Hs. split; state_simpl.
        -- inv_same.
        -- inv_same.
        -- lia.
        -- intros _ ?. lia.
        -- inv_same.
        -- intros _. lia.
        -- intros _. lia.
        -- inv_same.
        -- intros ?. congruence.
        -- intros H1 H2 i Hi Ht. apply inv_started0; auto.
        -- intros m Hm. exfalso. exact (Hnot m Hm).
        -- inv_same.
      * destruct Hs. split; state_simpl.
        -- inv_same.
        -- inv_same.
        -- lia.
        -- intros ?. congruence.
        -- inv_same.
        -- intros _. lia.
        -- intros _. lia.
        -- inv_same.
        -- intros _ _. exact Hempty.
        -- intros H1 H2 i Hi Ht. apply inv_started0; auto.
        -- intros m Hm.
           apply settleOnce_fulfilled in Hm as [Hm|[_ Hm]].
           ++ exfalso. exact (Hnot m Hm).
           ++ injection Hm as <-. repeat split; auto; [|lia].
              apply andb_false_iff in Herr as [Herr|Herr].
              ** apply negb_false_iff in Herr. auto.
              ** apply Nat.ltb_ge in Herr.
                 destruct (errors s); [reflexivity|cbn in Herr; lia].
        -- inv_same.
    + destruct Hs. split; state_simpl.
      * inv_same.
      * inv_same.
      * lia.
      * intros _ ?. lia.
      * inv_same.
      * intros _. lia.
      * intros _. lia.
      * inv_same.
      * intros ?. congruence.
      * intros H1 H2 i Hi Ht. apply inv_started0; auto.
      * intros m Hm. exfalso. exact (Hnot m Hm).
      * inv_same.
  - apply Nat.leb_gt in Hend.
    assert (Hfresh : currentIndex s ∉ pending s).
    { intros Hin. apply (inv_pending _ _ Hs) in Hin. lia. }
    assert (Hsize := size_add (pending s) (currentIndex s) Hfresh).
    destruct Hs. split; state_simpl.
    + intros i Hi. apply elem_of_union in Hi as [Hi|Hi].
      * apply elem_of_singleton in Hi. subst i. lia.
      * specialize (inv_pending0 i Hi). lia.
    + intros i Hi. destruct (inv_result0 i Hi) as [[H1 H2] H3].
      split; [lia|]. intros Hin. apply elem_of_union in Hin as [Hin|Hin].
      * apply elem_of_singleton in Hin. lia.
      * contradiction.
    + lia.
    + intros _ _. specialize (inv_full0 Hres Hend). lia.
    + intros H. rewrite (inv_count0 H). lia.
    + intros H. specialize (inv_tally0 H). lia.
    + intros H. specialize (inv_done0 H). lia.
    + inv_same.
    + intros ?. congruence.
    + intros H1 H2 i Hi Ht.
      destruct (decide (i = currentIndex s)) as [->|Hne].
      * left. set_solver.
      * destruct (inv_started0 H1 H2 i) as [Hin|Hin]; [lia|lia| |].
        -- left. set_solver.
        -- right. exact Hin.
    + intros m Hm. exfalso. exact (Hnot m Hm).
    + inv_same.
Qed.

Lemma spawn_inv (k free : nat) (s : state B) :
  inv (k + free) s -> inv free (spawn total stopOnError k s).
Proof.
  revert s. induction k as [|k IH]; intros s Hs; cbn [spawn].
  - exact Hs.
  - assert (Hn : inv (k + free) (next total stopOnError s))
      by (apply next_inv; exact Hs).
    destruct (isIterableDone (next total stopOnError s)
              || isRejected (next total stopOnError s)) eqn:E.
    + apply (inv_weaken k); [exact Hn|].
      apply orb_true_iff in E as [E|E]; [left; exact E|right].
      apply (inv_rejected _ _ Hn E).
    + apply IH. exact Hn.
Qed.

(** The invariant holds when [pMap] first waits. *)
Lemma pMap_inv : inv 0 (pMap total stopOnError concurrency).
Proof.
  unfold pMap. destruct (concurrency <? 1)%nat eqn:E.
  - apply inv_reject; [|left; reflexivity].
    apply Nat.ltb_lt in E. assert (concurrency = 0)%nat as Hc by lia.
    pose proof inv_initial as H. rewrite Hc in H. exact H.
  - apply spawn_inv. rewrite Nat.add_0_r. apply inv_initial.
Qed.

(** A pending mapper call means that the promise is not fulfilled. *)
Lemma pending_not_fulfilled (s : state B) (i : nat) :
  inv 0 s -> i ∈ pending s ->
  (isResolved s = true -> isRejected s = true)
  /\ (forall m, settlement s <> Some (Fulfilled m)).
Proof.
  intros Hs Hi. split.
  - intros Hres. destruct (isRejected s) eqn:E; [reflexivity|].
    rewrite (inv_idle _ _ Hs Hres E) in Hi. set_solver.
  - intros m Hm. apply (inv_fulfilled _ _ Hs) in Hm as (H1 & H2 & _).
    rewrite (inv_idle _ _ Hs H1 H2) in Hi. set_solver.
Qed.

(** The invariant is kept when a mapper call settles. *)
Lemma settle_inv (index : nat) (outcome : settled B) (s : state B) :
  inv 0 s -> inv 0 (settle total stopOnError index outcome s).
Proof.
  intros Hs. unfold settle.
  destruct (decide (index ∈ pending s)) as [Hin|]; [|exact Hs].
  destruct (pending_not_fulfilled s index Hs Hin) as [Hlive Hnot].
  assert (Hsize := size_remove (pending s) index Hin).
  assert (Hnone : result s !! index = None).
  { destruct (result s !! index) eqn:E; [|reflexivity].
    destruct (inv_result _ _ Hs index) as [_ Hn]; [eauto|contradiction]. }
  assert (Hsub : forall i, i ∈ pending s ∖ {[index]} -> i ∈ pending s)
    by set_solver.
  assert (Hcase : stopOnError = true \/ stopOnError = false)
    by (destruct stopOnError; auto).
  destruct outcome as [value|reason]; [|destruct Hcase as [Hstop|Hstop]].
  - apply next_inv. destruct Hs. split; state_simpl.
    + intros i Hi. apply inv_pending0, Hsub, Hi.
    + intros i Hi. destruct (decide (i = index)) as [->|Hne].
      * split; [apply inv_pending0; exact Hin|set_solver].
      * rewrite lookup_insert_ne in Hi by congruence.
        destruct (inv_result0 i Hi) as [H1 H2]. split; [exact H1|set_solver].
    + lia.
    + intros H1 H2. specialize (inv_full0 H1 H2). lia.
    + intros H. rewrite (inv_count0 H). lia.
    + intros H. specialize (inv_tally0 H).
      rewrite map_size_insert_None by exact Hnone. lia.
    + exact inv_done0.
    + exact inv_rejected0.
    + intros H1 H2. specialize (Hlive H1). congruence.
    + intros H1 H2 i Hi Ht.
      destruct (decide (i = index)) as [->|Hne].
      * right. rewrite lookup_insert_eq. eauto.
      * rewrite lookup_insert_ne by congruence.
        destruct (inv_started0 H1 H2 i Hi Ht) as [H|H]; [left|right; exact H].
        set_solver.
    + intros m Hm. exfalso. exact (Hnot m Hm).
    + exact inv_errors0.
  - rewrite Hstop. destruct Hs. split; state_simpl.
    + intros i Hi. apply inv_pending0, Hsub, Hi.
    + intros i Hi. destruct (inv_result0 i Hi) as [H1 H2].
      split; [exact H1|set_solver].
    + lia.
    + intros ?. congruence.
    + intros ?. congruence.
    + intros ?. congruence.
    + exact inv_done0.
    + reflexivity.
    + intros ? ?. congruence.
    + intros ?. congruence.
    + intros m Hm.
      apply settleOnce_fulfilled in Hm as [Hm|[_ Hm]]; [|discriminate].
      exfalso. exact (Hnot m Hm).
    + intros _. apply inv_errors0. exact Hstop.
  - rewrite Hstop at 1. apply next_inv. destruct Hs. split; state_simpl.
    + intros i Hi. apply inv_pending0, Hsub, Hi.
    + intros i Hi. destruct (inv_result0 i Hi) as [H1 H2].
      split; [exact H1|set_solver].
    + lia.
    + intros H1 H2. specialize (inv_full0 H1 H2). lia.
    + intros H. rewrite (inv_count0 H). lia.
    + intros H. specialize (inv_tally0 H). rewrite length_app. cbn. lia.
    + exact inv_done0.
    + exact inv_rejected0.
    + intros H1 H2. specialize (Hlive H1). congruence.
    + intros _ H. destruct (errors s); discriminate.
    + intros m Hm. exfalso. exact (Hnot m Hm).
    + intros H. congruence.
Qed.

(** [next] leaves the values and the errors alone, and never takes a
    rejection back. *)
Lemma next_result (s : state B) :
  result (next total stopOnError s) = result s
  /\ errors (next total stopOnError s) = errors s
  /\ (isRejected s = true -> isRejected (next total stopOnError s) = true).
Proof.
  unfold next. destruct (isResolved s); [auto|].
  destruct (total <=? currentIndex s)%nat; [|auto].
  destruct (resolvingCount s =? 0)%nat; [|auto].
  destruct (negb stopOnError && (0 <? length (errors s))%nat); auto.
Qed.

Lemma spawn_result (k : nat) (s : state B) :
  result (spawn total stopOnError k s) = result s.
Proof.
  revert s. induction k as [|k IH]; intros s; cbn [spawn]; [reflexivity|].
  destruct (next_result s) as (Hr & _ & _).
  destruct (_ || _); [exact Hr|]. rewrite IH. exact Hr.
Qed.

Lemma pMap_result :
  result (pMap (B := B) total stopOnError concurrency) = ∅.
Proof.
  unfold pMap. destruct (concurrency <? 1)%nat; [reflexivity|].
  apply spawn_result.
Qed.

(** A value that settles a pending call is stored under its index. *)
Lemma settle_fulfilled (index : nat) (value : B) (s : state B) :
  index ∈ pending s ->
  let s' := settle total stopOnError index (Fulfilled value) s in
  result s' = <[index := value]> (result s)
  /\ errors s' = errors s
  /\ (isRejected s = true -> isRejected s' = true).
Proof.
  intros Hin. unfold settle.
  destruct (decide (index ∈ pending s)); [|contradiction].
  cbn zeta.
  match goal with |- context [next _ _ ?x] =>
    destruct (next_result x) as (-> & -> & H) end.
  auto.
Qed.

(** A rejection that settles a pending call is never forgotten. *)
Lemma settle_rejected (index : nat) (reason : string) (s : state B) :
  index ∈ pending s ->
  let s' := settle total stopOnError index (Rejected reason) s in
  isRejected s' = true \/ errors s' <> [].
Proof.
  intros Hin. unfold settle.
  destruct (decide (index ∈ pending s)); [|contradiction].
  cbn zeta.
  assert (Hcase : stopOnError = true \/ stopOnError = false)
    by (destruct stopOnError; auto).
  destruct Hcase as [Hstop|Hstop].
  - left. rewrite Hstop. reflexivity.
  - right. rewrite Hstop at 1.
    match goal with |- context [next _ _ ?x] =>
      destruct (next_result x) as (_ & -> & _) end.
    state_simpl. destruct (errors s); discriminate.
Qed.

(** A settled call is no longer pending, and only [next] adds one. *)
Lemma settle_pending (index : nat) (outcome : settled B) (s : state B) :
  index ∈ pending s ->
  (currentIndex s <= index)%nat \/
  index ∉ pending (settle total stopOnError index outcome s).
Proof.
  intros Hin.
  destruct (decide (currentIndex s <= index)%nat) as [|Hlt]; [left; assumption|].
  right. unfold settle.
  destruct (decide (index ∈ pending s)); [|contradiction].
  assert (Hnext : forall x : state B,
             pending x = pending s ∖ {[index]} -> currentIndex x = currentIndex s ->
             index ∉ pending (next total stopOnError x)).
  { intros x Hp Hc. unfold next.
    repeat match goal with
           | |- context [if ?b then _ else _] => destruct b
           end; state_simpl; rewrite ?Hp, ?Hc; set_solver by lia. }
  destruct outcome; [apply Hnext; reflexivity|].
  destruct stopOnError; [state_simpl; set_solver|apply Hnext; reflexivity].
Qed.

(** Once the promise is settled, a mapper call that ends starts no other:
    this is how a rejection stops the run when [stopOnError] is set. *)
Lemma settle_after_end (index : nat) (outcome : settled B) (s : state B) :
  isResolved s = true ->
  let s' := settle total stopOnError index outcome s in
  currentIndex s' = currentIndex s
  /\ pending s' ⊆ pending s
  /\ isResolved s' = true.
Proof.
  intros Hres. unfold settle.
  destruct (decide (index ∈ pending s)); [|cbn zeta; auto].
  assert (Hnext : forall x : state B,
             isResolved x = true -> next total stopOnError x = x).
  { intros x Hx. unfold next. rewrite Hx. reflexivity. }
  cbn zeta. destruct outcome; [|destruct stopOnError];
    rewrite ?Hnext by exact Hres; state_simpl;
    (split; [reflexivity|split; [set_solver|auto]]).
Qed.

End Invariant.

(** *** Settlement, progress and accounting of the loop *)

Section Progress.

Context {B : Type}.
Variable total : nat.
Variable stopOnError : bool.

(** The promise of [pMap] is settled exactly when [isResolved] is set. *)
Definition settledIff (s : state B) : Prop :=
  isResolved s = true <-> is_Some (settlement s).

(** An unsettled run has a mapper call under way. *)
Definition busy (s : state B) : Prop :=
  isResolved s = false -> pending s ≠ ∅.

(** [resolvingCount] counts the pending calls of a run that goes on. *)
Definition counted (s : state B) : Prop :=
  (isRejected s = false -> resolvingCount s = size (pending s))
  /\ (isRejected s = true -> isResolved s = true).

(** The number of mapper calls started so far. *)
Definition startedCalls (s : state B) : nat := Nat.min (currentIndex s) total.

Lemma settleOnce_is_Some (now : settled (gmap nat B))
    (before : option (settled (gmap nat B))) :
  is_Some (settleOnce now before).
Proof. destruct before; cbn; eauto. Qed.

Lemma settleOnce_kept (now x : settled (gmap nat B)) :
  settleOnce now (Some x) = Some x.
Proof. reflexivity. Qed.

Lemma reject_settledIff (reason : string) (s : state B) :
  settledIff (reject reason s).
Proof.
  unfold settledIff. state_simpl. split; [intros _|reflexivity].
  apply settleOnce_is_Some.
Qed.

Lemma next_settledIff (s : state B) :
  settledIff s -> settledIff (next total stopOnError s).
Proof.
  intros H. unfold next. destruct (isResolved s) eqn:Hres; [exact H|].
  assert (Hnone : ~ is_Some (settlement s)).
  { intros Hs. apply H in Hs. congruence. }
  destruct (total <=? currentIndex s)%nat.
  - destruct (resolvingCount s =? 0)%nat.
    + destruct (negb stopOnError && (0 <? length (errors s))%nat).
      * apply reject_settledIff.
      * unfold settledIff. state_simpl. split; [intros _|reflexivity].
        apply settleOnce_is_Some.
    + unfold settledIff. state_simpl.
      split; [discriminate|]. intros Hs. contradiction.
  - unfold settledIff. state_simpl.
    split; [discriminate|]. intros Hs. contradiction.
Qed.

Lemma spawn_settledIff (k : nat) (s : state B) :
  settledIff s -> settledIff (spawn total stopOnError k s).
Proof.
  revert s. induction k as [|k IH]; intros s H; [exact H|].
  cbn [spawn]. apply next_settledIff in H.
  destruct (isIterableDone _ || isRejected _); [exact H|].
  apply IH. exact H.
Qed.

Lemma pMap_settledIff (concurrency : nat) :
  settledIff (pMap (B := B) total stopOnError concurrency).
Proof.
  unfold pMap. destruct (concurrency <? 1)%nat.
  - apply reject_settledIff.
  - apply spawn_settledIff. unfold settledIff. cbn.
    split; [discriminate|]. intros [x Hx]. discriminate.
Qed.

Lemma settle_settledIff (index : nat) (outcome : settled B) (s : state B) :
  settledIff s -> settledIff (settle total stopOnError index outcome s).
Proof.
  intros H. unfold settle.
  destruct (decide (index ∈ pending s)); [|exact H].
  assert (Hnext := next_settledIff).
  destruct outcome as [value|reason].
  - apply Hnext. exact H.
  - destruct stopOnError.
    + apply reject_settledIff.
    + apply Hnext. exact H.
Qed.

(** A settled promise keeps its settlement. *)
Lemma next_settlement (s : state B) (x : settled (gmap nat B)) :
  settlement s = Some x -> settlement (next total stopOnError s) = Some x.
Proof.
  intros H. unfold next.
  repeat match goal with
         | |- context [if ?b then _ else _] => destruct b
         end; state_simpl; rewrite ?H; try reflexivity; exact H.
Qed.

Lemma settle_settlement (index : nat) (outcome : settled B) (s : state B)
    (x : settled (gmap nat B)) :
  settlement s = Some x ->
  settlement (settle total stopOnError index outcome s) = Some x.
Proof.
  intros H. unfold settle.
  destruct (decide (index ∈ pending s)); [|exact H].
  assert (Hnext := next_settlement).
  destruct outcome as [value|reason].
  - apply Hnext. exact H.
  - destruct stopOnError.
    + state_simpl. rewrite H. reflexivity.
    + apply Hnext. exact H.
Qed.

(** A step of the loop that leaves the run unsettled leaves a call
    pending. *)
Lemma next_busy (s : state B) :
  counted s -> busy s -> busy (next total stopOnError s).
Proof.
  intros [Hcount Hrej] Hbusy. unfold next.
  destruct (isResolved s) eqn:Hres; [exact Hbusy|].
  assert (Hr : isRejected s = false).
  { destruct (isRejected s) eqn:E; [|reflexivity].
    specialize (Hrej eq_refl). congruence. }
  specialize (Hcount Hr).
  destruct (total <=? currentIndex s)%nat.
  - destruct (resolvingCount s =? 0)%nat eqn:Hzero.
    + destruct (negb stopOnError && (0 <? length (errors s))%nat);
        unfold busy; state_simpl; discriminate.
    + apply Nat.eqb_neq in Hzero. unfold busy. state_simpl. intros _ Hempty.
      rewrite Hempty, size_empty in Hcount. contradiction.
  - unfold busy. state_simpl. intros _. set_solver.
Qed.

Lemma next_unsettled_busy (s : state B) :
  counted s -> isResolved s = false -> busy (next total stopOnError s).
Proof.
  intros [Hcount Hrej] Hres. unfold next. rewrite Hres.
  assert (Hr : isRejected s = false).
  { destruct (isRejected s) eqn:E; [|reflexivity].
    specialize (Hrej eq_refl). congruence. }
  specialize (Hcount Hr).
  destruct (total <=? currentIndex s)%nat.
  - destruct (resolvingCount s =? 0)%nat eqn:Hzero.
    + destruct (negb stopOnError && (0 <? length (errors s))%nat);
        unfold busy; state_simpl; discriminate.
    + apply Nat.eqb_neq in Hzero. unfold busy. state_simpl. intros _ Hempty.
      rewrite Hempty, size_empty in Hcount. contradiction.
  - unfold busy. state_simpl. intros _. set_solver.
Qed.

Lemma inv_counted (concurrency free : nat) (s : state B) :
  inv total stopOnError concurrency free s -> counted s.
Proof. intros H. split; [apply (inv_count _ _ _ _ _ H)|apply (inv_rejected _ _ _ _ _ H)]. Qed.

Lemma spawn_busy (concurrency : nat) (k free : nat) (s : state B) :
  inv total stopOnError concurrency (k + free) s ->
  busy s \/ ((1 <= k)%nat /\ isResolved s = false) ->
  busy (spawn total stopOnError k s).
Proof.
  revert s. induction k as [|k IH]; intros s Hinv Hb.
  - cbn [spawn]. destruct Hb as [Hb|[Hk _]]; [exact Hb|lia].
  - cbn [spawn].
    assert (Hnext : busy (next total stopOnError s)).
    { destruct Hb as [Hb|[_ Hres]].
      - apply next_busy; [exact (inv_counted _ _ _ Hinv)|exact Hb].
      - apply next_unsettled_busy; [exact (inv_counted _ _ _ Hinv)|exact Hres]. }
    destruct (isIterableDone _ || isRejected _); [exact Hnext|].
    apply IH; [|left; exact Hnext].
    apply next_inv. exact Hinv.
Qed.

Lemma pMap_busy (concurrency : nat) :
  busy (pMap (B := B) total stopOnError concurrency).
Proof.
  unfold pMap. destruct (concurrency <? 1)%nat eqn:Hc.
  - unfold busy. state_simpl. discriminate.
  - apply Nat.ltb_ge in Hc.
    apply (spawn_busy concurrency concurrency 0).
    + rewrite Nat.add_0_r. apply inv_initial.
    + right. split; [exact Hc|reflexivity].
Qed.

Lemma settle_busy (concurrency : nat) (index : nat) (outcome : settled B)
    (s : state B) :
  inv total stopOnError concurrency 0 s -> busy s ->
  busy (settle total stopOnError index outcome s).
Proof.
  intros Hinv Hbusy. unfold settle.
  destruct (decide (index ∈ pending s)) as [Hin|]; [|exact Hbusy].
  assert (Hc := inv_counted _ _ _ Hinv). destruct Hc as [Hcount Hrej].
  assert (Hstep : forall result' errors',
             busy (next total stopOnError
                     {| result := result'; errors := errors';
                        isRejected := isRejected s;
                        isResolved := isResolved s;
                        isIterableDone := isIterableDone s;
                        resolvingCount := pred (resolvingCount s);
                        currentIndex := currentIndex s;
                        pending := pending s ∖ {[index]};
                        settlement := settlement s |})).
  { intros result' errors'.
    destruct (isResolved s) eqn:Hres.
    - unfold next. state_simpl. unfold busy. state_simpl. discriminate.
    - apply next_unsettled_busy; [|reflexivity].
      split; state_simpl; [|exact Hrej].
      intros Hr. rewrite (Hcount Hr), <- (size_remove _ _ Hin). reflexivity. }
  destruct outcome as [value|reason]; [apply Hstep|].
  destruct stopOnError; [|apply Hstep].
  unfold busy. state_simpl. discriminate.
Qed.

(** Each step starts as many calls as it adds to [pending]. *)
Lemma next_started (s : state B) :
  (forall i, i ∈ pending s -> (i < currentIndex s)%nat) ->
  (size (pending (next total stopOnError s)) + startedCalls s
   = size (pending s) + startedCalls (next total stopOnError s))%nat.
Proof.
  intros Hpending. unfold next, startedCalls.
  destruct (isResolved s); [reflexivity|].
  destruct (total <=? currentIndex s)%nat eqn:Hend.
  - apply Nat.leb_le in Hend.
    destruct (resolvingCount s =? 0)%nat;
      [destruct (negb stopOnError && (0 <? length (errors s))%nat)|];
      state_simpl; lia.
  - apply Nat.leb_gt in Hend. state_simpl.
    rewrite size_add; [lia|].
    intros Hin. apply Hpending in Hin. lia.
Qed.

Lemma settle_started (index : nat) (outcome : settled B) (s : state B) :
  (forall i, i ∈ pending s -> (i < currentIndex s)%nat) ->
  index ∈ pending s ->
  (S (size (pending (settle total stopOnError index outcome s)))
   + startedCalls s
   = size (pending s)
     + startedCalls (settle total stopOnError index outcome s))%nat.
Proof.
  intros Hpending Hin. unfold settle.
  destruct (decide (index ∈ pending s)); [|contradiction].
  assert (Hsize := size_remove (pending s) index Hin).
  assert (Hstep : forall t : state B,
             pending t = pending s ∖ {[index]} ->
             currentIndex t = currentIndex s ->
             (S (size (pending (next total stopOnError t))) + startedCalls s
              = size (pending s) + startedCalls (next total stopOnError t))%nat).
  { intros t Hp Hc.
    assert (Ht := next_started t). rewrite Hp, Hc in Ht.
    assert (Hs : startedCalls t = startedCalls s)
      by (unfold startedCalls; rewrite Hc; reflexivity).
    rewrite Hs in Ht.
    assert (Hlt : forall i, i ∈ pending s ∖ {[index]} -> (i < currentIndex s)%nat).
    { intros i Hi. apply Hpending. set_solver. }
    specialize (Ht Hlt). lia. }
  destruct outcome as [value|reason].
  - apply Hstep; reflexivity.
  - destruct stopOnError.
    + unfold startedCalls. state_simpl. lia.
    + apply Hstep; reflexivity.
Qed.

Lemma spawn_started (concurrency k free : nat) (s : state B) :
  inv total stopOnError concurrency (k + free) s ->
  (size (pending (spawn total stopOnError k s)) + startedCalls s
   = size (pending s) + startedCalls (spawn total stopOnError k s))%nat.
Proof.
  revert s. induction k as [|k IH]; intros s Hinv; [reflexivity|].
  cbn [spawn].
  assert (Hnext : (size (pending (next total stopOnError s)) + startedCalls s
                   = size (pending s)
                     + startedCalls (next total stopOnError s))%nat).
  { apply next_started. intros i Hi.
    apply (inv_pending _ _ _ _ _ Hinv). exact Hi. }
  destruct (isIterableDone _ || isRejected _); [exact Hnext|].
  assert (Hrest := IH (next total stopOnError s) (next_inv _ _ _ _ _ Hinv)).
  lia.
Qed.

Lemma pMap_started (concurrency : nat) :
  size (pending (pMap (B := B) total stopOnError concurrency))
  = startedCalls (pMap (B := B) total stopOnError concurrency).
Proof.
  unfold pMap. destruct (concurrency <? 1)%nat; [reflexivity|].
  assert (H := spawn_started concurrency concurrency 0 initial).
  rewrite Nat.add_0_r in H. specialize (H (inv_initial _ _ _)).
  unfold startedCalls in *. cbn [initial pending currentIndex] in H.
  rewrite size_empty in H. cbn [Nat.min] in H. lia.
Qed.

(** A rejection leaves the values alone. *)
Lemma settle_rejected_result (index : nat) (reason : string) (s : state B) :
  result (settle total stopOnError index (Rejected reason) s) = result s.
Proof.
  unfold settle. destruct (decide (index ∈ pending s)); [|reflexivity].
  assert (Hnext := @next_result B total stopOnError).
  destruct stopOnError; [reflexivity|].
  match goal with
  | |- result (next _ _ ?t) = _ => destruct (Hnext t) as (-> & _)
  end.
  reflexivity.
Qed.

(** A run in which a call was rejected stays so. *)
Definition tainted (s : state B) : Prop :=
  isRejected s = true \/ errors s <> [].

Lemma next_tainted (s : state B) :
  tainted s -> tainted (next total stopOnError s).
Proof.
  intros [H|H]; destruct (next_result total stopOnError s) as (_ & He & Hr).
  - left. apply Hr. exact H.
  - right. rewrite He. exact H.
Qed.

Lemma settle_tainted (index : nat) (outcome : settled B) (s : state B) :
  tainted s -> tainted (settle total stopOnError index outcome s).
Proof.
  intros H. unfold settle.
  destruct (decide (index ∈ pending s)); [|exact H].
  assert (Hnext := next_tainted).
  destruct outcome as [value|reason].
  - apply Hnext. exact H.
  - destruct stopOnError.
    + left. reflexivity.
    + apply Hnext. right. state_simpl.
      intros Hnil. apply app_eq_nil in Hnil. destruct Hnil; discriminate.
Qed.

(** A run without any rejected call. *)
Definition clean (s : state B) : Prop :=
  isRejected s = false /\ errors s = [].

Lemma next_clean (s : state B) :
  clean s -> clean (next total stopOnError s).
Proof.
  intros [Hrej Herr]. unfold next, clean.
  destruct (isResolved s); [split; assumption|].
  destruct (total <=? currentIndex s)%nat; [|split; assumption].
  destruct (resolvingCount s =? 0)%nat; [|split; assumption].
  rewrite Herr. cbn [length Nat.ltb Nat.leb]. rewrite andb_false_r.
  state_simpl. split; [assumption|reflexivity].
Qed.

Lemma spawn_clean (k : nat) (s : state B) :
  clean s -> clean (spawn total stopOnError k s).
Proof.
  revert s. induction k as [|k IH]; intros s H; [exact H|].
  cbn [spawn]. apply next_clean in H.
  destruct (isIterableDone _ || isRejected _); [exact H|].
  apply IH. exact H.
Qed.

Lemma pMap_clean (concurrency : nat) :
  (1 <= concurrency)%nat ->
  clean (pMap (B := B) total stopOnError concurrency).
Proof.
  intros Hc. unfold pMap. apply Nat.ltb_ge in Hc. rewrite Hc.
  apply spawn_clean. split; reflexivity.
Qed.

Lemma settle_fulfilled_clean (index : nat) (value : B) (s : state B) :
  clean s -> clean (settle total stopOnError index (Fulfilled value) s).
Proof.
  intros H. unfold settle. destruct (decide (index ∈ pending s)); [|exact H].
  apply next_clean. exact H.
Qed.

(** A rejected promise was rejected by the loop. *)
Definition honest (s : state B) : Prop :=
  forall reason, settlement s = Some (Rejected reason) -> isRejected s = true.

Lemma reject_honest (reason : string) (s : state B) : honest (reject reason s).
Proof. intros x _. reflexivity. Qed.

Lemma next_honest (s : state B) :
  honest s -> honest (next total stopOnError s).
Proof.
  intros H. unfold next.
  destruct (isResolved s); [exact H|].
  destruct (total <=? currentIndex s)%nat; [|exact H].
  destruct (resolvingCount s =? 0)%nat; [|exact H].
  destruct (negb stopOnError && (0 <? length (errors s))%nat);
    [apply reject_honest|].
  intros x. state_simpl. destruct (settlement s) as [y|] eqn:Hs; cbn.
  - intros Hy. apply (H x). congruence.
  - discriminate.
Qed.

Lemma spawn_honest (k : nat) (s : state B) :
  honest s -> honest (spawn total stopOnError k s).
Proof.
  revert s. induction k as [|k IH]; intros s H; [exact H|].
  cbn [spawn]. apply next_honest in H.
  destruct (isIterableDone _ || isRejected _); [exact H|].
  apply IH. exact H.
Qed.

Lemma pMap_honest (concurrency : nat) :
  honest (pMap (B := B) total stopOnError concurrency).
Proof.
  unfold pMap. destruct (concurrency <? 1)%nat; [apply reject_honest|].
  apply spawn_honest. intros x. discriminate.
Qed.

Lemma settle_honest (index : nat) (outcome : settled B) (s : state B) :
  honest s -> honest (settle total stopOnError index outcome s).
Proof.
  intros H. unfold settle.
  destruct (decide (index ∈ pending s)); [|exact H].
  assert (Hnext := next_honest).
  destruct outcome as [value|reason].
  - apply Hnext. exact H.
  - destruct stopOnError; [apply reject_honest|].
    apply Hnext. exact H.
Qed.

(** A run that is settled without [stopOnError] has no call left and has
    gone through the whole input; it is fulfilled or rejected with the
    [AggregateError] of the collected errors. *)
Definition drained (s : state B) : Prop :=
  isResolved s = true ->
  pending s = ∅ /\ (total < currentIndex s)%nat
  /\ (settlement s = Some (Rejected "")
      \/ exists m, settlement s = Some (Fulfilled m)).

Lemma next_drained (s : state B) :
  counted s -> settledIff s -> drained s ->
  drained (next total stopOnError s).
Proof.
  intros [Hcount Hrej] Hiff Hdrained. unfold next.
  destruct (isResolved s) eqn:Hres; [exact Hdrained|].
  assert (Hr : isRejected s = false).
  { destruct (isRejected s) eqn:E; [|reflexivity].
    specialize (Hrej eq_refl). congruence. }
  assert (Hnone : settlement s = None).
  { destruct (settlement s) as [x|] eqn:E; [|reflexivity].
    destruct Hiff as [_ Hiff]. rewrite Hiff in Hres by eauto. discriminate. }
  specialize (Hcount Hr).
  destruct (total <=? currentIndex s)%nat eqn:Hend;
    [|unfold drained; state_simpl; discriminate].
  apply Nat.leb_le in Hend.
  destruct (resolvingCount s =? 0)%nat eqn:Hzero;
    [|unfold drained; state_simpl; discriminate].
  apply Nat.eqb_eq in Hzero. rewrite Hzero in Hcount. symmetry in Hcount.
  apply size_empty_iff in Hcount. apply leibniz_equiv in Hcount.
  destruct (negb stopOnError && (0 <? length (errors s))%nat);
    unfold drained; state_simpl; rewrite Hnone; cbn [settleOnce]; intros _;
    (split; [exact Hcount|]); (split; [lia|]); eauto.
Qed.

Lemma spawn_drained (concurrency k free : nat) (s : state B) :
  inv total stopOnError concurrency (k + free) s ->
  settledIff s -> drained s -> drained (spawn total stopOnError k s).
Proof.
  revert s. induction k as [|k IH]; intros s Hinv Hiff H; [exact H|].
  cbn [spawn].
  assert (Hnext := next_drained s (inv_counted _ _ _ Hinv) Hiff H).
  destruct (isIterableDone _ || isRejected _); [exact Hnext|].
  apply IH; [apply next_inv; exact Hinv|apply next_settledIff; exact Hiff|
             exact Hnext].
Qed.

Lemma pMap_drained (concurrency : nat) :
  (1 <= concurrency)%nat ->
  drained (pMap (B := B) total stopOnError concurrency).
Proof.
  intros Hc. unfold pMap. apply Nat.ltb_ge in Hc. rewrite Hc.
  apply (spawn_drained concurrency concurrency 0).
  - rewrite Nat.add_0_r. apply inv_initial.
  - unfold settledIff. cbn. split; [discriminate|]. intros [x Hx].
    discriminate.
  - unfold drained. cbn. discriminate.
Qed.

Lemma settle_drained (concurrency : nat) (index : nat) (outcome : settled B)
    (s : state B) :
  stopOnError = false ->
  inv total stopOnError concurrency 0 s -> settledIff s -> drained s ->
  drained (settle total stopOnError index outcome s).
Proof.
  intros Hstop Hinv Hiff Hdrained. unfold settle.
  destruct (decide (index ∈ pending s)) as [Hin|]; [|exact Hdrained].
  assert (Hres : isResolved s = false).
  { destruct (isResolved s) eqn:E; [|reflexivity].
    destruct (Hdrained E) as (Hempty & _). rewrite Hempty in Hin.
    set_solver. }
  destruct (inv_counted _ _ _ Hinv) as [Hcount Hrej].
  assert (Hstep : forall result' errors',
             drained (next total stopOnError
                        {| result := result'; errors := errors';
                           isRejected := isRejected s;
                           isResolved := isResolved s;
                           isIterableDone := isIterableDone s;
                           resolvingCount := pred (resolvingCount s);
                           currentIndex := currentIndex s;
                           pending := pending s ∖ {[index]};
                           settlement := settlement s |})).
  { intros result' errors'. apply next_drained.
    - split; state_simpl; [|exact Hrej].
      intros Hr. rewrite (Hcount Hr), <- (size_remove _ _ Hin). reflexivity.
    - exact Hiff.
    - unfold drained. state_simpl. congruence. }
  destruct outcome as [value|reason]; [apply Hstep|].
  rewrite Hstop at 1. apply Hstep.
Qed.

End Progress.

End PMap.

(** ** Batch processing (batch-processor.js) *)

Module Batch.

Import Converter.

(** The [options] given to the constructor of [BatchProcessor]. *)
Record Options : Type := {
  o_concurrency : option nat;
  o_stopOnError : option bool
}.

(** [this.options]: [concurrency] is 4 and [stopOnError] is [false] unless
    the caller sets them (the spread of [options] comes last, so a
    [concurrency] of 0 stays 0). *)
Record ProcessorOptions : Type := {
  concurrency : nat;
  stopOnError : bool
}.

Definition newOptions (options : Options) : ProcessorOptions :=
  {| concurrency := default 4%nat (o_concurrency options);
     stopOnError := default false (o_stopOnError options) |}.

(** The argument of the progress callback. *)
Record Progress : Type := {
  p_completed : nat;
  p_total : nat;
  p_current : string;
  p_result : ConversionResult
}.

(** One [convertFiles] call under way: the state of its [pMap] call, the
    statistics of the converter, the local counter [completed] and the
    calls made to the progress callback, latest first. *)
Record Run : Type := {
  pmap : PMap.state ConversionResult;
  stats : Stats;
  completed : nat;
  notified : list Progress
}.

(** What the environment decides when the job of [index] ends: how the
    conversion went and, with a callback registered, whether the callback
    throws. *)
Record Event : Type := {
  ev_index : nat;
  ev_conversion : Conversion;
  ev_callbackThrows : option string
}.

(** What a call of [convertFiles] or [convertDirectory] has done when it
    first yields: rejected, returned an array at once, or started a run. *)
Inductive Call : Type :=
| Rejects (message : string)
| ReturnsArray (results : list ConversionResult)
| Runs (run : Run).

(** An entry of a directory, as [readdir] with [withFileTypes] reports it;
    the listing of a subdirectory is [None] when reading it fails. *)
#[warnings="-register-all"] Inductive Dirent : Type :=
| FileEntry (name : string)
| DirectoryEntry (name : string) (listing : option (list Dirent))
| OtherEntry (name : string).

(** The JavaScript array held in [result], read at the indexes below [n]. *)
Definition arrayOf (n : nat) (result : gmap nat ConversionResult)
    : list (option ConversionResult) :=
  map (fun i => result !! i) (seq 0 n).

(** Tallies over an array of results, as the specification counts them:
    the bytes before and after over the completed tasks, and the numbers
    of completed and of failed tasks. *)
Definition inputBytes (r : option ConversionResult) : Z :=
  match r with Some (Success _ _ inputSize _ _ _ _) => inputSize | _ => 0 end.

Definition outputBytes (r : option ConversionResult) : Z :=
  match r with Some (Success _ _ _ outputSize _ _ _) => outputSize | _ => 0 end.

Definition completedTask (r : option ConversionResult) : Z :=
  match r with Some (Success _ _ _ _ _ _ _) => 1 | _ => 0 end.

Definition failedTask (r : option ConversionResult) : Z :=
  match r with Some (Failure _ _) => 1 | _ => 0 end.

Definition sumOf (f : option ConversionResult -> Z)
    (results : list (option ConversionResult)) : Z :=
  fold_right Z.add 0%Z (map f results).

Section Processor.

(** [path.join] and the test
    [path.extname(name).toLowerCase() === '.gif'] of the runtime, and
    [generateOutputPath] of the converter, which only builds a path. *)
Variable path_join : string -> string -> string.
Variable hasGifExtension : string -> bool.
Variable generateOutputPath : string -> string -> string.

Variable options : Options.
Variable hasProgressCallback : bool.

Let opts : ProcessorOptions := newOptions options.

(** The job that [convertFiles] maps over its input, from where
    [convertFile] settles: the statistics are updated, [completed] is
    incremented, the callback is called, and the result is the value of
    the job unless the callback threw. *)
Definition finishJob (inputPaths : list string) (outputDir : string)
    (e : Event) (r : Run) : Run :=
  match inputPaths !! ev_index e with
  | None => r
  | Some inputPath =>
      if decide (ev_index e ∈ PMap.pending (pmap r)) then
        let outputPath := generateOutputPath inputPath outputDir in
        let '(stats', result) :=
          convertFile (stats r) inputPath outputPath (ev_conversion e) in
        let completed' := S (completed r) in
        let notified' :=
          if hasProgressCallback then
            {| p_completed := completed'; p_total := length inputPaths;
               p_current := inputPath; p_result := result |} :: notified r
          else notified r in
        let outcome :=
          match hasProgressCallback, ev_callbackThrows e with
          | true, Some reason => PMap.Rejected reason
          | _, _ => PMap.Fulfilled result
          end in
        {| pmap := PMap.settle (length inputPaths) (stopOnError opts)
                     (ev_index e) outcome (pmap r);
           stats := stats';
           completed := completed';
           notified := notified' |}
      else r
  end.

(** [convertFiles(inputPaths, outputDir)] up to its first wait on a job:
    [inputPaths] is [None] for a missing argument, [ensureDir] is the error
    of [fs.ensureDir(outputDir)], if it throws, and [stats] are the
    statistics of the converter at the call. *)
Definition convertFiles (inputPaths : option (list string)) (outputDir : string)
    (ensureDir : option string) (stats : Stats) : Call :=
  match inputPaths with
  | None | Some [] => Rejects "변환할 파일이 없습니다."
  | Some inputPaths =>
      match ensureDir with
      | Some message => Rejects message
      | None =>
          Runs {| pmap := PMap.pMap (length inputPaths) (stopOnError opts)
                            (concurrency opts);
                  stats := stats; completed := 0; notified := [] |}
      end
  end.

(** The run after the jobs ended in the order of [events]. *)
Definition deliver (inputPaths : list string) (outputDir : string)
    (events : list Event) (r : Run) : Run :=
  fold_left (fun r e => finishJob inputPaths outputDir e r) events r.

(** What the promise of [convertFiles] is settled with, if it is: the
    array of results in the order of the input. *)
Definition resultsOf (inputPaths : list string) (r : Run)
    : option (completion (list (option ConversionResult))) :=
  match PMap.settlement (pmap r) with
  | None => None
  | Some (PMap.Rejected reason) => Some (Throws reason)
  | Some (PMap.Fulfilled result) =>
      Some (Returns (arrayOf (length inputPaths) result))
  end.

(** [findGifFiles(inputDir, recursive)] on a directory whose listing is
    [listing]. *)
Fixpoint scanEntry (inputDir : string) (recursive : bool) (entry : Dirent)
    : list string :=
  match entry with
  | FileEntry name =>
      if hasGifExtension name then [path_join inputDir name] else []
  | DirectoryEntry name listing =>
      if recursive then
        match listing with
        | None => []
        | Some entries =>
            flat_map (scanEntry (path_join inputDir name) recursive) entries
        end
      else []
  | OtherEntry _ => []
  end.

Definition findGifFiles (inputDir : string) (listing : option (list Dirent))
    (recursive : bool) : list string :=
  match listing with
  | None => []
  | Some entries => flat_map (scanEntry inputDir recursive) entries
  end.

(** [convertDirectory(inputDir, outputDir, recursive)]. *)
Definition convertDirectory (inputDir : string) (listing : option (list Dirent))
    (outputDir : string) (recursive : bool)
    (ensureDir : option string) (stats : Stats) : Call :=
  let gifFiles := findGifFiles inputDir listing recursive in
  if (length gifFiles =? 0)%nat then ReturnsArray []
  else convertFiles (Some gifFiles) outputDir ensureDir stats.

(** A directory that holds a GIF file: a file with the extension among
    its entries or, in a recursive scan, in a subdirectory that can be
    read. *)
Fixpoint entryHasGif (recursive : bool) (entry : Dirent) : bool :=
  match entry with
  | FileEntry name => hasGifExtension name
  | DirectoryEntry _ (Some entries) =>
      recursive && existsb (entryHasGif recursive) entries
  | _ => false
  end.

Definition containsGif (recursive : bool) (listing : option (list Dirent)) : bool :=
  match listing with
  | None => false
  | Some entries => existsb (entryHasGif recursive) entries
  end.

(** *** Empty input *)

Lemma scanEntry_nil (recursive : bool) (entry : Dirent) :
  forall inputDir,
    scanEntry inputDir recursive entry = []
    <-> entryHasGif recursive entry = false.
Proof.
  clear generateOutputPath.
  destruct recursive.
  - revert entry. fix IH 1.
    intros [name|name [entries|]|name] inputDir; cbn [scanEntry entryHasGif].
    + clear IH. destruct (hasGifExtension name); split; congruence.
    + cbn [andb].
      induction entries as [|entry entries IHentries]; cbn [flat_map existsb].
      * clear IH. tauto.
      * rewrite orb_false_iff, <- IHentries,
          <- (IH entry (path_join inputDir name)).
        clear IH IHentries. split.
        -- intros H. apply app_eq_nil in H. exact H.
        -- intros [-> ->]. reflexivity.
    + clear IH. tauto.
    + clear IH. tauto.
  - destruct entry as [name|name [entries|]|name]; intros inputDir;
      cbn [scanEntry entryHasGif andb]; try tauto.
    destruct (hasGifExtension name); split; congruence.
Qed.

Lemma findGifFiles_nil (inputDir : string) (listing : option (list Dirent))
    (recursive : bool) :
  findGifFiles inputDir listing recursive = []
  <-> containsGif recursive listing = false.
Proof.
  clear generateOutputPath.
  destruct listing as [entries|]; cbn [findGifFiles containsGif]; [|tauto].
  induction entries as [|entry entries IH]; cbn [flat_map existsb].
  - tauto.
  - rewrite orb_false_iff, <- IH, <- (scanEntry_nil recursive entry inputDir).
    split.
    + intros H. apply app_eq_nil in H. exact H.
    + intros [-> ->]. reflexivity.
Qed.

(** C10: [convertFiles] rejects a missing and an empty list of paths with
    its own error, before any job is started, whereas [convertDirectory]
    on a directory without a GIF file returns the empty array. *)
Theorem empty_input_throws_empty_directory_returns :
  (forall (outputDir : string) (ensureDir : option string) (stats : Stats),
      convertFiles None outputDir ensureDir stats
      = Rejects "변환할 파일이 없습니다."
      /\ convertFiles (Some []) outputDir ensureDir stats
         = Rejects "변환할 파일이 없습니다.")
  /\ (forall (inputDir : string) (listing : option (list Dirent))
             (outputDir : string) (recursive : bool)
             (ensureDir : option string) (stats : Stats),
        containsGif recursive listing = false ->
        convertDirectory inputDir listing outputDir recursive ensureDir stats
        = ReturnsArray []).
Proof.
  split.
  - intros outputDir ensureDir stats. split; reflexivity.
  - intros inputDir listing outputDir recursive ensureDir stats Hnone.
    unfold convertDirectory.
    apply (proj2 (findGifFiles_nil inputDir listing recursive)) in Hnone.
    rewrite Hnone. reflexivity.
Qed.

(** With a path and an output directory, [convertFiles] starts a run. *)
Lemma convertFiles_runs (inputPath : string) (inputPaths : list string)
    (outputDir : string) (stats : Stats) :
  exists run,
    convertFiles (Some (inputPath :: inputPaths)) outputDir None stats = Runs run.
Proof. eexists. reflexivity. Qed.

(** *** Invariants of a run *)

Lemma sumOf_insert (f : option ConversionResult -> Z)
    (result : gmap nat ConversionResult) (k : nat) (value : ConversionResult)
    (indexes : list nat) :
  result !! k = None -> f None = 0%Z -> NoDup indexes ->
  sumOf f (map (fun i => <[k := value]> result !! i) indexes)
  = (sumOf f (map (fun i => result !! i) indexes)
     + (if decide (k ∈ indexes) then f (Some value) else 0))%Z.
Proof.
  intros Hnone Hzero Hnodup. unfold sumOf.
  induction Hnodup as [|i indexes Hi Hnodup IH]; cbn [map fold_right].
  - rewrite decide_False by set_solver. reflexivity.
  - rewrite IH. destruct (decide (k = i)) as [->|Hne].
    + rewrite lookup_insert_eq, Hnone, Hzero.
      rewrite (decide_True (P := i ∈ i :: indexes)) by set_solver.
      rewrite decide_False by exact Hi. lia.
    + rewrite lookup_insert_ne by exact Hne.
      destruct (decide (k ∈ indexes)) as [Hin|Hin].
      * rewrite decide_True by set_solver. lia.
      * rewrite decide_False by set_solver. lia.
Qed.

Lemma sumOf_arrayOf_insert (f : option ConversionResult -> Z) (n : nat)
    (result : gmap nat ConversionResult) (k : nat) (value : ConversionResult) :
  result !! k = None -> f None = 0%Z -> (k < n)%nat ->
  sumOf f (arrayOf n (<[k := value]> result))
  = (sumOf f (arrayOf n result) + f (Some value))%Z.
Proof.
  intros Hnone Hzero Hk. unfold arrayOf.
  rewrite sumOf_insert by (auto using NoDup_seq).
  rewrite decide_True; [reflexivity|].
  apply elem_of_seq. lia.
Qed.

Lemma sumOf_arrayOf_empty (f : option ConversionResult -> Z) (n : nat) :
  f None = 0%Z -> sumOf f (arrayOf n ∅) = 0%Z.
Proof.
  intros Hzero. unfold arrayOf, sumOf.
  induction (seq 0 n) as [|i l IH]; cbn [map fold_right]; [reflexivity|].
  rewrite lookup_empty, Hzero, IH. reflexivity.
Qed.

(** The statistics follow the results: as long as no job was rejected,
    they are the ones at the start plus the tallies of the array. *)
Definition tallied (n : nat) (stats0 : Stats) (r : Run) : Prop :=
  let results := arrayOf n (PMap.result (pmap r)) in
  processed (stats r) = (processed stats0 + sumOf completedTask results)%Z
  /\ failed (stats r) = (failed stats0 + sumOf failedTask results)%Z
  /\ totalSizeBefore (stats r)
     = (totalSizeBefore stats0 + sumOf inputBytes results)%Z
  /\ totalSizeAfter (stats r)
     = (totalSizeAfter stats0 + sumOf outputBytes results)%Z.

Definition runInv (n : nat) (stats0 : Stats) (r : Run) : Prop :=
  PMap.inv n (stopOnError opts) (concurrency opts) 0 (pmap r)
  /\ (PMap.isRejected (pmap r) = false -> PMap.errors (pmap r) = [] ->
      tallied n stats0 r).

Lemma convertFiles_inv (inputPaths : list string) (outputDir : string)
    (ensureDir : option string) (stats0 : Stats) (r0 : Run) :
  convertFiles (Some inputPaths) outputDir ensureDir stats0 = Runs r0 ->
  runInv (length inputPaths) stats0 r0.
Proof.
  unfold convertFiles. destruct inputPaths as [|inputPath inputPaths];
    [discriminate|].
  destruct ensureDir; [discriminate|]. intros H. injection H as <-.
  split; cbn [pmap stats].
  - apply PMap.pMap_inv.
  - intros Hrej _. unfold tallied. cbn [pmap stats].
    rewrite PMap.pMap_result, !sumOf_arrayOf_empty by reflexivity. lia.
Qed.

(** What [convertFile] adds to the statistics is what its result adds to
    the tallies. *)
Lemma convertFile_tally (stats : Stats) (inputPath outputPath : string)
    (io : Conversion) :
  let '(stats', result) := convertFile stats inputPath outputPath io in
  processed stats' = (processed stats + completedTask (Some result))%Z
  /\ failed stats' = (failed stats + failedTask (Some result))%Z
  /\ totalSizeBefore stats' = (totalSizeBefore stats + inputBytes (Some result))%Z
  /\ totalSizeAfter stats' = (totalSizeAfter stats + outputBytes (Some result))%Z.
Proof. destruct io; cbn; repeat split; lia. Qed.

Lemma finishJob_inv (inputPaths : list string) (outputDir : string)
    (stats0 : Stats) (e : Event) (r : Run) :
  runInv (length inputPaths) stats0 r ->
  runInv (length inputPaths) stats0 (finishJob inputPaths outputDir e r).
Proof.
  intros [Hinv Htally]. unfold finishJob.
  destruct (inputPaths !! ev_index e) as [inputPath|] eqn:Hpath;
    [|split; assumption].
  destruct (decide (ev_index e ∈ PMap.pending (pmap r))) as [Hin|];
    [|split; assumption].
  pose proof (convertFile_tally (stats r) inputPath
                (generateOutputPath inputPath outputDir) (ev_conversion e))
    as Hconv.
  destruct (convertFile (stats r) inputPath
              (generateOutputPath inputPath outputDir) (ev_conversion e))
    as [stats' result].
  split; cbn [pmap stats].
  - apply PMap.settle_inv. exact Hinv.
  - assert (Hk : (ev_index e < length inputPaths)%nat)
      by (apply (PMap.inv_pending _ _ _ _ _ Hinv); exact Hin).
    assert (Hnone : PMap.result (pmap r) !! ev_index e = None).
    { destruct (PMap.result (pmap r) !! ev_index e) eqn:E; [|reflexivity].
      destruct (PMap.inv_result _ _ _ _ _ Hinv (ev_index e)) as [_ Hn];
        [eauto|contradiction]. }
    set (outcome := match hasProgressCallback, ev_callbackThrows e with
                    | true, Some reason => PMap.Rejected reason
                    | _, _ => PMap.Fulfilled result
                    end).
    destruct outcome as [value|reason] eqn:Houtcome.
    + assert (value = result) as ->.
      { unfold outcome in Houtcome.
        destruct hasProgressCallback, (ev_callbackThrows e); congruence. }
      destruct (PMap.settle_fulfilled (length inputPaths) (stopOnError opts)
                  (ev_index e) result (pmap r) Hin) as (Hres & Herr & Hrej).
      intros Hrej' Herr'. rewrite Herr in Herr'.
      assert (Hrej0 : PMap.isRejected (pmap r) = false).
      { destruct (PMap.isRejected (pmap r)); [|reflexivity].
        rewrite Hrej in Hrej' by reflexivity. discriminate. }
      destruct (Htally Hrej0 Herr') as (H1 & H2 & H3 & H4).
      destruct Hconv as (C1 & C2 & C3 & C4).
      unfold tallied. cbn [pmap stats]. rewrite Hres.
      rewrite !sumOf_arrayOf_insert by (try reflexivity; assumption).
      repeat split; lia.
    + intros Hrej' Herr'. exfalso.
      destruct (PMap.settle_rejected (length inputPaths) (stopOnError opts)
                  (ev_index e) reason (pmap r) Hin) as [H|H]; congruence.
Qed.

Lemma deliver_inv (inputPaths : list string) (outputDir : string)
    (stats0 : Stats) (events : list Event) (r : Run) :
  runInv (length inputPaths) stats0 r ->
  runInv (length inputPaths) stats0 (deliver inputPaths outputDir events r).
Proof.
  unfold deliver. revert r.
  induction events as [|e events IH]; intros r Hr; cbn [fold_left].
  - exact Hr.
  - apply IH, finishJob_inv, Hr.
Qed.

(** *** Statistics of a finished run *)

(** C5, as the code has it: when a run on fresh statistics is finished
    (the promise of [convertFiles] is fulfilled with the array of results),
    the byte totals are the sums over the completed tasks alone, [failed]
    counts every failed task, and the exposed ratio is the percentage
    [100 * (before - after) / before], and 0 when no byte was converted. *)
Theorem finished_run_statistics (inputPaths : list string)
    (outputDir : string) (ensureDir : option string) (events : list Event)
    (r0 : Run) (results : list (option ConversionResult)) :
  convertFiles (Some inputPaths) outputDir ensureDir resetStats = Runs r0 ->
  resultsOf inputPaths (deliver inputPaths outputDir events r0)
  = Some (Returns results) ->
  let final := stats (deliver inputPaths outputDir events r0) in
  let before := sumOf inputBytes results in
  let after := sumOf outputBytes results in
  totalSizeBefore final = before
  /\ totalSizeAfter final = after
  /\ processed final = sumOf completedTask results
  /\ failed final = sumOf failedTask results
  /\ totalCompressionRatio (getStats final)
     == (if (before >? 0)%Z
         then inject_Z (before - after) / inject_Z before * 100
         else 0).
Proof.
  intros Hstart Hdone.
  pose proof (deliver_inv inputPaths outputDir resetStats events r0
                (convertFiles_inv _ _ _ _ _ Hstart)) as [Hinv Htally].
  unfold resultsOf in Hdone.
  destruct (PMap.settlement (pmap (deliver inputPaths outputDir events r0)))
    as [[m|reason]|] eqn:Hsettled; try discriminate.
  injection Hdone as <-.
  destruct (PMap.inv_fulfilled _ _ _ _ _ Hinv m Hsettled)
    as (_ & Hrej & Herr & -> & _).
  destruct (Htally Hrej Herr) as (H1 & H2 & H3 & H4).
  cbn [processed failed totalSizeBefore totalSizeAfter resetStats] in *.
  cbn zeta. rewrite H1, H2, H3, H4, !Z.add_0_l.
  repeat split. unfold getStats. cbn [totalCompressionRatio].
  rewrite H3, H4, !Z.add_0_l. reflexivity.
Qed.

(** *** The pool of running jobs *)


(** *** Stopping on error *)

(** Why a failed item does not stop the run: a job is rejected only when
    the progress callback throws, never by the conversion. *)
Lemma finishJob_settles_fulfilled (inputPaths : list string)
    (outputDir : string) (e : Event) (r : Run) :
  hasProgressCallback = false \/ ev_callbackThrows e = None ->
  PMap.isRejected (pmap r) = false ->
  PMap.isRejected (pmap (finishJob inputPaths outputDir e r)) = false
  \/ stopOnError opts = false.
Proof.
  clear path_join hasGifExtension.
  intros Hquiet Hrej. unfold finishJob.
  destruct (inputPaths !! ev_index e) as [inputPath|]; [|left; exact Hrej].
  destruct (decide (ev_index e ∈ PMap.pending (pmap r))); [|left; exact Hrej].
  destruct (convertFile (stats r) inputPath
              (generateOutputPath inputPath outputDir) (ev_conversion e))
    as [stats' result].
  cbn [pmap].
  assert (match hasProgressCallback, ev_callbackThrows e with
          | true, Some reason => PMap.Rejected reason
          | _, _ => PMap.Fulfilled result
          end = PMap.Fulfilled result) as ->.
  { destruct Hquiet as [-> | ->]; [reflexivity|].
    destruct hasProgressCallback; reflexivity. }
  unfold PMap.settle.
  destruct (decide (ev_index e ∈ PMap.pending (pmap r))); [|contradiction].
  unfold PMap.next. cbn [PMap.isResolved PMap.currentIndex PMap.resolvingCount
                         PMap.errors].
  repeat match goal with
         | |- context [if ?b then _ else _] => destruct b eqn:?
         end; cbn [PMap.isRejected PMap.reject]; auto.
  right. destruct (stopOnError opts); [discriminate|reflexivity].
Qed.

(** *** The ledger of a run *)

(** The input a result belongs to. *)
Definition inputPathOf (result : ConversionResult) : string :=
  match result with
  | Success inputPath _ _ _ _ _ _ => inputPath
  | Failure inputPath _ => inputPath
  end.

(** [result] is a result of [convertFile] for [inputPath]. *)
Definition resultFor (outputDir inputPath : string)
    (result : ConversionResult) : Prop :=
  inputPathOf result = inputPath
  /\ match result with
     | Success _ outputPath inputSize outputSize _ _ savedBytes =>
         outputPath = generateOutputPath inputPath outputDir
         /\ savedBytes = (inputSize - outputSize)%Z
     | Failure _ _ => True
     end.

(** What a run keeps besides [runInv]: the settlement follows
    [isResolved], an unsettled run has a job under way, every job that
    ended is counted once, the callback was called once per ended job, and
    a stored result belongs to the input of its index. *)
Record ledger (inputPaths : list string) (outputDir : string)
    (stats0 : Stats) (r : Run) : Prop := {
  led_settled : PMap.settledIff (pmap r);
  led_busy : PMap.busy (pmap r);
  led_started :
    (completed r + size (PMap.pending (pmap r))
     = PMap.startedCalls (length inputPaths) (pmap r))%nat;
  led_counted :
    (processed (stats r) + failed (stats r)
     = processed stats0 + failed stats0 + Z.of_nat (completed r))%Z;
  led_notified :
    if hasProgressCallback then
      map p_completed (notified r) = rev (seq 1 (completed r))
      /\ Forall (fun p => p_total p = length inputPaths) (notified r)
    else notified r = [];
  led_order : forall i result,
    PMap.result (pmap r) !! i = Some result ->
    exists inputPath,
      inputPaths !! i = Some inputPath /\ resultFor outputDir inputPath result
}.

Lemma convertFiles_ledger (inputPaths : list string) (outputDir : string)
    (ensureDir : option string) (stats0 : Stats) (r0 : Run) :
  convertFiles (Some inputPaths) outputDir ensureDir stats0 = Runs r0 ->
  ledger inputPaths outputDir stats0 r0.
Proof.
  intros Hcall. assert (Hinv := convertFiles_inv _ _ _ _ _ Hcall).
  destruct Hinv as [Hinv _]. revert Hcall Hinv. unfold convertFiles.
  destruct inputPaths as [|inputPath inputPaths]; [discriminate|].
  destruct ensureDir; [discriminate|]. intros H. injection H as <-.
  cbn [pmap]. intros Hinv.
  split; cbn [pmap stats completed notified].
  - apply PMap.pMap_settledIff.
  - apply PMap.pMap_busy.
  - apply PMap.pMap_started.
  - lia.
  - destruct hasProgressCallback; [split; [reflexivity|constructor]|reflexivity].
  - intros i result. rewrite PMap.pMap_result, lookup_empty. discriminate.
Qed.

Lemma convertFile_resultFor (stats : Stats) (inputPath outputDir : string)
    (io : Conversion) :
  resultFor outputDir inputPath
    (snd (convertFile stats inputPath
            (generateOutputPath inputPath outputDir) io)).
Proof.
  destruct io; cbn [convertFile snd]; unfold resultFor; cbn [inputPathOf];
    auto.
Qed.

Lemma convertFile_counted (stats : Stats) (inputPath outputPath : string)
    (io : Conversion) :
  let stats' := fst (convertFile stats inputPath outputPath io) in
  (processed stats' + failed stats' = processed stats + failed stats + 1)%Z.
Proof. destruct io; cbn; lia. Qed.

Lemma finishJob_ledger (inputPaths : list string) (outputDir : string)
    (stats0 : Stats) (e : Event) (r : Run) :
  runInv (length inputPaths) stats0 r ->
  ledger inputPaths outputDir stats0 r ->
  ledger inputPaths outputDir stats0 (finishJob inputPaths outputDir e r).
Proof.
  intros [Hinv _] Hled. unfold finishJob.
  destruct (inputPaths !! ev_index e) as [inputPath|] eqn:Hpath;
    [|exact Hled].
  destruct (decide (ev_index e ∈ PMap.pending (pmap r))) as [Hin|];
    [|exact Hled].
  assert (Hfor := convertFile_resultFor (stats r) inputPath outputDir
                    (ev_conversion e)).
  assert (Hcount := convertFile_counted (stats r) inputPath
                      (generateOutputPath inputPath outputDir)
                      (ev_conversion e)).
  destruct (convertFile (stats r) inputPath
              (generateOutputPath inputPath outputDir) (ev_conversion e))
    as [stats' result].
  cbn [fst snd] in Hfor, Hcount.
  destruct Hled as [Hsettled Hbusy Hstarted Hcounted Hnotified Horder].
  split; cbn [pmap stats completed notified].
  - apply PMap.settle_settledIff. exact Hsettled.
  - apply (PMap.settle_busy _ _ (concurrency opts)); assumption.
  - match goal with
    | |- context [PMap.settle _ _ _ ?o _] =>
        assert (Hs := PMap.settle_started (length inputPaths)
                        (stopOnError opts) (ev_index e) o (pmap r))
    end.
    assert (Hlt : forall i, i ∈ PMap.pending (pmap r) ->
                            (i < PMap.currentIndex (pmap r))%nat).
    { intros i Hi. apply (PMap.inv_pending _ _ _ _ _ Hinv). exact Hi. }
    specialize (Hs Hlt Hin). lia.
  - lia.
  - destruct hasProgressCallback; [|exact Hnotified].
    destruct Hnotified as [Hmap Hall]. split.
    + cbn [map p_completed]. rewrite Hmap, seq_S, rev_app_distr.
      reflexivity.
    + constructor; [reflexivity|exact Hall].
  - intros i x.
    set (outcome := match hasProgressCallback, ev_callbackThrows e with
                    | true, Some reason => PMap.Rejected reason
                    | _, _ => PMap.Fulfilled result
                    end).
    destruct outcome as [value|reason] eqn:Houtcome.
    + assert (value = result) as ->.
      { unfold outcome in Houtcome.
        destruct hasProgressCallback, (ev_callbackThrows e); congruence. }
      destruct (PMap.settle_fulfilled (length inputPaths) (stopOnError opts)
                  (ev_index e) result (pmap r) Hin) as (-> & _).
      destruct (decide (i = ev_index e)) as [->|Hne].
      * rewrite lookup_insert_eq. intros H. injection H as <-.
        exists inputPath. split; assumption.
      * rewrite lookup_insert_ne by congruence. apply Horder.
    + rewrite PMap.settle_rejected_result. apply Horder.
Qed.

Lemma deliver_ledger (inputPaths : list string) (outputDir : string)
    (stats0 : Stats) (events : list Event) (r : Run) :
  runInv (length inputPaths) stats0 r ->
  ledger inputPaths outputDir stats0 r ->
  ledger inputPaths outputDir stats0 (deliver inputPaths outputDir events r).
Proof.
  unfold deliver. revert r.
  induction events as [|e events IH]; intros r Hinv Hled; cbn [fold_left].
  - exact Hled.
  - apply IH; [apply finishJob_inv|apply finishJob_ledger]; assumption.
Qed.

(** The ledger of the run that [convertFiles] starts, after any events. *)
Lemma run_ledger (inputPaths : list string) (outputDir : string)
    (ensureDir : option string) (stats0 : Stats) (events : list Event)
    (r0 : Run) :
  convertFiles (Some inputPaths) outputDir ensureDir stats0 = Runs r0 ->
  let r := deliver inputPaths outputDir events r0 in
  PMap.inv (length inputPaths) (stopOnError opts) (concurrency opts) 0 (pmap r)
  /\ ledger inputPaths outputDir stats0 r.
Proof.
  intros Hcall r.
  assert (Hinv := convertFiles_inv _ _ _ _ _ Hcall).
  assert (Hled := convertFiles_ledger _ _ _ _ _ Hcall).
  split.
  - apply (deliver_inv inputPaths outputDir stats0 events r0 Hinv).
  - apply deliver_ledger; assumption.
Qed.

(** *** Results in the order of the input *)

(** X18: whatever the order in which the jobs ended, the array of a run
    that is fulfilled has one result per input, and the result at index
    [i] is the one of the [i]-th input path: it names that path and, when
    the conversion completed, the output path generated from it and the
    bytes saved. *)
Theorem results_follow_input_order (inputPaths : list string)
    (outputDir : string) (ensureDir : option string) (stats0 : Stats)
    (events : list Event) (r0 : Run)
    (results : list (option ConversionResult)) :
  convertFiles (Some inputPaths) outputDir ensureDir stats0 = Runs r0 ->
  resultsOf inputPaths (deliver inputPaths outputDir events r0)
  = Some (Returns results) ->
  length results = length inputPaths
  /\ forall i inputPath,
       inputPaths !! i = Some inputPath ->
       exists result,
         results !! i = Some (Some result)
         /\ resultFor outputDir inputPath result.
Proof.
  intros Hcall Hresults.
  destruct (run_ledger inputPaths outputDir ensureDir stats0 events r0 Hcall)
    as [Hinv Hled].
  set (r := deliver inputPaths outputDir events r0) in *.
  unfold resultsOf in Hresults.
  destruct (PMap.settlement (pmap r)) as [[m|reason]|] eqn:Hset;
    try discriminate.
  injection Hresults as <-.
  destruct (PMap.inv_fulfilled _ _ _ _ _ Hinv m Hset)
    as (Hres & Hrej & Herr & -> & Hend).
  assert (Hidle := PMap.inv_idle _ _ _ _ _ Hinv Hres Hrej).
  split.
  - unfold arrayOf. rewrite length_map, length_seq. reflexivity.
  - intros i inputPath Hpath.
    assert (Hi : (i < length inputPaths)%nat)
      by (apply lookup_lt_is_Some; eauto).
    destruct (PMap.inv_started _ _ _ _ _ Hinv Hrej Herr i) as [Hp|[x Hx]];
      [lia|exact Hi|rewrite Hidle in Hp; set_solver|].
    exists x. split.
    + unfold arrayOf. rewrite list_lookup_fmap, lookup_seq_lt by exact Hi.
      cbn. rewrite Hx. reflexivity.
    + destruct (led_order _ _ _ _ Hled i x Hx) as (p & Hp & Hfor).
      rewrite Hpath in Hp. injection Hp as <-. exact Hfor.
Qed.

(** *** Counting the jobs that ended *)

(** X19: at every point of a run, fulfilled, rejected or under way, the
    jobs that have ended and the jobs that are running are the jobs that
    were started; [completed] never exceeds the number of inputs; every
    ended job is counted once in [processed] or [failed]; and a registered
    progress callback has been called once per ended job, with
    [completed] counting 1, 2, ... and [total] the number of inputs. *)
Theorem ended_jobs_are_counted (inputPaths : list string)
    (outputDir : string) (ensureDir : option string) (stats0 : Stats)
    (events : list Event) (r0 : Run) :
  convertFiles (Some inputPaths) outputDir ensureDir stats0 = Runs r0 ->
  let r := deliver inputPaths outputDir events r0 in
  (completed r + size (PMap.pending (pmap r))
   = Nat.min (PMap.currentIndex (pmap r)) (length inputPaths))%nat
  /\ (completed r <= length inputPaths)%nat
  /\ (processed (stats r) + failed (stats r)
      = processed stats0 + failed stats0 + Z.of_nat (completed r))%Z
  /\ (if hasProgressCallback then
        map p_completed (notified r) = rev (seq 1 (completed r))
        /\ Forall (fun p => p_total p = length inputPaths) (notified r)
      else notified r = []).
Proof.
  intros Hcall r.
  destruct (run_ledger inputPaths outputDir ensureDir stats0 events r0 Hcall)
    as [_ Hled].
  fold r in Hled.
  assert (Hs := led_started _ _ _ _ Hled). unfold PMap.startedCalls in Hs.
  split; [exact Hs|]. split; [lia|].
  split; [exact (led_counted _ _ _ _ Hled)|exact (led_notified _ _ _ _ Hled)].
Qed.

(** *** A run does not stall *)

(** X20: the promise of [convertFiles] is unsettled exactly as long as
    [isResolved] is unset; as long as it is unsettled a job of the input
    is running, so the run cannot wait for nothing; and once every input
    has ended the promise is settled. *)
Theorem unsettled_run_has_a_running_job (inputPaths : list string)
    (outputDir : string) (ensureDir : option string) (stats0 : Stats)
    (events : list Event) (r0 : Run) :
  convertFiles (Some inputPaths) outputDir ensureDir stats0 = Runs r0 ->
  let r := deliver inputPaths outputDir events r0 in
  (resultsOf inputPaths r = None <-> PMap.isResolved (pmap r) = false)
  /\ (resultsOf inputPaths r = None ->
      exists i inputPath,
        i ∈ PMap.pending (pmap r) /\ inputPaths !! i = Some inputPath)
  /\ (completed r = length inputPaths -> resultsOf inputPaths r <> None).
Proof.
  intros Hcall r.
  destruct (run_ledger inputPaths outputDir ensureDir stats0 events r0 Hcall)
    as [Hinv Hled].
  fold r in Hinv, Hled.
  assert (Hiff : resultsOf inputPaths r = None
                 <-> PMap.isResolved (pmap r) = false).
  { assert (Hs := led_settled _ _ _ _ Hled). unfold PMap.settledIff in Hs.
    unfold resultsOf.
    destruct (PMap.settlement (pmap r)) as [[m|reason]|] eqn:Hset.
    - split; [discriminate|]. intros Hres.
      destruct Hs as [_ Hs]. rewrite Hs in Hres by eauto. discriminate.
    - split; [discriminate|]. intros Hres.
      destruct Hs as [_ Hs]. rewrite Hs in Hres by eauto. discriminate.
    - split; [intros _|reflexivity].
      destruct (PMap.isResolved (pmap r)); [|reflexivity].
      destruct Hs as [Hs _]. destruct (Hs eq_refl) as [x Hx]. discriminate. }
  split; [exact Hiff|]. split.
  - intros Hnone. apply Hiff in Hnone.
    assert (Hb := led_busy _ _ _ _ Hled Hnone).
    apply set_choose_L in Hb. destruct Hb as [i Hi]. exists i.
    destruct (PMap.inv_pending _ _ _ _ _ Hinv i Hi) as [_ Hlt].
    apply lookup_lt_is_Some in Hlt. destruct Hlt as [inputPath Hp].
    exists inputPath. split; assumption.
  - intros Hall Hnone. apply Hiff in Hnone.
    assert (Hb := led_busy _ _ _ _ Hled Hnone).
    assert (Hs := led_started _ _ _ _ Hled). unfold PMap.startedCalls in Hs.
    assert (Hz : size (PMap.pending (pmap r)) = 0%nat) by lia.
    apply size_empty_iff in Hz. apply Hb. apply leibniz_equiv. exact Hz.
Qed.

(** *** A progress callback that throws *)

Lemma finishJob_tainted (inputPaths : list string) (outputDir : string)
    (e : Event) (r : Run) :
  PMap.tainted (pmap r) ->
  PMap.tainted (pmap (finishJob inputPaths outputDir e r)).
Proof.
  intros H. unfold finishJob.
  destruct (inputPaths !! ev_index e); [|exact H].
  destruct (decide _); [|exact H].
  destruct (convertFile _ _ _ _). cbn [pmap].
  apply PMap.settle_tainted. exact H.
Qed.

Lemma deliver_tainted (inputPaths : list string) (outputDir : string)
    (events : list Event) (r : Run) :
  PMap.tainted (pmap r) ->
  PMap.tainted (pmap (deliver inputPaths outputDir events r)).
Proof.
  unfold deliver. revert r.
  induction events as [|e events IH]; intros r H; cbn [fold_left];
    [exact H|].
  apply IH, finishJob_tainted, H.
Qed.

Lemma finishJob_settlement (inputPaths : list string) (outputDir : string)
    (e : Event) (r : Run) (x : PMap.settled (gmap nat ConversionResult)) :
  PMap.settlement (pmap r) = Some x ->
  PMap.settlement (pmap (finishJob inputPaths outputDir e r)) = Some x.
Proof.
  intros H. unfold finishJob.
  destruct (inputPaths !! ev_index e); [|exact H].
  destruct (decide _); [|exact H].
  destruct (convertFile _ _ _ _). cbn [pmap].
  apply PMap.settle_settlement. exact H.
Qed.

Lemma deliver_settlement (inputPaths : list string) (outputDir : string)
    (events : list Event) (r : Run)
    (x : PMap.settled (gmap nat ConversionResult)) :
  PMap.settlement (pmap r) = Some x ->
  PMap.settlement (pmap (deliver inputPaths outputDir events r)) = Some x.
Proof.
  unfold deliver. revert r.
  induction events as [|e events IH]; intros r H; cbn [fold_left];
    [exact H|].
  apply IH, finishJob_settlement, H.
Qed.

(** Once the promise is settled no job is started any more. *)
Lemma deliver_after_end (inputPaths : list string) (outputDir : string)
    (events : list Event) (r : Run) :
  PMap.isResolved (pmap r) = true ->
  let r' := deliver inputPaths outputDir events r in
  PMap.currentIndex (pmap r') = PMap.currentIndex (pmap r)
  /\ PMap.pending (pmap r') ⊆ PMap.pending (pmap r)
  /\ PMap.isResolved (pmap r') = true.
Proof.
  clear path_join hasGifExtension. unfold deliver. revert r.
  induction events as [|e events IH]; intros r H; cbn [fold_left].
  - split; [reflexivity|]. split; [set_solver|exact H].
  - assert (Hstep :
      PMap.currentIndex (pmap (finishJob inputPaths outputDir e r))
      = PMap.currentIndex (pmap r)
      /\ PMap.pending (pmap (finishJob inputPaths outputDir e r))
         ⊆ PMap.pending (pmap r)
      /\ PMap.isResolved (pmap (finishJob inputPaths outputDir e r)) = true).
    { unfold finishJob.
      destruct (inputPaths !! ev_index e);
        [|split; [reflexivity|split; [set_solver|exact H]]].
      destruct (decide _);
        [|split; [reflexivity|split; [set_solver|exact H]]].
      destruct (convertFile _ _ _ _). cbn [pmap].
      apply PMap.settle_after_end. exact H. }
    destruct Hstep as (Hc & Hp & Hr).
    destruct (IH _ Hr) as (Hc' & Hp' & Hr').
    split; [congruence|]. split; [set_solver|exact Hr'].
Qed.

(** X21: when the progress callback throws at the end of a job, the run
    is never fulfilled, whatever happens afterwards.  With [stopOnError]
    set and the promise still unsettled, the promise is rejected with what
    the callback threw, and from then on no further job is started, while
    the job itself is still counted in [completed]. *)
Theorem throwing_callback_fails_the_run (inputPaths : list string)
    (outputDir : string) (ensureDir : option string) (stats0 : Stats)
    (events later : list Event) (r0 : Run) (e : Event) (reason : string) :
  hasProgressCallback = true ->
  convertFiles (Some inputPaths) outputDir ensureDir stats0 = Runs r0 ->
  let r := deliver inputPaths outputDir events r0 in
  let r' := finishJob inputPaths outputDir e r in
  let r'' := deliver inputPaths outputDir later r' in
  ev_index e ∈ PMap.pending (pmap r) ->
  ev_callbackThrows e = Some reason ->
  (forall results, resultsOf inputPaths r'' <> Some (Returns results))
  /\ completed r' = S (completed r)
  /\ (stopOnError opts = true -> resultsOf inputPaths r = None ->
      resultsOf inputPaths r'' = Some (Throws reason)
      /\ PMap.currentIndex (pmap r'') = PMap.currentIndex (pmap r)
      /\ PMap.pending (pmap r'') ⊆ PMap.pending (pmap r) ∖ {[ev_index e]}).
Proof.
  clear path_join hasGifExtension.
  intros Hcb Hcall r r' r'' Hin Hthrows.
  destruct (run_ledger inputPaths outputDir ensureDir stats0 events r0 Hcall)
    as [Hinv Hled].
  fold r in Hinv, Hled.
  assert (Hpath : exists inputPath, inputPaths !! ev_index e = Some inputPath).
  { destruct (PMap.inv_pending _ _ _ _ _ Hinv _ Hin) as [_ Hlt].
    apply lookup_lt_is_Some in Hlt. exact Hlt. }
  destruct Hpath as [inputPath Hpath].
  assert (Hr' : exists stats' result,
             r' = {| pmap := PMap.settle (length inputPaths) (stopOnError opts)
                               (ev_index e) (PMap.Rejected reason) (pmap r);
                     stats := stats';
                     completed := S (completed r);
                     notified :=
                       {| p_completed := S (completed r);
                          p_total := length inputPaths;
                          p_current := inputPath; p_result := result |}
                       :: notified r |}).
  { unfold r', finishJob. rewrite Hpath.
    destruct (decide _); [|contradiction].
    destruct (convertFile _ _ _ _) as [stats' result].
    rewrite Hcb, Hthrows. eauto. }
  destruct Hr' as (stats' & result & Hr').
  assert (Htainted : PMap.tainted (pmap r')).
  { rewrite Hr'. cbn [pmap]. apply PMap.settle_rejected. exact Hin. }
  assert (Hinv'' : PMap.inv (length inputPaths) (stopOnError opts)
                     (concurrency opts) 0 (pmap r'')).
  { assert (H := run_ledger inputPaths outputDir ensureDir stats0
                   (events ++ e :: later) r0 Hcall).
    cbn zeta in H. destruct H as [H _].
    unfold deliver in H. rewrite fold_left_app in H. exact H. }
  split; [|split].
  - intros results Hresults. unfold resultsOf in Hresults.
    destruct (PMap.settlement (pmap r'')) as [[m|?]|] eqn:Hset;
      try discriminate.
    destruct (PMap.inv_fulfilled _ _ _ _ _ Hinv'' m Hset)
      as (_ & Hrej & Herr & _).
    destruct (deliver_tainted inputPaths outputDir later r' Htainted)
      as [H|H]; fold r'' in H; congruence.
  - rewrite Hr'. reflexivity.
  - intros Hstop Hnone.
    assert (Hunset : PMap.settlement (pmap r) = None).
    { unfold resultsOf in Hnone.
      destruct (PMap.settlement (pmap r)) as [[?|?]|]; congruence. }
    assert (Hsettle : PMap.settle (length inputPaths) (stopOnError opts)
                        (ev_index e) (PMap.Rejected reason) (pmap r)
                      = PMap.reject reason
                          {| PMap.result := PMap.result (pmap r);
                             PMap.errors := PMap.errors (pmap r);
                             PMap.isRejected := PMap.isRejected (pmap r);
                             PMap.isResolved := PMap.isResolved (pmap r);
                             PMap.isIterableDone := PMap.isIterableDone (pmap r);
                             PMap.resolvingCount := PMap.resolvingCount (pmap r);
                             PMap.currentIndex := PMap.currentIndex (pmap r);
                             PMap.pending := PMap.pending (pmap r) ∖ {[ev_index e]};
                             PMap.settlement := PMap.settlement (pmap r) |}).
    { unfold PMap.settle. destruct (decide _); [|contradiction].
      rewrite Hstop. reflexivity. }
    assert (Hset' : PMap.settlement (pmap r') = Some (PMap.Rejected reason)).
    { rewrite Hr'. cbn [pmap]. rewrite Hsettle. cbn. rewrite Hunset.
      reflexivity. }
    assert (Hres' : PMap.isResolved (pmap r') = true).
    { rewrite Hr'. cbn [pmap]. rewrite Hsettle. reflexivity. }
    destruct (deliver_after_end inputPaths outputDir later r' Hres')
      as (Hc & Hp & _). fold r'' in Hc, Hp.
    split; [|split].
    + unfold resultsOf, r''.
      rewrite (deliver_settlement inputPaths outputDir later r' _ Hset').
      reflexivity.
    + rewrite Hc, Hr'. cbn [pmap]. rewrite Hsettle. reflexivity.
    + intros i Hi. apply Hp in Hi. rewrite Hr' in Hi. cbn [pmap] in Hi.
      rewrite Hsettle in Hi. exact Hi.
Qed.

(** *** A concurrency of 0 *)

(** X22: a [concurrency] of 0 given to the constructor is not replaced by
    the default 4: once the output directory is created, [convertFiles] on
    a list that is not empty is then rejected by [pMap] with its
    [TypeError], which names the 0, before any job is started, and nothing
    that happens later changes the run. *)
Theorem zero_concurrency_rejects (inputPaths : list string)
    (outputDir : string) (stats0 : Stats) (events : list Event) (r0 : Run) :
  o_concurrency options = Some 0%nat ->
  convertFiles (Some inputPaths) outputDir None stats0 = Runs r0 ->
  resultsOf inputPaths r0
  = Some (Throws
            "Expected `concurrency` to be an integer from 1 and up or `Infinity`, got `0` (number)")
  /\ PMap.pending (pmap r0) = ∅
  /\ PMap.currentIndex (pmap r0) = 0%nat
  /\ stats r0 = stats0
  /\ deliver inputPaths outputDir events r0 = r0.
Proof.
  clear path_join hasGifExtension.
  intros Hzero. unfold convertFiles.
  destruct inputPaths as [|inputPath inputPaths]; [discriminate|].
  intros H. injection H as <-.
  rewrite Hzero. cbn [default]. unfold PMap.pMap. cbn [Nat.ltb Nat.leb].
  split; [reflexivity|]. split; [reflexivity|]. split; [reflexivity|].
  split; [reflexivity|].
  induction events as [|e events IH]; [reflexivity|].
  cbn [deliver fold_left]. unfold deliver in IH.
  assert (Hstep : forall r,
             PMap.pending (pmap r) = ∅ ->
             finishJob (inputPath :: inputPaths) outputDir e r = r).
  { intros r Hr. unfold finishJob.
    destruct (_ !! ev_index e); [|reflexivity].
    destruct (decide _) as [Hin|]; [|reflexivity].
    rewrite Hr in Hin. set_solver. }
  rewrite Hstep by reflexivity. exact IH.
Qed.

(** *** Scanning a directory *)

Lemma scanEntry_flat (inputDir : string) (entry : Dirent) :
  scanEntry inputDir false entry
  = match entry with
    | FileEntry name =>
        if hasGifExtension name then [path_join inputDir name] else []
    | _ => []
    end.
Proof. destruct entry; reflexivity. Qed.

Lemma scanEntry_sublist (inputDir : string) (entry : Dirent) :
  sublist (scanEntry inputDir false entry) (scanEntry inputDir true entry).
Proof.
  destruct entry as [name|name listing|name]; cbn [scanEntry];
    [reflexivity|apply sublist_nil_l|reflexivity].
Qed.

(** X23: a scan that is not recursive finds the GIF files among the
    entries of the directory itself, in the order of the listing, and
    every path it finds is found, in the same order, by the recursive scan
    of the same directory. *)
Theorem flat_scan_within_recursive_scan (inputDir : string)
    (listing : option (list Dirent)) :
  findGifFiles inputDir listing false
  = match listing with
    | None => []
    | Some entries =>
        flat_map (fun entry =>
                    match entry with
                    | FileEntry name =>
                        if hasGifExtension name
                        then [path_join inputDir name] else []
                    | _ => []
                    end) entries
    end
  /\ sublist (findGifFiles inputDir listing false)
             (findGifFiles inputDir listing true).
Proof.
  unfold findGifFiles. destruct listing as [entries|];
    [|split; reflexivity].
  split.
  - induction entries as [|entry entries IH]; [reflexivity|].
    cbn [flat_map]. rewrite IH, scanEntry_flat. reflexivity.
  - induction entries as [|entry entries IH]; [reflexivity|].
    cbn [flat_map]. apply sublist_app; [apply scanEntry_sublist|exact IH].
Qed.


(** *** Statistics across runs *)

(** [savedBytes] of a result. *)
Definition savedBytesOf (r : option ConversionResult) : Z :=
  match r with
  | Some (Success _ _ _ _ _ _ savedBytes) => savedBytes
  | _ => 0
  end.

Lemma sumOf_saved (outputDir : string) (results : list (option ConversionResult)) :
  Forall (fun r => forall result, r = Some result ->
                     exists inputPath, resultFor outputDir inputPath result)
         results ->
  sumOf savedBytesOf results
  = (sumOf inputBytes results - sumOf outputBytes results)%Z.
Proof.
  unfold sumOf. induction 1 as [|r results Hr _ IH]; [reflexivity|].
  cbn [map fold_right]. rewrite IH.
  destruct r as [[? ? inputSize outputSize ? ? savedBytes|? ?]|];
    cbn [savedBytesOf inputBytes outputBytes]; try lia.
  destruct (Hr _ eq_refl) as (p & _ & _ & ->). lia.
Qed.

(** X25: the statistics of the converter are not reset by [convertFiles]:
    after a run that is fulfilled they are the statistics at the call plus
    the tallies of the results of the run, and the bytes that [getStats]
    reports as saved grow by the sum of [savedBytes] over the results. *)
Theorem statistics_accumulate (inputPaths : list string)
    (outputDir : string) (ensureDir : option string) (stats0 : Stats)
    (events : list Event) (r0 : Run)
    (results : list (option ConversionResult)) :
  convertFiles (Some inputPaths) outputDir ensureDir stats0 = Runs r0 ->
  resultsOf inputPaths (deliver inputPaths outputDir events r0)
  = Some (Returns results) ->
  let final := stats (deliver inputPaths outputDir events r0) in
  processed final = (processed stats0 + sumOf completedTask results)%Z
  /\ failed final = (failed stats0 + sumOf failedTask results)%Z
  /\ totalSizeBefore final
     = (totalSizeBefore stats0 + sumOf inputBytes results)%Z
  /\ totalSizeAfter final
     = (totalSizeAfter stats0 + sumOf outputBytes results)%Z
  /\ totalSaved (getStats final)
     = (totalSaved (getStats stats0) + sumOf savedBytesOf results)%Z.
Proof.
  clear path_join hasGifExtension.
  intros Hcall Hresults final.
  destruct (run_ledger inputPaths outputDir ensureDir stats0 events r0 Hcall)
    as [Hinv Hled].
  assert (Hrun := deliver_inv inputPaths outputDir stats0 events r0
                    (convertFiles_inv _ _ _ _ _ Hcall)).
  set (r := deliver inputPaths outputDir events r0) in *.
  unfold resultsOf in Hresults.
  destruct (PMap.settlement (pmap r)) as [[m|reason]|] eqn:Hset;
    try discriminate.
  injection Hresults as <-.
  destruct (PMap.inv_fulfilled _ _ _ _ _ Hinv m Hset)
    as (_ & Hrej & Herr & -> & _).
  destruct Hrun as [_ Htally].
  destruct (Htally Hrej Herr) as (H1 & H2 & H3 & H4).
  assert (Hsaved := sumOf_saved outputDir
                      (arrayOf (length inputPaths) (PMap.result (pmap r)))).
  rewrite Hsaved.
  - unfold final. cbn [getStats totalSaved].
    split; [exact H1|]. split; [exact H2|]. split; [exact H3|].
    split; [exact H4|]. rewrite H3, H4. lia.
  - unfold arrayOf. apply Forall_forall. intros x Hx.
    apply list_elem_of_fmap in Hx. destruct Hx as (i & -> & _).
    intros result Hres.
    destruct (led_order _ _ _ _ Hled i result Hres) as (p & _ & Hfor).
    exists p. exact Hfor.
Qed.

(** *** Runs that go through the whole input *)

(** What [runInv] and [ledger] give together with one more property [P]
    of the [pMap] state that every job end preserves. *)
Lemma deliver_preserves (P : PMap.state ConversionResult -> Prop)
    (inputPaths : list string) (outputDir : string) (stats0 : Stats)
    (events : list Event) :
  (forall e r,
      e ∈ events ->
      runInv (length inputPaths) stats0 r ->
      ledger inputPaths outputDir stats0 r ->
      P (pmap r) -> P (pmap (finishJob inputPaths outputDir e r))) ->
  forall r,
    runInv (length inputPaths) stats0 r ->
    ledger inputPaths outputDir stats0 r ->
    P (pmap r) ->
    P (pmap (deliver inputPaths outputDir events r)).
Proof.
  unfold deliver. induction events as [|e events IH];
    intros Hstep r Hinv Hled HP; cbn [fold_left]; [exact HP|].
  apply IH.
  - intros e' r' He'. apply Hstep. right. exact He'.
  - apply finishJob_inv. exact Hinv.
  - apply finishJob_ledger; assumption.
  - apply Hstep; [left|..]; assumption.
Qed.

(** When all the jobs have ended, the promise is settled. *)
Lemma ledger_all_ended (inputPaths : list string) (outputDir : string)
    (stats0 : Stats) (r : Run) :
  ledger inputPaths outputDir stats0 r ->
  completed r = length inputPaths ->
  exists x, PMap.settlement (pmap r) = Some x.
Proof.
  intros Hled Hall.
  assert (Hs := led_started _ _ _ _ Hled). unfold PMap.startedCalls in Hs.
  assert (Hz : size (PMap.pending (pmap r)) = 0%nat) by lia.
  apply size_empty_iff in Hz. apply leibniz_equiv in Hz.
  destruct (PMap.isResolved (pmap r)) eqn:Hres.
  - apply (led_settled _ _ _ _ Hled) in Hres. exact Hres.
  - exfalso. exact (led_busy _ _ _ _ Hled Hres Hz).
Qed.

(** What [convertFiles] does with a list that is not empty: it is
    rejected with the error of [fs.ensureDir] before any job is started,
    or starts a run. *)
Lemma convertFiles_outcomes (inputPaths : list string) (outputDir : string)
    (stats0 : Stats) :
  inputPaths <> [] ->
  (forall message,
      convertFiles (Some inputPaths) outputDir (Some message) stats0
      = Rejects message)
  /\ exists r0,
       convertFiles (Some inputPaths) outputDir None stats0 = Runs r0.
Proof.
  intros Hne. unfold convertFiles.
  destruct inputPaths; [contradiction|].
  split; [reflexivity|]. eexists. reflexivity.
Qed.

(** A run without [stopOnError] is settled only when every input has
    ended. *)
Lemma without_stop_run (inputPaths : list string)
    (outputDir : string) (ensureDir : option string) (stats0 : Stats)
    (events : list Event) (r0 : Run) :
  stopOnError opts = false ->
  (1 <= concurrency opts)%nat ->
  convertFiles (Some inputPaths) outputDir ensureDir stats0 = Runs r0 ->
  let r := deliver inputPaths outputDir events r0 in
  resultsOf inputPaths r <> None ->
  completed r = length inputPaths
  /\ PMap.pending (pmap r) = ∅
  /\ (resultsOf inputPaths r = Some (Throws "")
      \/ exists results,
           resultsOf inputPaths r = Some (Returns results)
           /\ length results = length inputPaths).
Proof.
  clear path_join hasGifExtension.
  intros Hstop Hconc Hcall r Hsettled.
  assert (Hinv0 := convertFiles_inv _ _ _ _ _ Hcall).
  assert (Hled0 := convertFiles_ledger _ _ _ _ _ Hcall).
  destruct (run_ledger inputPaths outputDir ensureDir stats0 events r0 Hcall)
    as [Hinv Hled].
  fold r in Hinv, Hled.
  assert (Hdrained : PMap.drained (length inputPaths) (pmap r)).
  { apply (deliver_preserves (PMap.drained (length inputPaths)) inputPaths
             outputDir stats0 events); try assumption.
    - intros e r1 _ [Hinv1 _] Hled1 HP. unfold finishJob.
      destruct (inputPaths !! ev_index e); [|exact HP].
      destruct (decide _); [|exact HP].
      destruct (convertFile _ _ _ _). cbn [pmap].
      apply (PMap.settle_drained _ _ (concurrency opts));
        [exact Hstop|exact Hinv1|exact (led_settled _ _ _ _ Hled1)|exact HP].
    - revert Hcall. unfold convertFiles.
      destruct inputPaths; [discriminate|].
      destruct ensureDir; [discriminate|]. intros H. injection H as <-.
      cbn [pmap]. apply PMap.pMap_drained. exact Hconc. }
  assert (Hres : PMap.isResolved (pmap r) = true).
  { apply (led_settled _ _ _ _ Hled). unfold resultsOf in Hsettled.
    destruct (PMap.settlement (pmap r)); [eauto|contradiction]. }
  destruct (Hdrained Hres) as (Hempty & Hend & Hset).
  assert (Hs := led_started _ _ _ _ Hled). unfold PMap.startedCalls in Hs.
  rewrite Hempty, size_empty in Hs.
  split; [lia|]. split; [exact Hempty|].
  unfold resultsOf. destruct Hset as [->|[m ->]]; [left; reflexivity|].
  right. eexists. split; [reflexivity|].
  unfold arrayOf. rewrite length_map, length_seq. reflexivity.
Qed.

(** X27: without [stopOnError], with a concurrency of at least 1 and a
    list of inputs that is not empty, the promise of [convertFiles] is
    settled either at once, rejected with the error of [fs.ensureDir] when
    the output directory cannot be created, or, once the directory is
    created, only when every input has ended and no job is running; it is
    then fulfilled with one result per input or rejected with the
    [AggregateError] of [pMap], whose message is empty. *)
Theorem without_stop_every_input_ends (inputPaths : list string)
    (outputDir : string) (stats0 : Stats) :
  stopOnError opts = false ->
  (1 <= concurrency opts)%nat ->
  inputPaths <> [] ->
  (forall message,
      convertFiles (Some inputPaths) outputDir (Some message) stats0
      = Rejects message)
  /\ exists r0,
       convertFiles (Some inputPaths) outputDir None stats0 = Runs r0
       /\ forall events,
            let r := deliver inputPaths outputDir events r0 in
            resultsOf inputPaths r <> None ->
            completed r = length inputPaths
            /\ PMap.pending (pmap r) = ∅
            /\ (resultsOf inputPaths r = Some (Throws "")
                \/ exists results,
                     resultsOf inputPaths r = Some (Returns results)
                     /\ length results = length inputPaths).
Proof.
  clear path_join hasGifExtension.
  intros Hstop Hconc Hne.
  destruct (convertFiles_outcomes inputPaths outputDir stats0 Hne)
    as [Hreject [r0 Hrun]].
  split; [exact Hreject|]. exists r0. split; [exact Hrun|].
  intros events.
  exact (without_stop_run inputPaths outputDir None stats0 events r0
           Hstop Hconc Hrun).
Qed.

(** A run whose progress callback does not throw is not rejected. *)
Lemma quiet_run (inputPaths : list string)
    (outputDir : string) (ensureDir : option string) (stats0 : Stats)
    (events : list Event) (r0 : Run) :
  (forall e, e ∈ events ->
             hasProgressCallback = false \/ ev_callbackThrows e = None) ->
  (1 <= concurrency opts)%nat ->
  convertFiles (Some inputPaths) outputDir ensureDir stats0 = Runs r0 ->
  let r := deliver inputPaths outputDir events r0 in
  (forall reason, resultsOf inputPaths r <> Some (Throws reason))
  /\ (completed r = length inputPaths ->
      exists results,
        resultsOf inputPaths r = Some (Returns results)
        /\ length results = length inputPaths).
Proof.
  clear path_join hasGifExtension.
  intros Hquiet Hconc Hcall r.
  assert (Hinv0 := convertFiles_inv _ _ _ _ _ Hcall).
  assert (Hled0 := convertFiles_ledger _ _ _ _ _ Hcall).
  destruct (run_ledger inputPaths outputDir ensureDir stats0 events r0 Hcall)
    as [Hinv Hled].
  fold r in Hinv, Hled.
  assert (Hstart : pmap r0 = PMap.pMap (length inputPaths) (stopOnError opts)
                              (concurrency opts)).
  { revert Hcall. unfold convertFiles.
    destruct inputPaths; [discriminate|].
    destruct ensureDir; [discriminate|]. intros H. injection H as <-.
    reflexivity. }
  assert (Hgood : PMap.clean (pmap r) /\ PMap.honest (pmap r)).
  { apply (deliver_preserves (fun s => PMap.clean s /\ PMap.honest s)
             inputPaths outputDir stats0 events); try assumption.
    - intros e r1 He _ _ [Hclean Hhonest]. unfold finishJob.
      destruct (inputPaths !! ev_index e); [|split; assumption].
      destruct (decide _); [|split; assumption].
      destruct (convertFile _ _ _ _) as [stats' result]. cbn [pmap].
      split; [|apply PMap.settle_honest; exact Hhonest].
      destruct (Hquiet e He) as [Hcb|Hcb]; rewrite Hcb;
        [|destruct hasProgressCallback];
        apply PMap.settle_fulfilled_clean; exact Hclean.
    - rewrite Hstart. split; [apply PMap.pMap_clean; exact Hconc|].
      apply PMap.pMap_honest. }
  destruct Hgood as [[Hrej Herr] Hhonest].
  assert (Hnot : forall reason,
             PMap.settlement (pmap r) <> Some (PMap.Rejected reason)).
  { intros reason Hset. apply Hhonest in Hset. congruence. }
  split.
  - intros reason. unfold resultsOf.
    destruct (PMap.settlement (pmap r)) as [[m|x]|] eqn:Hset;
      try discriminate.
    exfalso. exact (Hnot x eq_refl).
  - intros Hall.
    destruct (ledger_all_ended _ _ _ _ Hled Hall) as [[m|x] Hset].
    + unfold resultsOf. rewrite Hset. eexists. split; [reflexivity|].
      unfold arrayOf. rewrite length_map, length_seq. reflexivity.
    + exfalso. exact (Hnot x Hset).
Qed.

(** X28: a failed conversion never rejects a batch.  For a list of inputs
    that is not empty and a concurrency of at least 1, whatever
    [stopOnError] says, the promise of [convertFiles] is rejected at once
    with the error of [fs.ensureDir] when the output directory cannot be
    created; once the directory is created and as long as the progress
    callback does not throw (or none is registered), the promise is never
    rejected, and once every input has ended it is fulfilled with one
    result per input. *)
Theorem quiet_callback_run_is_fulfilled (inputPaths : list string)
    (outputDir : string) (stats0 : Stats) :
  (1 <= concurrency opts)%nat ->
  inputPaths <> [] ->
  (forall message,
      convertFiles (Some inputPaths) outputDir (Some message) stats0
      = Rejects message)
  /\ exists r0,
       convertFiles (Some inputPaths) outputDir None stats0 = Runs r0
       /\ forall events,
            (forall e, e ∈ events ->
                       hasProgressCallback = false
                       \/ ev_callbackThrows e = None) ->
            let r := deliver inputPaths outputDir events r0 in
            (forall reason, resultsOf inputPaths r <> Some (Throws reason))
            /\ (completed r = length inputPaths ->
                exists results,
                  resultsOf inputPaths r = Some (Returns results)
                  /\ length results = length inputPaths).
Proof.
  clear path_join hasGifExtension.
  intros Hconc Hne.
  destruct (convertFiles_outcomes inputPaths outputDir stats0 Hne)
    as [Hreject [r0 Hrun]].
  split; [exact Hreject|]. exists r0. split; [exact Hrun|].
  intros events Hquiet.
  exact (quiet_run inputPaths outputDir None stats0 events r0
           Hquiet Hconc Hrun).
Qed.

End Processor.

(** *** Concrete runs *)

Definition joinPath (directory name : string) : string :=
  directory +:+ "/" +:+ name.

Definition webpIn (inputPath outputDir : string) : string :=
  outputDir +:+ "/" +:+ inputPath +:+ ".webp".

(** One job at a time, stopping on error. *)
Definition oneByOne : Options :=
  {| o_concurrency := Some 1%nat; o_stopOnError := Some true |}.

Definition threeFiles : list string := ["a.gif"; "b.gif"; "c.gif"].

Definition ends (index : nat) (conversion : Conversion) : Event :=
  {| ev_index := index; ev_conversion := conversion;
     ev_callbackThrows := None |}.

(** The run of [threeFiles] when [convertFiles] first waits. *)
Definition started : Run :=
  {| pmap := PMap.pMap 3 true 1; stats := resetStats;
     completed := 0; notified := [] |}.

(** C1: the code keeps admitting items after a failure.  With
    [stopOnError] set and one job at a time, "a.gif" runs first and fails;
    [convertFile] has caught the error and returns a result, so the job is
    fulfilled, [pMap] never sees the failure, and "b.gif", pending until
    then, starts running, and "c.gif" after it; the run ends fulfilled with
    a result for every file and none is skipped. *)
Lemma stop_on_error_keeps_admitting :
  convertFiles oneByOne (Some threeFiles) "out" None resetStats = Runs started
  /\ PMap.pending (pmap started) = {[0%nat]}
  /\ (let failed := finishJob webpIn oneByOne false threeFiles "out"
                      (ends 0 (Threw "corrupt")) started in
      PMap.result (pmap failed) !! 0%nat = Some (Failure "a.gif" "corrupt")
      /\ PMap.isResolved (pmap failed) = false
      /\ PMap.pending (pmap failed) = {[1%nat]})
  /\ resultsOf threeFiles
       (deliver webpIn oneByOne false threeFiles "out"
          [ends 0 (Threw "corrupt"); ends 1 (Converted 1000 400 5);
           ends 2 (Converted 10 4 5)] started)
     = Some (Returns
               [Some (Failure "a.gif" "corrupt");
                Some (Success "b.gif" "out/b.gif.webp" 1000 400
                        (Num (60000 # 1000)) 5 600);
                Some (Success "c.gif" "out/c.gif.webp" 10 4
                        (Num (600 # 10)) 5 6)]).
Proof. vm_compute. repeat split; reflexivity. Qed.

(** The three jobs of [threeFiles] in order: a failure, then two
    conversions to 40% of the input. *)
Definition threeEvents : list Event :=
  [ends 0 (Threw "corrupt"); ends 1 (Converted 1000 400 5);
   ends 2 (Converted 10 4 5)].

Definition finished : Run :=
  deliver webpIn oneByOne false threeFiles "out" threeEvents started.

Definition threeResults : list (option ConversionResult) :=
  [Some (Failure "a.gif" "corrupt");
   Some (Success "b.gif" "out/b.gif.webp" 1000 400 (Num (60000 # 1000)) 5 600);
   Some (Success "c.gif" "out/c.gif.webp" 10 4 (Num (600 # 10)) 5 6)].

Lemma finished_run_statistics_witness :
  totalSizeBefore (stats finished) = sumOf inputBytes threeResults
  /\ totalSizeAfter (stats finished) = sumOf outputBytes threeResults
  /\ processed (stats finished) = sumOf completedTask threeResults
  /\ failed (stats finished) = sumOf failedTask threeResults
  /\ totalCompressionRatio (getStats (stats finished))
     == (if (sumOf inputBytes threeResults >? 0)%Z
         then inject_Z (sumOf inputBytes threeResults
                        - sumOf outputBytes threeResults)
              / inject_Z (sumOf inputBytes threeResults) * 100
         else 0).
Proof.
  apply (finished_run_statistics webpIn oneByOne false threeFiles "out" None
           threeEvents started threeResults);
    vm_compute; reflexivity.
Defined.

(** C5 as stated fails: the run above converts 1010 bytes into 404; the
    ratio that [getStats] exposes is the percentage 60, not the fraction
    (1010 - 404) / 1010 = 0.6. *)
Lemma aggregate_ratio_is_a_percentage :
  totalSizeBefore (stats finished) = 1010%Z
  /\ totalSizeAfter (stats finished) = 404%Z
  /\ failed (stats finished) = 1%Z
  /\ totalCompressionRatio (getStats (stats finished)) == 60
  /\ ~ totalCompressionRatio (getStats (stats finished))
       == inject_Z (1010 - 404) / inject_Z 1010.
Proof.
  vm_compute. repeat split; try reflexivity. intros H. discriminate H.
Qed.

(** Four files, two at a time, after the first job has ended. *)
Definition twoAtATime : Options :=
  {| o_concurrency := Some 2%nat; o_stopOnError := None |}.

Definition fourFiles : list string := ["a.gif"; "b.gif"; "c.gif"; "d.gif"].

Definition startedFour : Run :=
  {| pmap := PMap.pMap 4 false 2; stats := resetStats;
     completed := 0; notified := [] |}.


(** A name that ends in ".gif", for directories with plain lower-case
    names. *)
Definition endsInGif (name : string) : bool :=
  String.eqb (String.substring (String.length name - 4) 4 name) ".gif".

(** A directory with a text file and, one level down, a GIF file; the scan
    is not recursive. *)
Definition documents : option (list Dirent) :=
  Some [FileEntry "readme.txt";
        DirectoryEntry "old" (Some [FileEntry "cat.gif"])].

Lemma empty_input_throws_empty_directory_returns_witness :
  convertDirectory joinPath endsInGif oneByOne "docs" documents "out" false
    None resetStats
  = ReturnsArray [].
Proof.
  apply (proj2 (empty_input_throws_empty_directory_returns
                  joinPath endsInGif oneByOne)).
  reflexivity.
Defined.

(** *** More concrete runs *)

(** The four jobs of [fourFiles], two at a time, ending out of order. *)
Definition outOfOrder : list Event :=
  [ends 1 (Converted 1000 400 5); ends 0 (Threw "corrupt");
   ends 3 (Converted 10 4 5); ends 2 (Converted 20 10 7)].

Definition fourResults : list (option ConversionResult) :=
  [Some (Failure "a.gif" "corrupt");
   Some (Success "b.gif" "out/b.gif.webp" 1000 400 (Num (60000 # 1000)) 5 600);
   Some (Success "c.gif" "out/c.gif.webp" 20 10 (Num (1000 # 20)) 7 10);
   Some (Success "d.gif" "out/d.gif.webp" 10 4 (Num (600 # 10)) 5 6)].

Lemma results_follow_input_order_witness :
  length fourResults = length fourFiles
  /\ forall i inputPath,
       fourFiles !! i = Some inputPath ->
       exists result,
         fourResults !! i = Some (Some result)
         /\ resultFor webpIn "out" inputPath result.
Proof.
  apply (results_follow_input_order webpIn twoAtATime true fourFiles "out"
           None resetStats outOfOrder startedFour fourResults);
    vm_compute; reflexivity.
Defined.

Lemma ended_jobs_are_counted_witness :
  let r := deliver webpIn twoAtATime true fourFiles "out"
             [ends 1 (Converted 1000 400 5); ends 0 (Threw "corrupt")]
             startedFour in
  (completed r + size (PMap.pending (pmap r))
   = Nat.min (PMap.currentIndex (pmap r)) (length fourFiles))%nat
  /\ (completed r <= length fourFiles)%nat
  /\ (processed (stats r) + failed (stats r)
      = processed resetStats + failed resetStats + Z.of_nat (completed r))%Z
  /\ (map p_completed (notified r) = rev (seq 1 (completed r))
      /\ Forall (fun p => p_total p = length fourFiles) (notified r)).
Proof.
  apply (ended_jobs_are_counted webpIn twoAtATime true fourFiles "out" None
           resetStats
           [ends 1 (Converted 1000 400 5); ends 0 (Threw "corrupt")]
           startedFour).
  reflexivity.
Defined.

Lemma unsettled_run_has_a_running_job_witness :
  let r := deliver webpIn twoAtATime true fourFiles "out"
             [ends 1 (Converted 1000 400 5); ends 0 (Threw "corrupt")]
             startedFour in
  (resultsOf fourFiles r = None <-> PMap.isResolved (pmap r) = false)
  /\ (resultsOf fourFiles r = None ->
      exists i inputPath,
        i ∈ PMap.pending (pmap r) /\ fourFiles !! i = Some inputPath)
  /\ (completed r = length fourFiles -> resultsOf fourFiles r <> None).
Proof.
  apply (unsettled_run_has_a_running_job webpIn twoAtATime true fourFiles
           "out" None resetStats
           [ends 1 (Converted 1000 400 5); ends 0 (Threw "corrupt")]
           startedFour).
  reflexivity.
Defined.

(** The job of "a.gif" converts the file, then the callback throws. *)
Definition callbackThrows : Event :=
  {| ev_index := 0; ev_conversion := Converted 1000 400 5;
     ev_callbackThrows := Some "callback failed" |}.

Lemma throwing_callback_fails_the_run_witness :
  let r := deliver webpIn oneByOne true threeFiles "out" [] started in
  let r' := finishJob webpIn oneByOne true threeFiles "out" callbackThrows r in
  let r'' := deliver webpIn oneByOne true threeFiles "out"
               [ends 1 (Converted 10 4 5)] r' in
  (forall results, resultsOf threeFiles r'' <> Some (Returns results))
  /\ completed r' = S (completed r)
  /\ (stopOnError (newOptions oneByOne) = true ->
      resultsOf threeFiles r = None ->
      resultsOf threeFiles r'' = Some (Throws "callback failed")
      /\ PMap.currentIndex (pmap r'') = PMap.currentIndex (pmap r)
      /\ PMap.pending (pmap r'')
         ⊆ PMap.pending (pmap r) ∖ {[ev_index callbackThrows]}).
Proof.
  apply (throwing_callback_fails_the_run webpIn oneByOne true threeFiles
           "out" None resetStats [] [ends 1 (Converted 10 4 5)] started
           callbackThrows "callback failed");
    [reflexivity | reflexivity | | reflexivity].
  vm_compute. set_solver.
Defined.

(** No job at a time. *)
Definition noneAtATime : Options :=
  {| o_concurrency := Some 0%nat; o_stopOnError := None |}.

Definition rejectedAtOnce : Run :=
  {| pmap := PMap.pMap 3 false 0; stats := resetStats;
     completed := 0; notified := [] |}.

Lemma zero_concurrency_rejects_witness :
  resultsOf threeFiles rejectedAtOnce
  = Some (Throws
            "Expected `concurrency` to be an integer from 1 and up or `Infinity`, got `0` (number)")
  /\ PMap.pending (pmap rejectedAtOnce) = ∅
  /\ PMap.currentIndex (pmap rejectedAtOnce) = 0%nat
  /\ stats rejectedAtOnce = resetStats
  /\ deliver webpIn noneAtATime false threeFiles "out" threeEvents
       rejectedAtOnce = rejectedAtOnce.
Proof.
  apply (zero_concurrency_rejects webpIn noneAtATime false threeFiles "out"
           resetStats threeEvents rejectedAtOnce); reflexivity.
Defined.

(** A second run of [threeFiles] on the statistics the first one left. *)
Definition afterOneRun : Stats :=
  {| processed := 2; failed := 1; totalSizeBefore := 1010;
     totalSizeAfter := 404 |}.

Definition startedAgain : Run :=
  {| pmap := PMap.pMap 3 true 1; stats := afterOneRun;
     completed := 0; notified := [] |}.

Lemma statistics_accumulate_witness :
  let final := stats (deliver webpIn oneByOne false threeFiles "out"
                        threeEvents startedAgain) in
  processed final = (processed afterOneRun + sumOf completedTask threeResults)%Z
  /\ failed final = (failed afterOneRun + sumOf failedTask threeResults)%Z
  /\ totalSizeBefore final
     = (totalSizeBefore afterOneRun + sumOf inputBytes threeResults)%Z
  /\ totalSizeAfter final
     = (totalSizeAfter afterOneRun + sumOf outputBytes threeResults)%Z
  /\ totalSaved (getStats final)
     = (totalSaved (getStats afterOneRun)
        + sumOf savedBytesOf threeResults)%Z.
Proof.
  apply (statistics_accumulate webpIn oneByOne false threeFiles "out" None
           afterOneRun threeEvents startedAgain threeResults);
    vm_compute; reflexivity.
Defined.

Lemma without_stop_every_input_ends_witness :
  (forall message,
      convertFiles twoAtATime (Some fourFiles) "out" (Some message) resetStats
      = Rejects message)
  /\ exists r0,
       convertFiles twoAtATime (Some fourFiles) "out" None resetStats
       = Runs r0
       /\ forall events,
            let r := deliver webpIn twoAtATime true fourFiles "out" events r0 in
            resultsOf fourFiles r <> None ->
            completed r = length fourFiles
            /\ PMap.pending (pmap r) = ∅
            /\ (resultsOf fourFiles r = Some (Throws "")
                \/ exists results,
                     resultsOf fourFiles r = Some (Returns results)
                     /\ length results = length fourFiles).
Proof.
  apply (without_stop_every_input_ends webpIn twoAtATime true fourFiles "out"
           resetStats); [reflexivity | cbn; lia | discriminate].
Defined.

Lemma quiet_callback_run_is_fulfilled_witness :
  (forall message,
      convertFiles oneByOne (Some threeFiles) "out" (Some message) resetStats
      = Rejects message)
  /\ exists r0,
       convertFiles oneByOne (Some threeFiles) "out" None resetStats = Runs r0
       /\ forall events,
            (forall e, e ∈ events -> true = false \/ ev_callbackThrows e = None) ->
            let r := deliver webpIn oneByOne true threeFiles "out" events r0 in
            (forall reason, resultsOf threeFiles r <> Some (Throws reason))
            /\ (completed r = length threeFiles ->
                exists results,
                  resultsOf threeFiles r = Some (Returns results)
                  /\ length results = length threeFiles).
Proof.
  apply (quiet_callback_run_is_fulfilled webpIn oneByOne true threeFiles "out"
           resetStats); [cbn; lia | discriminate].
Defined.

End Batch.
